(** * Shallow embedding of the Svelte language-tools helpers

    Two source files are embedded:
    - [packages/typescript-plugin/src/utils.ts]: path classification,
      generated-code detection, syntax-tree searches, module probing;
    - [packages/language-server/test/plugins/typescript/test-utils.ts]:
      the in-memory [ts.System] built by [createVirtualTsSystem].

    JavaScript strings are sequences of UTF-16 code units; indices are
    integers ([Z]), with the clamping the language prescribes written out. *)

From Stdlib Require Import ZArith List Ascii String Lia Bool.
From stdpp Require Import gmap list.

Local Open Scope Z_scope.
Set Warnings "-register-all".

(** ** JavaScript strings *)

Abbreviation jsstring := (list N).

(** An ASCII literal as a sequence of code units. *)
Definition u16 (s : string) : jsstring :=
  List.map N_of_ascii (list_ascii_of_string s).

Module JS.

Definition len (s : jsstring) : Z := Z.of_nat (length s).

(** [s.startsWith(x)] *)
Fixpoint startsWith (s x : jsstring) {struct x} : bool :=
  match x, s with
  | [], _ => true
  | _ :: _, [] => false
  | c :: x', d :: s' => N.eqb c d && startsWith s' x'
  end.

(** [s === x] on strings *)
Fixpoint sameUnits (s x : jsstring) : bool :=
  match s, x with
  | [], [] => true
  | c :: s', d :: x' => N.eqb c d && sameUnits s' x'
  | _, _ => false
  end.

(** [s.endsWith(x)]: the last [x.length] units of [s] are [x]. *)
Definition endsWith (s x : jsstring) : bool :=
  if len s <? len x then false
  else startsWith (skipn (Z.to_nat (len s - len x)) s) x.

(** An index argument clamped into [0 .. s.length]. *)
Definition clampIndex (s : jsstring) (i : Z) : Z :=
  Z.min (Z.max i 0) (len s).

(** [s.substring(a, b)]: both ends clamped, then swapped when reversed. *)
Definition substring (s : jsstring) (a b : Z) : jsstring :=
  let fs := clampIndex s a in
  let fe := clampIndex s b in
  let from := Z.min fs fe in
  let to := Z.max fs fe in
  firstn (Z.to_nat (to - from)) (skipn (Z.to_nat from) s).

(** [s.slice(a, b)]: negative ends count from the end of [s]. *)
Definition sliceIndex (s : jsstring) (i : Z) : Z :=
  if i <? 0 then Z.max (len s + i) 0 else Z.min i (len s).

Definition slice (s : jsstring) (a b : Z) : jsstring :=
  let from := sliceIndex s a in
  let to := sliceIndex s b in
  firstn (Z.to_nat (to - from)) (skipn (Z.to_nat from) s).

(** First occurrence of [x] in [rest], the suffix of the text that starts
    at index [k]. *)
Fixpoint scanForward (x rest : jsstring) (k : nat) : option nat :=
  if startsWith rest x then Some k
  else match rest with
       | [] => None
       | _ :: rest' => scanForward x rest' (S k)
       end.

(** [s.indexOf(x, pos)] *)
Definition indexOf (s x : jsstring) (pos : Z) : Z :=
  let start := Z.to_nat (clampIndex s pos) in
  match scanForward x (skipn start s) start with
  | Some k => Z.of_nat k
  | None => -1
  end.

(** Last occurrence of [x] in [s] that starts at an index [<= i]. *)
Fixpoint scanBackward (x s : jsstring) (i : nat) : option nat :=
  if startsWith (skipn i s) x then Some i
  else match i with
       | O => None
       | S j => scanBackward x s j
       end.

(** [s.lastIndexOf(x, pos)] *)
Definition lastIndexOfFrom (s x : jsstring) (pos : Z) : Z :=
  match scanBackward x s (Z.to_nat (clampIndex s pos)) with
  | Some k => Z.of_nat k
  | None => -1
  end.

(** [s.lastIndexOf(x)]: the position defaults to the end of [s]. *)
Definition lastIndexOf (s x : jsstring) : Z :=
  lastIndexOfFrom s x (len s).

(** [s.includes(x)] *)
Definition includes (s x : jsstring) : bool :=
  negb (indexOf s x 0 =? -1).

End JS.

(** ** utils.ts: path classification *)

Definition isSvelteFilePath (filePath : jsstring) : bool :=
  JS.endsWith filePath (u16 ".svelte").

Definition isVirtualSvelteFilePath (filePath : jsstring) : bool :=
  JS.endsWith filePath (u16 ".svelte.ts").

Definition toRealSvelteFilePath (filePath : jsstring) : jsstring :=
  JS.slice filePath 0 (- JS.len (u16 ".ts")).

Definition ensureRealSvelteFilePath (filePath : jsstring) : jsstring :=
  if isVirtualSvelteFilePath filePath then toRealSvelteFilePath filePath
  else filePath.

(** ** utils.ts: generated-code regions *)

(** The code unit of the Greek capital omega used in both markers. *)
Definition omega : N := 937%N.

Definition ignoreStart : jsstring :=
  u16 "/*" ++ [omega] ++ u16 "ignore_start" ++ [omega] ++ u16 "*/".

Definition ignoreEnd : jsstring :=
  u16 "/*" ++ [omega] ++ u16 "ignore_end" ++ [omega] ++ u16 "*/".

Definition newline : jsstring := [10%N].

Definition isInGeneratedCode (text : jsstring) (start end_ : Z) : bool :=
  let lineStart := JS.lastIndexOfFrom text newline start in
  let lineEnd := JS.indexOf text newline end_ in
  let lastStart := JS.lastIndexOf (JS.substring text lineStart start) ignoreStart in
  let lastEnd := JS.lastIndexOf (JS.substring text lineStart start) ignoreEnd in
  (lastEnd <? lastStart) && JS.includes (JS.substring text end_ lineEnd) ignoreEnd.

(** ** utils.ts: syntax trees *)

(** A [ts.Node] as far as the helpers look at it: the identity of the
    object, its syntax kind, [getStart()], [getEnd()] and [getChildren()]. *)
Inductive Node : Type :=
  mkNode (nodeId : nat) (kind : nat) (start end_ : Z) (children : list Node).

Definition nodeId (n : Node) : nat := let 'mkNode i _ _ _ _ := n in i.
Definition kind (n : Node) : nat := let 'mkNode _ k _ _ _ := n in k.
Definition getStart (n : Node) : Z := let 'mkNode _ _ s _ _ := n in s.
Definition getEnd (n : Node) : Z := let 'mkNode _ _ _ e _ := n in e.
Definition getChildren (n : Node) : list Node := let 'mkNode _ _ _ _ cs := n in cs.

Record TextSpan := { span_start : Z; span_length : Z }.

(** The test of one child in the loop of [findNodeAtSpan]: an exact match is
    returned at once when there is no predicate or the predicate holds. *)
Definition exactMatch (start end_ : Z) (predicate : option (Node -> bool))
    (child : Node) : bool :=
  (start =? getStart child) && (end_ =? getEnd child)
  && match predicate with
     | None => true
     | Some accepts => accepts child
     end.

(** The [for] loop over [node.getChildren()]; [recur] is the recursive call. *)
Definition scanChildren (recur : Node -> option Node) (start end_ : Z)
    (predicate : option (Node -> bool)) : list Node -> option Node :=
  fix scan (children : list Node) : option Node :=
    match children with
    | [] => None
    | child :: rest =>
        if end_ <=? getStart child then None
        else if start >=? getEnd child then scan rest
        else if exactMatch start end_ predicate child then Some child
        else match recur child with
             | Some foundInChildren => Some foundInChildren
             | None => scan rest
             end
    end.

Fixpoint findNodeAtSpan (node : Node) (span : TextSpan)
    (predicate : option (Node -> bool)) : option Node :=
  let start := span_start span in
  let end_ := start + span_length span in
  match node with
  | mkNode _ _ _ _ children =>
      scanChildren (fun child => findNodeAtSpan child span predicate)
        start end_ predicate children
  end.

(** The loop of [gatherDescendants] over the children, threading [dest]. *)
Definition gatherEach (recur : Node -> list Node -> list Node) :
    list Node -> list Node -> list Node :=
  fix each (children dest : list Node) : list Node :=
    match children with
    | [] => dest
    | child :: rest => each rest (recur child dest)
    end.

Fixpoint gatherDescendants (node : Node) (predicate : Node -> bool)
    (dest : list Node) : list Node :=
  if predicate node then dest ++ [node]
  else match node with
       | mkNode _ _ _ _ children =>
           gatherEach (fun child d => gatherDescendants child predicate d)
             children dest
       end.

(** Proper descendants of a node in document order (a parent before its
    children, children from left to right). *)
Fixpoint descendants (n : Node) : list Node :=
  match n with
  | mkNode _ _ _ _ children =>
      flat_map (fun c => c :: descendants c) children
  end.

Definition subtree (n : Node) : list Node := n :: descendants n.

(** The number of nodes of a tree. *)
Fixpoint nodeSize (n : Node) : nat :=
  match n with
  | mkNode _ _ _ _ children =>
      S (fold_right (fun c total => (nodeSize c + total)%nat) 0%nat children)
  end.

(** Distinct node objects of a tree have distinct identities. *)
Definition distinctNodes (root : Node) : Prop :=
  NoDup (List.map nodeId (subtree root)).

(** The ordering the traversals rely on: every range is well formed, the
    children lie inside [lo, hi) and do not overlap, from left to right. *)
Definition orderedChildren (ordered : Node -> bool) (hi : Z) :
    Z -> list Node -> bool :=
  fix go (lo : Z) (children : list Node) : bool :=
    match children with
    | [] => true
    | c :: rest =>
        (lo <=? getStart c) && (getStart c <=? getEnd c) && (getEnd c <=? hi)
        && ordered c && go (getEnd c) rest
    end.

Fixpoint orderedTree (n : Node) : bool :=
  match n with
  | mkNode _ _ s e children => orderedChildren orderedTree e s children
  end.

(** Sample trees. *)
Definition leaf (i k : nat) (s e : Z) : Node := mkNode i k s e [].

(** A statement [5,10) whose only child is an expression with the same
    range, between two other statements. *)
Definition nestedTree : Node :=
  mkNode 0 0 0 20
    [ leaf 1 1 0 4;
      mkNode 2 2 5 10 [ mkNode 3 3 5 10 [ leaf 4 4 5 8; leaf 5 4 9 10 ] ];
      leaf 6 1 12 20 ].

(** A tree with an empty node at offset 5. *)
Definition emptyNodeTree : Node :=
  mkNode 0 0 0 20 [ leaf 1 1 0 4; leaf 2 5 5 5; leaf 3 1 6 20 ].

(** ** utils.ts: module probing *)

(** The JavaScript values that [hasNodeModule] handles. *)
Inductive JsValue : Type :=
| VUndefined
| VBool (b : bool)
| VString (s : jsstring).

Definition truthy (v : JsValue) : bool :=
  match v with
  | VUndefined => false
  | VBool b => b
  | VString s => negb (JS.len s =? 0)
  end.

(** [a === b] on these values. *)
Definition strictEquals (a b : JsValue) : bool :=
  match a, b with
  | VUndefined, VUndefined => true
  | VBool x, VBool y => Bool.eqb x y
  | VString x, VString y => JS.sameUnits x y
  | _, _ => false
  end.

(** A thrown value: nullish, or an object whose [code] property is read. *)
Inductive Thrown : Type :=
| ThrownNullish
| ThrownObject (code : JsValue).

(** [e?.code] *)
Definition codeOf (e : Thrown) : JsValue :=
  match e with
  | ThrownNullish => VUndefined
  | ThrownObject c => c
  end.

Inductive Completion (A : Type) : Type :=
| Returns (a : A)
| Throws (e : Thrown).
Arguments Returns {A} a.
Arguments Throws {A} e.

Definition tryCatch {A} (body : Completion A) (handler : Thrown -> Completion A)
    : Completion A :=
  match body with
  | Returns a => Returns a
  | Throws e => handler e
  end.

(** [compilerOptions.configFilePath] is the only option read. *)
Record CompilerOptions := { configFilePath : JsValue }.

(** Node's [require.resolve(request, { paths })]. *)
Definition Resolver := jsstring -> list jsstring -> Completion jsstring.

Definition ERR_PACKAGE_PATH_NOT_EXPORTED : jsstring :=
  u16 "ERR_PACKAGE_PATH_NOT_EXPORTED".

Definition MODULE_NOT_FOUND : jsstring := u16 "MODULE_NOT_FOUND".

Definition hasNodeModule (requireResolve : Resolver)
    (compilerOptions : CompilerOptions) (module : jsstring)
    : Completion JsValue :=
  tryCatch
    (match configFilePath compilerOptions with
     | VString path =>
         match requireResolve module [path] with
         | Returns resolved => Returns (VString resolved)
         | Throws e => Throws e
         end
     | _ => Returns (VBool true)
     end)
    (fun e =>
       Returns (VBool (strictEquals (codeOf e)
                         (VString ERR_PACKAGE_PATH_NOT_EXPORTED)))).

(** A resolver for a project in which nothing is installed. *)
Definition nothingInstalled : Resolver :=
  fun _ _ => Throws (ThrownObject (VString MODULE_NOT_FOUND)).

(** A resolver that knows [svelte] and a package with a closed export map. *)
Definition sampleResolver : Resolver :=
  fun request _ =>
    if strictEquals (VString request) (VString (u16 "svelte"))
    then Returns (u16 "/app/node_modules/svelte/index.js")
    else if strictEquals (VString request) (VString (u16 "@sveltejs/kit/package.json"))
    then Throws (ThrownObject (VString ERR_PACKAGE_PATH_NOT_EXPORTED))
    else Throws (ThrownObject (VString MODULE_NOT_FOUND)).

(** ** test-utils.ts: the virtual system *)

(** What the virtual system takes from its surroundings: the helpers of
    [src/utils] and of Node's [path] module. *)
Class Platform := {
  getCanonicalFileName : jsstring -> jsstring;
  normalizePath : jsstring -> jsstring;
  isAbsolute : jsstring -> bool;
  join : jsstring -> jsstring -> jsstring
}.

Module FileMap.

(** Modelled from the spec: the class [FileMap] of
    [src/lib/documents/fileCollection] is not among the sources; the spec
    describes its tables as mappings whose keys are case-normalized per the
    host's case-sensitivity setting, so every access goes through
    [getCanonicalFileName]. *)
Definition get `{Platform} {V} (m : gmap jsstring V) (filePath : jsstring)
    : option V :=
  m !! getCanonicalFileName filePath.

(** Modelled from the spec: [FileMap.set], see [get]. *)
Definition set `{Platform} {V} (m : gmap jsstring V) (filePath : jsstring)
    (value : V) : gmap jsstring V :=
  <[getCanonicalFileName filePath := value]> m.

(** Modelled from the spec: [FileMap.has], see [get]. *)
Definition has `{Platform} {V} (m : gmap jsstring V) (filePath : jsstring)
    : bool :=
  match m !! getCanonicalFileName filePath with
  | Some _ => true
  | None => false
  end.

(** Modelled from the spec: [FileMap.delete], see [get]. *)
Definition delete `{Platform} {V} (m : gmap jsstring V) (filePath : jsstring)
    : gmap jsstring V :=
  base.delete (getCanonicalFileName filePath) m.

(** Modelled from the spec: [FileMap.keys], the stored (canonical) keys. *)
Definition keys {V} (m : gmap jsstring V) : list jsstring :=
  List.map fst (map_to_list m).

End FileMap.

(** A watcher callback is known by the identity of its function object;
    calling it is recorded in the log of delivered notifications. The
    callbacks are taken not to call back into the virtual system while they
    run. *)
Definition Callback := nat.

Inductive FileWatcherEventKind := Created | Changed | Deleted.

(** A timer set by [triggerWatch]: its handle and what its closure holds. *)
Record Timer := {
  timerId : nat;
  timerPath : jsstring;
  timerKind : FileWatcherEventKind
}.

(** One call [callback(fileName, eventKind)]. *)
Record Notification := {
  receiver : Callback;
  fileName : jsstring;
  eventKind : FileWatcherEventKind
}.

(** The closure state of [createVirtualTsSystem] and, below the line, the
    runtime around it: the clock read by [new Date()], the timers set and
    not yet fired, and the calls made to watcher callbacks so far. *)
Record VirtualSystem := {
  currentDirectory : jsstring;
  virtualFs : gmap jsstring jsstring;
  watchers : gmap jsstring (list Callback);
  watchTimeout : gmap jsstring (list nat);
  modifiedTime : gmap jsstring Z;
  (* ---- *)
  clock : Z;
  nextTimeout : nat;
  timerQueue : list Timer;
  delivered : list Notification
}.

Definition withVirtualFs (f : gmap jsstring jsstring) (st : VirtualSystem) :=
  {| currentDirectory := currentDirectory st; virtualFs := f;
     watchers := watchers st; watchTimeout := watchTimeout st;
     modifiedTime := modifiedTime st; clock := clock st;
     nextTimeout := nextTimeout st; timerQueue := timerQueue st;
     delivered := delivered st |}.

Definition withWatchers (w : gmap jsstring (list Callback)) (st : VirtualSystem) :=
  {| currentDirectory := currentDirectory st; virtualFs := virtualFs st;
     watchers := w; watchTimeout := watchTimeout st;
     modifiedTime := modifiedTime st; clock := clock st;
     nextTimeout := nextTimeout st; timerQueue := timerQueue st;
     delivered := delivered st |}.

Definition withWatchTimeout (w : gmap jsstring (list nat)) (st : VirtualSystem) :=
  {| currentDirectory := currentDirectory st; virtualFs := virtualFs st;
     watchers := watchers st; watchTimeout := w;
     modifiedTime := modifiedTime st; clock := clock st;
     nextTimeout := nextTimeout st; timerQueue := timerQueue st;
     delivered := delivered st |}.

Definition withModifiedTime (m : gmap jsstring Z) (st : VirtualSystem) :=
  {| currentDirectory := currentDirectory st; virtualFs := virtualFs st;
     watchers := watchers st; watchTimeout := watchTimeout st;
     modifiedTime := m; clock := clock st;
     nextTimeout := nextTimeout st; timerQueue := timerQueue st;
     delivered := delivered st |}.

Definition withClock (c : Z) (st : VirtualSystem) :=
  {| currentDirectory := currentDirectory st; virtualFs := virtualFs st;
     watchers := watchers st; watchTimeout := watchTimeout st;
     modifiedTime := modifiedTime st; clock := c;
     nextTimeout := nextTimeout st; timerQueue := timerQueue st;
     delivered := delivered st |}.

Definition withTimers (next : nat) (q : list Timer) (st : VirtualSystem) :=
  {| currentDirectory := currentDirectory st; virtualFs := virtualFs st;
     watchers := watchers st; watchTimeout := watchTimeout st;
     modifiedTime := modifiedTime st; clock := clock st;
     nextTimeout := next; timerQueue := q;
     delivered := delivered st |}.

Definition withDelivered (d : list Notification) (st : VirtualSystem) :=
  {| currentDirectory := currentDirectory st; virtualFs := virtualFs st;
     watchers := watchers st; watchTimeout := watchTimeout st;
     modifiedTime := modifiedTime st; clock := clock st;
     nextTimeout := nextTimeout st; timerQueue := timerQueue st;
     delivered := d |}.

Definition createVirtualTsSystem (currentDirectory : jsstring) : VirtualSystem :=
  {| currentDirectory := currentDirectory; virtualFs := ∅; watchers := ∅;
     watchTimeout := ∅; modifiedTime := ∅; clock := 0;
     nextTimeout := 1; timerQueue := []; delivered := [] |}.

Definition toAbsolute `{Platform} (st : VirtualSystem) (path : jsstring)
    : jsstring :=
  if isAbsolute path then path else join (currentDirectory st) path.

(** [setTimeout(closure, 0)]: a fresh handle, queued behind the timers set
    before it. *)
Definition setTimeout (path : jsstring) (kind : FileWatcherEventKind)
    (st : VirtualSystem) : nat * VirtualSystem :=
  let id := nextTimeout st in
  (id, withTimers (S id)
         (timerQueue st ++
          [{| timerId := id; timerPath := path; timerKind := kind |}]) st).

(** [clearTimeout(id)]: a timer already fired is not in the queue. *)
Definition clearTimeout (id : nat) (st : VirtualSystem) : VirtualSystem :=
  withTimers (nextTimeout st)
    (List.filter (fun t => negb (Nat.eqb (timerId t) id)) (timerQueue st)) st.

Definition triggerWatch `{Platform} (normalizedPath : jsstring)
    (kind : FileWatcherEventKind) (st : VirtualSystem) : VirtualSystem :=
  let timeoutsOfPath :=
    match FileMap.get (watchTimeout st) normalizedPath with
    | Some ts => ts
    | None => []
    end in
  let '(id, st') := setTimeout normalizedPath kind st in
  withWatchTimeout
    (FileMap.set (watchTimeout st') normalizedPath (timeoutsOfPath ++ [id])) st'.

Definition writeFile `{Platform} (path data : jsstring) (st : VirtualSystem)
    : VirtualSystem :=
  let normalizedPath := normalizePath (toAbsolute st path) in
  let existsBefore := FileMap.has (virtualFs st) normalizedPath in
  let st := withVirtualFs (FileMap.set (virtualFs st) normalizedPath data) st in
  let st := withModifiedTime
              (FileMap.set (modifiedTime st) normalizedPath (clock st)) st in
  triggerWatch normalizedPath (if existsBefore then Changed else Created) st.

Definition readFile `{Platform} (path : jsstring) (st : VirtualSystem)
    : option jsstring :=
  FileMap.get (virtualFs st) (normalizePath (toAbsolute st path)).

Definition fileExists `{Platform} (path : jsstring) (st : VirtualSystem)
    : bool :=
  FileMap.has (virtualFs st) (normalizePath (toAbsolute st path)).

Definition directoryExists `{Platform} (path : jsstring) (st : VirtualSystem)
    : bool :=
  let normalizedPath :=
    getCanonicalFileName (normalizePath (toAbsolute st path)) in
  existsb (fun fileName => JS.startsWith fileName normalizedPath)
    (FileMap.keys (virtualFs st)).

Definition deleteFile `{Platform} (path : jsstring) (st : VirtualSystem)
    : VirtualSystem :=
  let normalizedPath := normalizePath (toAbsolute st path) in
  let existsBefore := FileMap.has (virtualFs st) normalizedPath in
  let st := withVirtualFs (FileMap.delete (virtualFs st) normalizedPath) st in
  if existsBefore then triggerWatch normalizedPath Deleted st else st.

(** The object returned by [watchFile]: what its [close] closes over. *)
Record WatchHandle := {
  handlePath : jsstring;
  handleCallback : Callback
}.

Definition watchFile `{Platform} (path : jsstring) (callback : Callback)
    (st : VirtualSystem) : WatchHandle * VirtualSystem :=
  let normalizedPath := normalizePath (toAbsolute st path) in
  let watchersOfPath :=
    match FileMap.get (watchers st) normalizedPath with
    | Some ws => ws
    | None => []
    end in
  ({| handlePath := normalizedPath; handleCallback := callback |},
   withWatchers
     (FileMap.set (watchers st) normalizedPath (watchersOfPath ++ [callback]))
     st).

Definition close `{Platform} (handle : WatchHandle) (st : VirtualSystem)
    : VirtualSystem :=
  let normalizedPath := handlePath handle in
  let callback := handleCallback handle in
  let st :=
    match FileMap.get (watchers st) normalizedPath with
    | Some watchersOfPath =>
        withWatchers
          (FileMap.set (watchers st) normalizedPath
             (List.filter (fun watcher => Nat.eqb watcher callback)
                watchersOfPath)) st
    | None => st
    end in
  match FileMap.get (watchTimeout st) normalizedPath with
  | Some timeouts => fold_left (fun s timeout => clearTimeout timeout s) timeouts st
  | None => st
  end.

Definition getModifiedTime `{Platform} (path : jsstring) (st : VirtualSystem)
    : option Z :=
  FileMap.get (modifiedTime st) (normalizePath (toAbsolute st path)).

(** The closure of a timer, run by the event loop: every callback that is
    registered for the path at that moment is called. *)
Definition notify `{Platform} (t : Timer) (st : VirtualSystem) : VirtualSystem :=
  match FileMap.get (watchers st) (timerPath t) with
  | Some callbacks =>
      withDelivered
        (delivered st ++
         List.map (fun callback =>
                     {| receiver := callback; fileName := timerPath t;
                        eventKind := timerKind t |}) callbacks) st
  | None => st
  end.

(** The earliest pending timer fires. *)
Definition fireTimer `{Platform} (st : VirtualSystem) : VirtualSystem :=
  match timerQueue st with
  | [] => st
  | t :: rest => notify t (withTimers (nextTimeout st) rest st)
  end.

(** All pending timers fire, in the order in which they were set. *)
Definition runTimers `{Platform} (st : VirtualSystem) : VirtualSystem :=
  fold_left (fun s t => notify t s) (timerQueue st)
    (withTimers (nextTimeout st) [] st).

(** Calls on the virtual system, turns of the event loop, and changes of
    the wall clock that [new Date()] reads: [OpElapse dt] moves it by [dt],
    back when [dt] is negative. *)
Inductive Op :=
| OpWriteFile (path data : jsstring)
| OpDeleteFile (path : jsstring)
| OpWatchFile (path : jsstring) (callback : Callback)
| OpClose (handle : WatchHandle)
| OpFireTimer
| OpElapse (dt : Z).

Definition exec `{Platform} (st : VirtualSystem) (op : Op) : VirtualSystem :=
  match op with
  | OpWriteFile path data => writeFile path data st
  | OpDeleteFile path => deleteFile path st
  | OpWatchFile path callback => snd (watchFile path callback st)
  | OpClose handle => close handle st
  | OpFireTimer => fireTimer st
  | OpElapse dt => withClock (clock st + dt) st
  end.

Definition execAll `{Platform} (ops : list Op) (st : VirtualSystem)
    : VirtualSystem :=
  fold_left exec ops st.

(** The key under which the tables hold a path. *)
Definition fileKey `{Platform} (st : VirtualSystem) (path : jsstring)
    : jsstring :=
  getCanonicalFileName (normalizePath (toAbsolute st path)).

(** The callbacks registered for a path. *)
Definition watchersOf `{Platform} (path : jsstring) (st : VirtualSystem)
    : list Callback :=
  match FileMap.get (watchers st) (normalizePath (toAbsolute st path)) with
  | Some ws => ws
  | None => []
  end.

(** The calls that [callbacks] receive from one notification. *)
Definition notifications `{Platform} (st : VirtualSystem) (path : jsstring)
    (kind : FileWatcherEventKind) (callbacks : list Callback)
    : list Notification :=
  List.map (fun callback =>
              {| receiver := callback;
                 fileName := normalizePath (toAbsolute st path);
                 eventKind := kind |}) callbacks.

(** Whether an operation writes or deletes the file stored under [key]. *)
Definition touches `{Platform} (st : VirtualSystem) (key : jsstring) (op : Op)
    : bool :=
  match op with
  | OpWriteFile path _ | OpDeleteFile path => JS.sameUnits (fileKey st path) key
  | _ => false
  end.

(** A case-sensitive platform with POSIX paths that are already normal. *)
Definition posix : Platform :=
  {| getCanonicalFileName := fun p => p;
     normalizePath := fun p => p;
     isAbsolute := fun p => JS.startsWith p (u16 "/");
     join := fun a b => a ++ u16 "/" ++ b |}.

(** A platform whose file names are compared without regard to the case of
    the letter [A]. *)
Definition caseless : Platform :=
  {| getCanonicalFileName :=
       List.map (fun c => if N.eqb c 65 then 97%N else c);
     normalizePath := fun p => p;
     isAbsolute := fun p => JS.startsWith p (u16 "/");
     join := fun a b => a ++ u16 "/" ++ b |}.

(** The calls made when timer [t] fires while the registry is [w]. *)
Definition callsOf `{Platform} (w : gmap jsstring (list Callback)) (t : Timer)
    : list Notification :=
  match FileMap.get w (timerPath t) with
  | Some callbacks =>
      List.map (fun callback =>
                  {| receiver := callback; fileName := timerPath t;
                     eventKind := timerKind t |}) callbacks
  | None => []
  end.

(** Timer handles are handed out in increasing order: every pending timer
    was set before the next handle. *)
Definition timersBelowNext (st : VirtualSystem) : Prop :=
  Forall (fun t => (timerId t < nextTimeout st)%nat) (timerQueue st).

(** Sample run: two watchers on one path, then a write. *)
Definition samplePath : jsstring := u16 "/src/App.svelte".

Definition twoWatchers : list Op :=
  [ OpWatchFile samplePath 1%nat; OpWatchFile samplePath 2%nat ].

Definition firstHandle : WatchHandle :=
  {| handlePath := samplePath; handleCallback := 1%nat |}.

(** Operations that leave [a.ts] of the working directory alone. *)
Definition unrelatedOps : list Op :=
  [ OpWatchFile (u16 "a.ts") 7%nat;
    OpWriteFile (u16 "/w/b.ts") (u16 "let b");
    OpFireTimer;
    OpDeleteFile (u16 "/w/b.ts");
    OpClose {| handlePath := u16 "/w/a.ts"; handleCallback := 7%nat |};
    OpElapse 5 ].

(** A text whose only line closes a generated region and opens another one
    that is never closed. *)
Definition unclosedRegion : jsstring :=
  ignoreEnd ++ ignoreStart ++ u16 "abc".

(** ** Further members of the virtual system *)

Definition getCurrentDirectory (st : VirtualSystem) : jsstring :=
  currentDirectory st.

(** [n] turns of the event loop, one timer each. *)
Definition fireTimers `{Platform} (n : nat) (st : VirtualSystem)
    : VirtualSystem :=
  Nat.iter n fireTimer st.

(** Whether an operation writes the file stored under [key]. *)
Definition writes `{Platform} (st : VirtualSystem) (key : jsstring) (op : Op)
    : bool :=
  match op with
  | OpWriteFile path _ => JS.sameUnits (fileKey st path) key
  | _ => false
  end.

(** Whether an operation deletes the file stored under [key]. *)
Definition deletes `{Platform} (st : VirtualSystem) (key : jsstring) (op : Op)
    : bool :=
  match op with
  | OpDeleteFile path => JS.sameUnits (fileKey st path) key
  | _ => false
  end.

(** Whether an operation is a turn of the event loop. *)
Definition isFireTimer (op : Op) : bool :=
  match op with
  | OpFireTimer => true
  | _ => false
  end.

(** Every handle listed in the timeout table was handed out already. *)
Definition timeoutsBelowNext (st : VirtualSystem) : Prop :=
  forall key ids, watchTimeout st !! key = Some ids ->
    Forall (fun id => (id < nextTimeout st)%nat) ids.

(** Operations for a sample run: a file is written, time passes, and the
    file is deleted. *)
Definition writeThenDelete : list Op :=
  [ OpElapse 3; OpWriteFile (u16 "/w/a.ts") (u16 "let a"); OpElapse 4;
    OpDeleteFile (u16 "a.ts"); OpFireTimer ].

(** ** utils.ts: further helpers *)

Definition isNoTextSpanInGeneratedCode (text : jsstring) (span : TextSpan)
    : bool :=
  negb (isInGeneratedCode text (span_start span)
          (span_start span + span_length span)).

(** The call that reads a store in generated code. *)
Definition storeGet : jsstring := u16 "__sveltets_2_store_get(".

(** [isStoreVariableIn$storeDeclaration]; a Rocq name cannot hold [$]. *)
Definition isStoreVariableIn_storeDeclaration (text : jsstring) (varStart : Z)
    : bool :=
  JS.lastIndexOfFrom text storeGet varStart =? varStart - JS.len storeGet.

(** [get$storeOffsetOf$storeDeclaration] *)
Definition get_storeOffsetOf_storeDeclaration (text : jsstring)
    (storePosition : Z) : Z :=
  JS.lastIndexOfFrom text (u16 " =") storePosition - 1.

Definition COMPONENT_SUFFIX : jsstring := u16 "__SvelteComponent_".

Definition isGeneratedSvelteComponentName (className : jsstring) : bool :=
  JS.endsWith className COMPONENT_SUFFIX.

(** A [SvelteSnapshot] as far as [utils.ts] uses it: its [getText()]. *)
Record SvelteSnapshot := { getText : jsstring }.

Definition offsetOfGeneratedComponentExport (snapshot : SvelteSnapshot) : Z :=
  JS.lastIndexOf (getText snapshot) COMPONENT_SUFFIX.

(** The [for] loop of [findNodeAtPosition] over [node.getChildren()]. *)
Definition scanAtPosition (recur : Node -> option Node) (pos : Z)
    (predicate : option (Node -> bool)) : list Node -> option Node :=
  fix scan (children : list Node) : option Node :=
    match children with
    | [] => None
    | child :: rest =>
        if pos <? getStart child then None
        else if pos >? getEnd child then scan rest
        else match recur child with
             | Some foundInChildren => Some foundInChildren
             | None =>
                 match predicate with
                 | None => Some child
                 | Some accepts =>
                     if accepts child then Some child else scan rest
                 end
             end
    end.

Fixpoint findNodeAtPosition (node : Node) (pos : Z)
    (predicate : option (Node -> bool)) : option Node :=
  match node with
  | mkNode _ _ _ _ children =>
      scanAtPosition (fun child => findNodeAtPosition child pos predicate)
        pos predicate children
  end.

(** Whether [pos] lies in the range of a node, both ends included. *)
Definition covers (pos : Z) (n : Node) : Prop :=
  getStart n <= pos <= getEnd n.

(** ** utils.ts: [findIdentifier] *)

(** The syntax kinds that [findIdentifier] tells apart. *)
Inductive SyntaxKind :=
| Identifier
| FunctionDeclaration
| VariableDeclaration
| OtherKind (tag : nat).

(** A node as [findIdentifier] sees it: its kind, its [name] property, if
    any, and its [parent], if any. *)
Inductive Ast : Type :=
  mkAst (astKind : SyntaxKind) (name : option Ast) (parent : option Ast).

Definition astKind (n : Ast) : SyntaxKind := let 'mkAst k _ _ := n in k.
Definition astName (n : Ast) : option Ast := let 'mkAst _ m _ := n in m.
Definition astParent (n : Ast) : option Ast := let 'mkAst _ _ p := n in p.

Definition isIdentifier (n : Ast) : bool :=
  match astKind n with Identifier => true | _ => false end.

Definition isFunctionDeclaration (n : Ast) : bool :=
  match astKind n with FunctionDeclaration => true | _ => false end.

Definition isVariableDeclaration (n : Ast) : bool :=
  match astKind n with VariableDeclaration => true | _ => false end.

(** The [while] loop of [findIdentifier], from [node] up through the
    parents. *)
Fixpoint findIdentifierUpwards (node : Ast) : option Ast :=
  if isIdentifier node then Some node
  else
    match node with
    | mkAst _ name parent =>
        let declared :=
          if isVariableDeclaration node
          then match name with
               | Some n => if isIdentifier n then Some n else None
               | None => None
               end
          else None in
        match declared with
        | Some n => Some n
        | None =>
            match parent with
            | Some p => findIdentifierUpwards p
            | None => None
            end
        end
    end.

Definition findIdentifier (node : Ast) : option Ast :=
  if isIdentifier node then Some node
  else if isFunctionDeclaration node then astName node
  else findIdentifierUpwards node.

(** The typing of the syntax tree: the name of a function declaration, when
    it has one, is an identifier. *)
Definition functionNamesAreIdentifiers (node : Ast) : Prop :=
  isFunctionDeclaration node = true ->
  forall n, astName node = Some n -> isIdentifier n = true.

(** [const answer = () => 42]: the arrow function inside the declaration
    of [answer]. *)
Definition answerIdentifier : Ast := mkAst Identifier None None.

Definition arrowInDeclaration : Ast :=
  mkAst (OtherKind 1) None
    (Some (mkAst VariableDeclaration (Some answerIdentifier)
             (Some (mkAst (OtherKind 2) None None)))).

(** ** utils.ts: [replaceDeep] *)

(** The values [replaceDeep] walks through: strings, arrays, objects with
    their own enumerable properties in the order of [Object.keys], [null],
    and everything else (numbers, booleans, [undefined], functions), which
    is returned as it is. *)
Inductive JsData : Type :=
| DString (s : jsstring)
| DArray (items : list JsData)
| DObject (props : list (jsstring * JsData))
| DNull
| DOther (tag : nat).

(** What [Object.keys(null)] throws: a [TypeError], which has no [code]. *)
Definition typeError : Thrown := ThrownObject VUndefined.

Definition protoKey : jsstring := u16 "__proto__".

(** [_o[key] = value] on the object under construction: assigning to
    [__proto__] adds no property of its own. *)
Definition assignProperty (o : list (jsstring * JsData)) (key : jsstring)
    (value : JsData) : list (jsstring * JsData) :=
  if JS.sameUnits key protoKey then o else o ++ [(key, value)].

(** [_obj.map((entry) => _replaceDeep(entry))] *)
Definition mapEntries (recur : JsData -> Completion JsData) :
    list JsData -> Completion (list JsData) :=
  fix each (items : list JsData) : Completion (list JsData) :=
    match items with
    | [] => Returns []
    | entry :: rest =>
        match recur entry with
        | Throws e => Throws e
        | Returns entry' =>
            match each rest with
            | Throws e => Throws e
            | Returns rest' => Returns (entry' :: rest')
            end
        end
    end.

(** [Object.keys(_obj).reduce((_o, key) => ..., {})] *)
Definition reduceKeys (recur : JsData -> Completion JsData) :
    list (jsstring * JsData) -> list (jsstring * JsData) ->
    Completion (list (jsstring * JsData)) :=
  fix each (props o : list (jsstring * JsData)) :=
    match props with
    | [] => Returns o
    | (key, value) :: rest =>
        match recur value with
        | Throws e => Throws e
        | Returns value' => each rest (assignProperty o key value')
        end
    end.

(** [replaceDeep(obj, searchStr, replacementStr)]; [replace] stands for
    [s => s.replace(searchStr, replacementStr)]. *)
Fixpoint replaceDeep (replace : jsstring -> jsstring) (obj : JsData)
    : Completion JsData :=
  match obj with
  | DString s => Returns (DString (replace s))
  | DArray items =>
      match mapEntries (replaceDeep replace) items with
      | Throws e => Throws e
      | Returns items' => Returns (DArray items')
      end
  | DObject props =>
      match reduceKeys (replaceDeep replace) props [] with
      | Throws e => Throws e
      | Returns o => Returns (DObject o)
      end
  | DNull => Throws typeError
  | DOther tag => Returns (DOther tag)
  end.

(** Whether a [null] sits anywhere inside a value. *)
Fixpoint containsNull (d : JsData) : bool :=
  match d with
  | DNull => true
  | DArray items => existsb containsNull items
  | DObject props => existsb (fun kv => containsNull (snd kv)) props
  | _ => false
  end.

(** Whether no object inside a value has a property called [__proto__]. *)
Fixpoint plainKeys (d : JsData) : bool :=
  match d with
  | DArray items => forallb plainKeys items
  | DObject props =>
      forallb (fun kv => negb (JS.sameUnits (fst kv) protoKey)
                         && plainKeys (snd kv)) props
  | _ => true
  end.

(** The strings inside a value. *)
Fixpoint stringsOf (d : JsData) : list jsstring :=
  match d with
  | DString s => [s]
  | DArray items => flat_map stringsOf items
  | DObject props => flat_map (fun kv => stringsOf (snd kv)) props
  | _ => []
  end.

(** [then_ c k]: [k] applied to what [c] returns, unless [c] throws. *)
Definition then_ {A B} (c : Completion A) (k : A -> Completion B)
    : Completion B :=
  match c with
  | Returns a => k a
  | Throws e => Throws e
  end.

(** A completion item as a language server sends it. *)
Definition sampleItem : JsData :=
  DObject [ (u16 "label", DString (u16 "App.svelte.ts"));
            (u16 "tags", DArray [ DOther 1; DString (u16 "x.svelte.ts") ]);
            (u16 "sortText", DOther 0) ].

(** ** test-utils.ts: [updateSnapshotIfFailedOrEmpty] *)

(** What a path of the disk holds. *)
Inductive Entry :=
| FileEntry (content : jsstring)
| DirectoryEntry.

(** The surroundings of a snapshot test: the paths on disk, as
    [existsSync] and [writeFileSync] see them, and what [console.info]
    printed. *)
Record Disk := {
  entries : gmap jsstring Entry;
  printed : list (jsstring * jsstring)
}.

Definition existsSync (file : jsstring) (disk : Disk) : bool :=
  match entries disk !! file with
  | Some _ => true
  | None => false
  end.

(** [console.info(msg, detail)] *)
Definition consoleInfo (msg detail : jsstring) (disk : Disk) : Disk :=
  {| entries := entries disk; printed := printed disk ++ [(msg, detail)] |}.

(** [writeFileSync(file, content, 'utf-8')]. [refusal file disk] is the
    error with which the file system refuses the write, if it does
    ([ENOENT] for a missing directory, [EISDIR], [EACCES], ...). *)
Definition writeFileSync (refusal : jsstring -> Disk -> option Thrown)
    (file content : jsstring) (disk : Disk) : Completion unit * Disk :=
  match refusal file disk with
  | Some e => (Throws e, disk)
  | None =>
      (Returns tt,
       {| entries := <[file := FileEntry content]> (entries disk);
          printed := printed disk |})
  end.

(** The inner [writeFile(msg)]: the line is printed first, then
    [getFileContent()] is called, then the file is written. [dirname] is
    that of Node's [path]; [getFileContent] is the outcome of the call
    [getFileContent()]. *)
Definition writeSnapshot (dirname : jsstring -> jsstring)
    (refusal : jsstring -> Disk -> option Thrown)
    (getFileContent : Completion jsstring)
    (expectedFile rootDir msg : jsstring) (disk : Disk)
    : Completion unit * Disk :=
  let disk :=
    consoleInfo msg
      (JS.substring (dirname expectedFile) (JS.len rootDir)
         (JS.len (dirname expectedFile))) disk in
  match getFileContent with
  | Throws e => (Throws e, disk)
  | Returns content => writeFileSync refusal expectedFile content disk
  end.

(** [assertion] is the outcome of the call [assertion()], which is taken
    not to touch the disk; [auto] is whether [process.argv] includes
    [--auto]. *)
Definition updateSnapshotIfFailedOrEmpty (dirname : jsstring -> jsstring)
    (refusal : jsstring -> Disk -> option Thrown)
    (assertion : Completion unit) (auto : bool)
    (getFileContent : Completion jsstring)
    (expectedFile rootDir : jsstring) (disk : Disk)
    : Completion unit * Disk :=
  if existsSync expectedFile disk then
    match assertion with
    | Returns _ => (Returns tt, disk)
    | Throws e =>
        if auto then
          writeSnapshot dirname refusal getFileContent expectedFile rootDir
            (u16 "Updated " ++ expectedFile ++ u16 " for") disk
        else (Throws e, disk)
    end
  else
    writeSnapshot dirname refusal getFileContent expectedFile rootDir
      (u16 "Created " ++ expectedFile ++ u16 " for") disk.

(** A file system that refuses every write below a directory that does not
    exist. *)
Definition ENOENT : Thrown := ThrownObject (VString (u16 "ENOENT")).

Definition needsDirectory (dirname : jsstring -> jsstring)
    : jsstring -> Disk -> option Thrown :=
  fun file disk =>
    match entries disk !! dirname file with
    | Some DirectoryEntry => None
    | _ => Some ENOENT
    end.

(** ** Facts about the string primitives *)

Lemma startsWith_app (x r : jsstring) : JS.startsWith (x ++ r) x = true.
Proof.
  induction x as [|c x IH]; simpl; [reflexivity|].
  now rewrite N.eqb_refl, IH.
Qed.

Lemma startsWith_inv (x s : jsstring) :
  JS.startsWith s x = true -> exists r, s = x ++ r.
Proof.
  revert s; induction x as [|c x IH]; intros s H; simpl in H.
  - now exists s.
  - destruct s as [|d s]; [discriminate|].
    apply andb_prop in H as [Hc Hx].
    apply N.eqb_eq in Hc; subst d.
    destruct (IH _ Hx) as [r ->]. now exists r.
Qed.

Lemma skipn_app_exact {A} (q x : list A) : skipn (length q) (q ++ x) = x.
Proof. induction q; simpl; auto. Qed.

Lemma firstn_app_exact {A} (q x : list A) : firstn (length q) (q ++ x) = q.
Proof. induction q; simpl; f_equal; auto. Qed.

Lemma endsWith_app (q x : jsstring) : JS.endsWith (q ++ x) x = true.
Proof.
  unfold JS.endsWith, JS.len. rewrite length_app.
  destruct (Z.ltb_spec (Z.of_nat (length q + length x)) (Z.of_nat (length x)));
    [lia|].
  replace (Z.to_nat _) with (length q) by lia.
  rewrite skipn_app_exact.
  rewrite <- (app_nil_r x) at 1. apply startsWith_app.
Qed.

Lemma endsWith_inv (s x : jsstring) :
  JS.endsWith s x = true -> exists q, s = q ++ x.
Proof.
  unfold JS.endsWith, JS.len.
  destruct (Z.ltb_spec (Z.of_nat (length s)) (Z.of_nat (length x)));
    [discriminate|].
  intros Hs. apply startsWith_inv in Hs as [r Hr].
  set (n := Z.to_nat _) in Hr.
  assert (Hlen : length (skipn n s) = length x)
    by (rewrite length_skipn; subst n; lia).
  rewrite Hr, length_app in Hlen.
  destruct r; [|simpl in Hlen; lia].
  rewrite app_nil_r in Hr.
  exists (firstn n s). now rewrite <- Hr, firstn_skipn.
Qed.

Lemma last_unit_app (q : jsstring) (a b : N) (x y : jsstring) :
  q ++ x ++ [a] = y ++ [b] -> a = b.
Proof.
  rewrite app_assoc. intros H.
  apply app_inj_tail in H. tauto.
Qed.

(** Stripping [.ts] from a virtual path leaves the path up to [.svelte]. *)
Lemma toRealSvelteFilePath_virtual (q : jsstring) :
  toRealSvelteFilePath (q ++ u16 ".svelte.ts") = q ++ u16 ".svelte".
Proof.
  unfold toRealSvelteFilePath, JS.slice, JS.sliceIndex, JS.len.
  rewrite length_app.
  change (length (u16 ".svelte.ts")) with 10%nat.
  change (length (u16 ".ts")) with 3%nat.
  change (0 <? 0) with false.
  change (- Z.of_nat 3 <? 0) with true.
  cbv iota.
  replace (Z.to_nat _) with (length q + 7)%nat by lia.
  replace (Z.to_nat (Z.min 0 _)) with 0%nat by lia.
  simpl skipn.
  change (u16 ".svelte.ts") with (u16 ".svelte" ++ u16 ".ts").
  rewrite app_assoc.
  replace (length q + 7)%nat with (length (q ++ u16 ".svelte"))
    by (rewrite length_app; reflexivity).
  apply firstn_app_exact.
Qed.

Lemma real_path_not_virtual (q : jsstring) :
  isVirtualSvelteFilePath (q ++ u16 ".svelte") = false.
Proof.
  destruct (isVirtualSvelteFilePath _) eqn:E; [|reflexivity].
  apply endsWith_inv in E as [r E].
  change (u16 ".svelte") with (u16 ".svelt" ++ [101%N]) in E.
  change (u16 ".svelte.ts") with (u16 ".svelte.t" ++ [115%N]) in E.
  rewrite (app_assoc r) in E.
  apply last_unit_app in E. discriminate.
Qed.

(** C10. [ensureRealSvelteFilePath] never yields a path with the virtual
    suffix [.svelte.ts]; hence applying it twice equals applying it once;
    and on a virtual path its result is a Svelte file path. *)
Theorem ensureRealSvelteFilePath_idempotent (p : jsstring) :
  isVirtualSvelteFilePath (ensureRealSvelteFilePath p) = false
  /\ ensureRealSvelteFilePath (ensureRealSvelteFilePath p)
     = ensureRealSvelteFilePath p
  /\ (isVirtualSvelteFilePath p = true ->
      isSvelteFilePath (ensureRealSvelteFilePath p) = true).
Proof.
  assert (Hnv : isVirtualSvelteFilePath (ensureRealSvelteFilePath p) = false).
  { unfold ensureRealSvelteFilePath.
    destruct (isVirtualSvelteFilePath p) eqn:E; [|exact E].
    apply endsWith_inv in E as [q ->].
    rewrite toRealSvelteFilePath_virtual. apply real_path_not_virtual. }
  split; [exact Hnv|split].
  - unfold ensureRealSvelteFilePath at 1. now rewrite Hnv.
  - intros E. unfold ensureRealSvelteFilePath. rewrite E.
    apply endsWith_inv in E as [q ->].
    rewrite toRealSvelteFilePath_virtual. apply endsWith_app.
Qed.

(** ** Syntax trees: induction and document order *)

Lemma Node_children_ind (P : Node -> Prop) :
  (forall i k s e cs, Forall P cs -> P (mkNode i k s e cs)) ->
  forall n, P n.
Proof.
  intros step. fix IH 1. intros [i k s e cs]. apply step.
  induction cs as [|c cs IHcs]; constructor; [apply IH | exact IHcs].
Qed.

Lemma subtree_children i k s e cs :
  subtree (mkNode i k s e cs) = mkNode i k s e cs :: flat_map subtree cs.
Proof. reflexivity. Qed.

Lemma descendants_children i k s e cs :
  descendants (mkNode i k s e cs) = flat_map subtree cs.
Proof. reflexivity. Qed.

(** Descendants of a node of a tree are descendants of its root. *)
Lemma descendants_trans (c m n : Node) :
  In m (subtree c) -> In n (descendants m) -> In n (descendants c).
Proof.
  revert m n. induction c as [i k s e cs IH] using Node_children_ind.
  intros m n [<-|Hm] Hn; [exact Hn|].
  rewrite descendants_children in *.
  apply in_flat_map in Hm as (c & Hc & Hm).
  apply in_flat_map. exists c. split; [exact Hc|].
  right. rewrite List.Forall_forall in IH. now apply (IH c Hc m n).
Qed.

Lemma flat_subtree_closed (cs : list Node) (m n : Node) :
  In m (flat_map subtree cs) -> In n (descendants m) ->
  In n (flat_map subtree cs).
Proof.
  intros Hm Hn. apply in_flat_map in Hm as (c & Hc & Hm).
  apply in_flat_map. exists c. split; [exact Hc|].
  right. now apply (descendants_trans c m n).
Qed.

Lemma distinct_not_own_descendant (m : Node) :
  distinctNodes m -> ~ In m (descendants m).
Proof.
  unfold distinctNodes, subtree. simpl. intros Hd Hin.
  apply NoDup_cons in Hd as [Hd _]. apply Hd.
  apply list_elem_of_In. now apply in_map.
Qed.

(** ** [gatherDescendants] *)

Lemma gatherEach_app (recur : Node -> list Node -> list Node) cs dest :
  Forall (fun c => forall d, recur c d = d ++ recur c []) cs ->
  gatherEach recur cs dest = dest ++ flat_map (fun c => recur c []) cs.
Proof.
  intros H. revert dest. induction H as [|c cs Hc _ IH]; intros dest; simpl.
  - now rewrite app_nil_r.
  - rewrite IH, Hc. now rewrite <- app_assoc.
Qed.

(** The result extends [dest]; what is appended does not depend on it. *)
Lemma gatherDescendants_dest (predicate : Node -> bool) (n : Node) :
  forall dest,
    gatherDescendants n predicate dest
    = dest ++ gatherDescendants n predicate [].
Proof.
  induction n as [i k s e cs IH] using Node_children_ind. intros dest.
  simpl. destruct (predicate _); [reflexivity|].
  rewrite (gatherEach_app _ cs dest IH).
  now rewrite (gatherEach_app _ cs [] IH).
Qed.

Lemma gatherDescendants_unfold (predicate : Node -> bool) (n : Node) :
  gatherDescendants n predicate []
  = if predicate n then [n]
    else flat_map (fun c => gatherDescendants c predicate []) (getChildren n).
Proof.
  destruct n as [i k s e cs]. simpl. destruct (predicate _); [reflexivity|].
  rewrite gatherEach_app; [reflexivity|].
  apply List.Forall_forall. intros c _ d. apply gatherDescendants_dest.
Qed.

Lemma gatherDescendants_sound (predicate : Node -> bool) (root n : Node) :
  In n (gatherDescendants root predicate []) ->
  In n (subtree root) /\ predicate n = true.
Proof.
  revert n. induction root as [i k s e cs IH] using Node_children_ind.
  intros n. rewrite gatherDescendants_unfold.
  destruct (predicate (mkNode i k s e cs)) eqn:Hp.
  - intros [<-|[]]. split; [now left | exact Hp].
  - simpl getChildren. intros Hin.
    apply in_flat_map in Hin as (c & Hc & Hin).
    rewrite List.Forall_forall in IH. destruct (IH c Hc n Hin) as [Hsub Hn].
    split; [|exact Hn]. rewrite subtree_children. right.
    apply in_flat_map. now exists c.
Qed.

Lemma gathered_children_sound (predicate : Node -> bool) cs n :
  In n (flat_map (fun c => gatherDescendants c predicate []) cs) ->
  In n (flat_map subtree cs).
Proof.
  intros Hin. apply in_flat_map in Hin as (c & Hc & Hin).
  apply in_flat_map. exists c. split; [exact Hc|].
  now apply (gatherDescendants_sound predicate c n).
Qed.

Lemma NoDup_ids_app (l k : list Node) :
  NoDup (List.map nodeId (l ++ k)) ->
  NoDup (List.map nodeId l) /\ NoDup (List.map nodeId k)
  /\ forall n, In n l -> In n k -> False.
Proof.
  rewrite map_app. intros H. apply NoDup_app in H as (Hl & Hdis & Hk).
  repeat split; [exact Hl | exact Hk |].
  intros n Hnl Hnk. apply (Hdis (nodeId n)).
  - apply list_elem_of_In. now apply in_map.
  - apply list_elem_of_In. now apply in_map.
Qed.

Lemma gathered_children_non_nested (predicate : Node -> bool) cs :
  Forall (fun c => distinctNodes c ->
                   forall n m, In n (gatherDescendants c predicate []) ->
                               In m (gatherDescendants c predicate []) ->
                               ~ In n (descendants m)) cs ->
  NoDup (List.map nodeId (flat_map subtree cs)) ->
  forall n m,
    In n (flat_map (fun c => gatherDescendants c predicate []) cs) ->
    In m (flat_map (fun c => gatherDescendants c predicate []) cs) ->
    ~ In n (descendants m).
Proof.
  induction 1 as [|c cs Hc _ IH]; intros Hnd n m Hn Hm; [destruct Hn|].
  simpl in Hn, Hm.
  change (flat_map subtree (c :: cs))
    with (subtree c ++ flat_map subtree cs) in Hnd.
  apply NoDup_ids_app in Hnd as (Hdc & Hdr & Hdis).
  apply in_app_or in Hn. apply in_app_or in Hm.
  destruct Hn as [Hn|Hn], Hm as [Hm|Hm].
  - now apply Hc.
  - intros Hd. apply (Hdis n).
    + now apply (gatherDescendants_sound predicate c n).
    + apply (flat_subtree_closed cs m n); [|exact Hd].
      now apply (gathered_children_sound predicate).
  - intros Hd. apply (Hdis n).
    + right. apply (descendants_trans c m n); [|exact Hd].
      now apply (gatherDescendants_sound predicate c m).
    + now apply (gathered_children_sound predicate).
  - now apply IH.
Qed.

(** C9. Every node that [gatherDescendants] returns satisfies the predicate
    and is a node of the tree; no returned node is a descendant of another
    returned node; and a root that matches is returned alone. *)
Theorem gatherDescendants_non_nested (root : Node) (predicate : Node -> bool) :
  Forall (fun n => predicate n = true /\ In n (subtree root))
    (gatherDescendants root predicate [])
  /\ (distinctNodes root ->
      forall n m,
        In n (gatherDescendants root predicate []) ->
        In m (gatherDescendants root predicate []) ->
        ~ In n (descendants m))
  /\ (predicate root = true -> gatherDescendants root predicate [] = [root]).
Proof.
  split; [|split].
  - apply List.Forall_forall. intros n Hn.
    apply gatherDescendants_sound in Hn. tauto.
  - induction root as [i k s e cs IH] using Node_children_ind.
    intros Hd n m. rewrite gatherDescendants_unfold.
    destruct (predicate (mkNode i k s e cs)).
    + intros [<-|[]] [<-|[]]. now apply distinct_not_own_descendant.
    + simpl getChildren.
      apply (gathered_children_non_nested predicate cs IH).
      unfold distinctNodes in Hd. rewrite subtree_children in Hd.
      simpl in Hd. now apply NoDup_cons in Hd as [_ Hd].
  - intros Hp. rewrite gatherDescendants_unfold. now rewrite Hp.
Qed.

(** ** [findNodeAtSpan] *)

Lemma find_app_first {A} (f : A -> bool) (l k : list A) :
  find f (l ++ k)
  = match find f l with Some x => Some x | None => find f k end.
Proof.
  induction l as [|a l IH]; simpl; [reflexivity|].
  destruct (f a); [reflexivity | exact IH].
Qed.

Lemma find_all_false {A} (f : A -> bool) (l : list A) :
  (forall x, In x l -> f x = false) -> find f l = None.
Proof.
  induction l as [|a l IH]; simpl; intros H; [reflexivity|].
  rewrite (H a) by now left. apply IH. intros x Hx. apply H. now right.
Qed.

Lemma findNodeAtSpan_unfold (n : Node) (span : TextSpan) predicate :
  findNodeAtSpan n span predicate
  = scanChildren (fun child => findNodeAtSpan child span predicate)
      (span_start span) (span_start span + span_length span) predicate
      (getChildren n).
Proof. destruct n; reflexivity. Qed.

Lemma exactMatch_range start end_ predicate n :
  exactMatch start end_ predicate n = true ->
  getStart n = start /\ getEnd n = end_
  /\ match predicate with None => True | Some accepts => accepts n = true end.
Proof.
  unfold exactMatch. intros H.
  apply andb_prop in H as [H Hp]. apply andb_prop in H as [Hs He].
  apply Z.eqb_eq in Hs, He. repeat split; [congruence | congruence |].
  destruct predicate; [exact Hp | exact I].
Qed.

(** What the scan of a list of children returns is an exact match among
    them and their descendants. *)
Lemma scanChildren_sound recur start end_ predicate cs n :
  Forall (fun c => forall m, recur c = Some m ->
                     In m (descendants c)
                     /\ exactMatch start end_ predicate m = true) cs ->
  scanChildren recur start end_ predicate cs = Some n ->
  In n (flat_map subtree cs) /\ exactMatch start end_ predicate n = true.
Proof.
  induction 1 as [|c cs Hc _ IH]; simpl; [discriminate|].
  destruct (end_ <=? getStart c); [discriminate|].
  destruct (start >=? getEnd c).
  { intros H. destruct (IH H). split; [|assumption].
    right. apply in_or_app. now right. }
  destruct (exactMatch start end_ predicate c) eqn:Hm.
  { intros [= <-]. split; [now left | exact Hm]. }
  destruct (recur c) as [m|] eqn:Hr.
  - intros [= <-]. destruct (Hc m eq_refl). split; [|assumption].
    right. apply in_or_app. now left.
  - intros H. destruct (IH H). split; [|assumption].
    right. apply in_or_app. now right.
Qed.

Lemma findNodeAtSpan_sound (root : Node) (span : TextSpan) predicate n :
  findNodeAtSpan root span predicate = Some n ->
  In n (descendants root)
  /\ exactMatch (span_start span) (span_start span + span_length span)
       predicate n = true.
Proof.
  revert n. induction root as [i k s e cs IH] using Node_children_ind.
  intros n. rewrite findNodeAtSpan_unfold. simpl getChildren.
  rewrite descendants_children. now apply scanChildren_sound.
Qed.

(** In an ordered tree every descendant lies inside the range of its
    ancestor, and the subtrees of a list of ordered children lie inside the
    bounds of the list. *)
Lemma orderedChildren_bounds hi cs :
  Forall (fun c => orderedTree c = true ->
                   forall x, In x (descendants c) ->
                     getStart c <= getStart x /\ getEnd x <= getEnd c) cs ->
  forall lo,
    orderedChildren orderedTree hi lo cs = true ->
    forall x, In x (flat_map subtree cs) ->
      lo <= getStart x /\ getEnd x <= hi.
Proof.
  induction 1 as [|c cs Hc _ IH]; intros lo Hord x Hx; [destruct Hx|].
  simpl in Hord.
  repeat (apply andb_prop in Hord as [Hord ?]).
  apply Z.leb_le in Hord.
  match goal with H : (getStart c <=? getEnd c) = true |- _ =>
    apply Z.leb_le in H end.
  match goal with H : (getEnd c <=? hi) = true |- _ =>
    apply Z.leb_le in H end.
  change (flat_map subtree (c :: cs))
    with (subtree c ++ flat_map subtree cs) in Hx.
  apply in_app_or in Hx as [[<-|Hx]|Hx].
  - lia.
  - destruct (Hc ltac:(assumption) x Hx). lia.
  - destruct (IH (getEnd c) ltac:(assumption) x Hx). lia.
Qed.

Lemma orderedTree_within (n : Node) :
  orderedTree n = true ->
  forall x, In x (descendants n) ->
    getStart n <= getStart x /\ getEnd x <= getEnd n.
Proof.
  induction n as [i k s e cs IH] using Node_children_ind.
  intros Hord x Hx. simpl in Hord. rewrite descendants_children in Hx.
  simpl. now apply (orderedChildren_bounds e cs IH s).
Qed.

Lemma orderedChildren_cons hi lo c cs :
  orderedChildren orderedTree hi lo (c :: cs) = true ->
  lo <= getStart c /\ getStart c <= getEnd c /\ getEnd c <= hi
  /\ orderedTree c = true
  /\ orderedChildren orderedTree hi (getEnd c) cs = true.
Proof.
  simpl. intros H. repeat (apply andb_prop in H as [H ?]).
  apply Z.leb_le in H.
  repeat match goal with H : (_ <=? _) = true |- _ => apply Z.leb_le in H end.
  tauto.
Qed.

Lemma subtree_within (c x : Node) :
  orderedTree c = true -> getStart c <= getEnd c -> In x (subtree c) ->
  getStart c <= getStart x /\ getEnd x <= getEnd c.
Proof.
  intros Hord Hc [<-|Hx]; [lia|]. now apply orderedTree_within.
Qed.

Lemma exactMatch_off_start start end_ predicate x :
  getStart x <> start -> exactMatch start end_ predicate x = false.
Proof.
  intros H. unfold exactMatch.
  destruct (Z.eqb_spec start (getStart x)); [congruence | reflexivity].
Qed.

Lemma exactMatch_off_end start end_ predicate x :
  getEnd x <> end_ -> exactMatch start end_ predicate x = false.
Proof.
  intros H. unfold exactMatch.
  destruct (Z.eqb_spec end_ (getEnd x)); [congruence|].
  now rewrite andb_false_r.
Qed.

(** On ordered children and a non-empty span the scan finds the first exact
    match in document order: what it skips holds no exact match. *)
Lemma scanChildren_first recur start end_ predicate hi cs :
  start < end_ ->
  Forall (fun c => orderedTree c = true ->
                   recur c = find (exactMatch start end_ predicate)
                               (descendants c)) cs ->
  forall lo,
    orderedChildren orderedTree hi lo cs = true ->
    scanChildren recur start end_ predicate cs
    = find (exactMatch start end_ predicate) (flat_map subtree cs).
Proof.
  intros Hspan. induction 1 as [|c cs Hc _ IH]; intros lo Hord;
    [reflexivity|].
  apply orderedChildren_cons in Hord as (Hlo & Hce & Hhi & Hoc & Hrest).
  change (flat_map subtree (c :: cs))
    with (subtree c ++ flat_map subtree cs).
  cbn [scanChildren]. fold (scanChildren recur start end_ predicate).
  destruct (Z.leb_spec end_ (getStart c)) as [Hle|Hgt].
  { symmetry. apply find_all_false. intros x Hx.
    apply exactMatch_off_start.
    apply in_app_or in Hx as [Hx|Hx].
    - destruct (subtree_within c x Hoc Hce Hx). lia.
    - pose proof (orderedChildren_bounds hi cs) as Hb.
      destruct (Hb (proj2 (List.Forall_forall _ _)
                      (fun c _ => orderedTree_within c))
                  (getEnd c) Hrest x Hx).
      lia. }
  rewrite Z.geb_leb.
  destruct (Z.leb_spec (getEnd c) start) as [Hskip|Hin].
  { rewrite find_app_first, find_all_false; [now apply (IH (getEnd c))|].
    intros x Hx. apply exactMatch_off_end.
    destruct (subtree_within c x Hoc Hce Hx). lia. }
  rewrite find_app_first. unfold subtree at 1. cbn [find].
  destruct (exactMatch start end_ predicate c); [reflexivity|].
  rewrite (Hc Hoc).
  destruct (find _ (descendants c)); [reflexivity|].
  now apply (IH (getEnd c)).
Qed.

Lemma findNodeAtSpan_first (root : Node) (span : TextSpan) predicate :
  orderedTree root = true -> 0 < span_length span ->
  findNodeAtSpan root span predicate
  = find (exactMatch (span_start span) (span_start span + span_length span)
            predicate) (descendants root).
Proof.
  intros Hord Hlen. revert Hord.
  induction root as [i k s e cs IH] using Node_children_ind. intros Hord.
  rewrite findNodeAtSpan_unfold, descendants_children. simpl getChildren.
  simpl in Hord.
  assert (Hspan : span_start span < span_start span + span_length span)
    by lia.
  exact (scanChildren_first _ _ _ _ e cs Hspan IH s Hord).
Qed.

(** With ordered children and a non-empty span, all exact matches lie on one
    path from the root: any match is the first one or below it. *)
Lemma first_match_covers_children start end_ predicate hi cs :
  start < end_ ->
  Forall (fun c => orderedTree c = true ->
                   forall m n,
                     find (exactMatch start end_ predicate) (descendants c)
                     = Some m ->
                     In n (descendants c) ->
                     exactMatch start end_ predicate n = true ->
                     m = n \/ In n (descendants m)) cs ->
  forall lo m n,
    orderedChildren orderedTree hi lo cs = true ->
    find (exactMatch start end_ predicate) (flat_map subtree cs) = Some m ->
    In n (flat_map subtree cs) ->
    exactMatch start end_ predicate n = true ->
    m = n \/ In n (descendants m).
Proof.
  intros Hspan. induction 1 as [|c cs Hc _ IH]; intros lo m n Hord Hfind Hn Hpn;
    [destruct Hn|].
  apply orderedChildren_cons in Hord as (Hlo & Hce & Hhi & Hoc & Hrest).
  change (flat_map subtree (c :: cs))
    with (subtree c ++ flat_map subtree cs) in Hfind, Hn.
  rewrite find_app_first in Hfind.
  destruct (find _ (subtree c)) as [m'|] eqn:Hfc.
  - injection Hfind as ->.
    apply in_app_or in Hn as [Hn|Hn].
    + unfold subtree in Hfc, Hn. cbn [find] in Hfc.
      destruct (exactMatch start end_ predicate c) eqn:Hpc.
      * injection Hfc as <-. destruct Hn as [<-|Hn]; [now left | now right].
      * destruct Hn as [<-|Hn]; [congruence|]. now apply Hc.
    + exfalso.
      apply find_some in Hfc as [Hm Hpm].
      destruct (subtree_within c m Hoc Hce Hm) as [_ Hme].
      pose proof (orderedChildren_bounds hi cs
                    (proj2 (List.Forall_forall _ _)
                       (fun c _ => orderedTree_within c))
                    (getEnd c) Hrest n Hn) as [Hns _].
      apply exactMatch_range in Hpm as (_ & Hm2 & _).
      apply exactMatch_range in Hpn as (Hn1 & _ & _). lia.
  - apply in_app_or in Hn as [Hn|Hn].
    + pose proof (find_none _ _ Hfc n Hn). congruence.
    + now apply (IH (getEnd c) m n).
Qed.

Lemma first_match_covers (root : Node) start end_ predicate m n :
  start < end_ -> orderedTree root = true ->
  find (exactMatch start end_ predicate) (descendants root) = Some m ->
  In n (descendants root) ->
  exactMatch start end_ predicate n = true ->
  m = n \/ In n (descendants m).
Proof.
  intros Hspan Hord. revert Hord m n.
  induction root as [i k s e cs IH] using Node_children_ind.
  intros Hord m n. rewrite descendants_children. simpl in Hord.
  now apply (first_match_covers_children start end_ predicate e cs Hspan IH s).
Qed.

(** The scan passes over every child whose range starts at or after the end
    of the span, so that what it returns has a range that is not empty. *)
Lemma scanChildren_nonempty recur start end_ predicate cs n :
  Forall (fun c => forall m, recur c = Some m -> getStart m < getEnd m) cs ->
  scanChildren recur start end_ predicate cs = Some n ->
  getStart n < getEnd n.
Proof.
  induction 1 as [|c cs Hc _ IH]; simpl; [discriminate|].
  destruct (Z.leb_spec end_ (getStart c)) as [|Hlt]; [discriminate|].
  destruct (start >=? getEnd c); [exact IH|].
  destruct (exactMatch start end_ predicate c) eqn:Hm.
  { intros [= <-]. apply exactMatch_range in Hm as (_ & He & _). lia. }
  destruct (recur c) as [m|] eqn:Hr; [|exact IH].
  intros [= <-]. now apply Hc.
Qed.

Lemma findNodeAtSpan_nonempty (root : Node) (span : TextSpan) predicate n :
  findNodeAtSpan root span predicate = Some n -> getStart n < getEnd n.
Proof.
  revert n. induction root as [i k s e cs IH] using Node_children_ind.
  intros n. rewrite findNodeAtSpan_unfold. simpl getChildren.
  now apply scanChildren_nonempty.
Qed.

(** A proper descendant is a smaller tree than its ancestor. *)
Lemma descendants_smaller (n x : Node) :
  In x (descendants n) -> (nodeSize x < nodeSize n)%nat.
Proof.
  revert x. induction n as [i k s e cs IH] using Node_children_ind.
  intros x. rewrite descendants_children. cbn [nodeSize].
  induction IH as [|c cs Hc _ IHcs]; cbn [flat_map fold_right];
    [intros []|].
  intros Hx. apply in_app_or in Hx as [[<-|Hx]|Hx].
  - lia.
  - specialize (Hc x Hx). lia.
  - specialize (IHcs Hx). lia.
Qed.

Lemma find_present {A} (f : A -> bool) (l : list A) (x : A) :
  In x l -> f x = true -> exists y, find f l = Some y.
Proof.
  intros Hx Hf. destruct (find f l) as [y|] eqn:E; [now exists y|].
  pose proof (find_none _ _ E x Hx). congruence.
Qed.

(** C2 (as amended). [findNodeAtSpan] returns only proper descendants of the
    root whose range is exactly the span and which the predicate accepts, and
    nothing when there is none. On a tree with ordered, non-overlapping
    children and a non-empty span it returns the first such node in document
    order, which is the outermost one: every other exact match lies below it.
    A node of empty range is never returned, whatever the tree and the span;
    nor is the root, which is no proper descendant of itself. *)
Theorem findNodeAtSpan_first_exact_match
    (root : Node) (span : TextSpan) (predicate : option (Node -> bool)) :
  let start := span_start span in
  let end_ := start + span_length span in
  (forall n, findNodeAtSpan root span predicate = Some n ->
     In n (descendants root) /\ getStart n = start /\ getEnd n = end_
     /\ match predicate with None => True | Some accepts => accepts n = true end)
  /\ ((forall n, In n (descendants root) ->
                 exactMatch start end_ predicate n = false) ->
      findNodeAtSpan root span predicate = None)
  /\ (orderedTree root = true -> 0 < span_length span ->
      findNodeAtSpan root span predicate
      = find (exactMatch start end_ predicate) (descendants root)
      /\ forall n, In n (descendants root) ->
                   exactMatch start end_ predicate n = true ->
                   exists m, findNodeAtSpan root span predicate = Some m
                             /\ exactMatch start end_ predicate m = true
                             /\ (m = n \/ In n (descendants m)))
  /\ (forall n, findNodeAtSpan root span predicate = Some n ->
                 getStart n < getEnd n)
  /\ findNodeAtSpan root span predicate <> Some root.
Proof.
  intros start end_. subst start end_.
  split; [|split; [|split; [|split]]].
  - intros n Hn. apply findNodeAtSpan_sound in Hn as [Hin Hm].
    split; [exact Hin|]. now apply exactMatch_range in Hm.
  - intros Hnone.
    destruct (findNodeAtSpan root span predicate) as [n|] eqn:E;
      [|reflexivity].
    apply findNodeAtSpan_sound in E as [Hin Hm].
    rewrite (Hnone n Hin) in Hm. discriminate.
  - intros Hord Hlen.
    pose proof (findNodeAtSpan_first root span predicate Hord Hlen) as Heq.
    split; [exact Heq|]. intros n Hn Hpn.
    destruct (find_present _ _ n Hn Hpn) as [m Hm].
    exists m. rewrite Heq. split; [exact Hm|]. split.
    + now apply find_some in Hm.
    + apply (first_match_covers root (span_start span)
               (span_start span + span_length span) predicate m n);
        [lia | assumption..].
  - intros n Hn. now apply (findNodeAtSpan_nonempty root span predicate).
  - intros Hroot. apply findNodeAtSpan_sound in Hroot as [Hin _].
    apply descendants_smaller in Hin. lia.
Qed.

(** C2, counterexample: with nested nodes of the same range the node
    returned is the outer one, which has an exact match below it; a node
    of empty range is never returned. *)
Lemma findNodeAtSpan_not_deepest :
  (exists outer inner,
     findNodeAtSpan nestedTree {| span_start := 5; span_length := 5 |} None
     = Some outer
     /\ In inner (descendants outer)
     /\ getStart inner = 5 /\ getEnd inner = 10)
  /\ (In (leaf 2 5 5 5) (descendants emptyNodeTree)
      /\ findNodeAtSpan emptyNodeTree {| span_start := 5; span_length := 0 |}
           None = None).
Proof.
  split.
  - exists (mkNode 2 2 5 10 [ mkNode 3 3 5 10 [ leaf 4 4 5 8; leaf 5 4 9 10 ] ]),
           (mkNode 3 3 5 10 [ leaf 4 4 5 8; leaf 5 4 9 10 ]).
    repeat split. simpl. now left.
  - split; [simpl; tauto | reflexivity].
Qed.

(** Witness of C2 on the sample tree. *)
Lemma findNodeAtSpan_first_exact_match_witness :
  orderedTree nestedTree = true
  /\ findNodeAtSpan nestedTree {| span_start := 9; span_length := 1 |} None
     = Some (leaf 5 4 9 10).
Proof.
  split; [reflexivity|].
  destruct (findNodeAtSpan_first_exact_match nestedTree
              {| span_start := 9; span_length := 1 |} None)
    as (_ & _ & Hfirst & _).
  destruct (Hfirst eq_refl ltac:(simpl; lia)) as [Heq _].
  rewrite Heq. reflexivity.
Defined.

(** Witness of C9 on the sample tree. *)
Lemma gatherDescendants_non_nested_witness :
  distinctNodes nestedTree
  /\ forall n m,
       In n (gatherDescendants nestedTree (fun x => Nat.leb 2 (kind x)) []) ->
       In m (gatherDescendants nestedTree (fun x => Nat.leb 2 (kind x)) []) ->
       ~ In n (descendants m).
Proof.
  assert (Hd : distinctNodes nestedTree).
  { unfold distinctNodes. refine (bool_decide_unpack _ _).
    vm_compute. exact I. }
  split; [exact Hd|].
  exact (proj1 (proj2 (gatherDescendants_non_nested nestedTree
                         (fun x => Nat.leb 2 (kind x)))) Hd).
Defined.

(** ** [hasNodeModule] *)

Lemma sameUnits_refl (s : jsstring) : JS.sameUnits s s = true.
Proof. induction s as [|c s IH]; simpl; [reflexivity|]. now rewrite N.eqb_refl. Qed.

Lemma sameUnits_eq (s x : jsstring) : JS.sameUnits s x = true <-> s = x.
Proof.
  split; [|intros ->; apply sameUnits_refl].
  revert x. induction s as [|c s IH]; intros [|d x]; simpl; try discriminate;
    [reflexivity|].
  intros H. apply andb_prop in H as [Hc Hs].
  apply N.eqb_eq in Hc. f_equal; [exact Hc | now apply IH].
Qed.

Lemma sameUnits_neq (s x : jsstring) : s <> x -> JS.sameUnits s x = false.
Proof.
  intros H. destruct (JS.sameUnits s x) eqn:E; [|reflexivity].
  now apply sameUnits_eq in E.
Qed.

(** C7 (as amended). [hasNodeModule] never throws. When [configFilePath] is a
    string, it returns the resolved file name (truthy when not empty) if the
    module resolves from that path, [true] if resolution fails with the code
    [ERR_PACKAGE_PATH_NOT_EXPORTED], and [false] if it fails in any other way.
    When [configFilePath] is not a string, it returns [true] without
    resolving anything. *)
Theorem hasNodeModule_total
    (requireResolve : Resolver) (compilerOptions : CompilerOptions)
    (module : jsstring) :
  (exists v, hasNodeModule requireResolve compilerOptions module = Returns v)
  /\ (forall path resolved,
        configFilePath compilerOptions = VString path ->
        requireResolve module [path] = Returns resolved ->
        hasNodeModule requireResolve compilerOptions module
        = Returns (VString resolved)
        /\ (resolved <> [] -> truthy (VString resolved) = true))
  /\ (forall path,
        configFilePath compilerOptions = VString path ->
        requireResolve module [path]
        = Throws (ThrownObject (VString ERR_PACKAGE_PATH_NOT_EXPORTED)) ->
        hasNodeModule requireResolve compilerOptions module
        = Returns (VBool true))
  /\ (forall path e,
        configFilePath compilerOptions = VString path ->
        requireResolve module [path] = Throws e ->
        codeOf e <> VString ERR_PACKAGE_PATH_NOT_EXPORTED ->
        hasNodeModule requireResolve compilerOptions module
        = Returns (VBool false))
  /\ ((forall path, configFilePath compilerOptions <> VString path) ->
      hasNodeModule requireResolve compilerOptions module
      = Returns (VBool true)).
Proof.
  unfold hasNodeModule.
  split; [|split; [|split; [|split]]].
  - destruct (configFilePath compilerOptions) as [|b|path]; simpl; eauto.
    destruct (requireResolve module [path]); simpl; eauto.
  - intros path resolved -> ->. split; [reflexivity|].
    intros Hne. destruct resolved; [congruence | reflexivity].
  - intros path -> ->. reflexivity.
  - intros path e -> -> Hcode. simpl. do 2 f_equal.
    destruct (codeOf e) as [|b|c]; try reflexivity.
    simpl. apply sameUnits_neq. congruence.
  - intros Hns. destruct (configFilePath compilerOptions) as [|b|path];
      try reflexivity.
    now destruct (Hns path).
Qed.

(** C7, counterexample: without a [configFilePath] the answer is [true] even
    in a project in which no module can be resolved from any path. *)
Lemma hasNodeModule_true_without_config :
  (forall paths,
     nothingInstalled (u16 "svelte") paths
     = Throws (ThrownObject (VString MODULE_NOT_FOUND)))
  /\ hasNodeModule nothingInstalled {| configFilePath := VUndefined |}
       (u16 "svelte")
     = Returns (VBool true)
  /\ hasNodeModule nothingInstalled {| configFilePath := VUndefined |}
       (u16 "svelte")
     <> Returns (VBool false).
Proof. split; [reflexivity | split; [reflexivity | discriminate]]. Qed.

(** Witness of C7 with a resolver that knows one module and one package
    with a closed export map. *)
Lemma hasNodeModule_total_witness :
  hasNodeModule sampleResolver
    {| configFilePath := VString (u16 "/app/tsconfig.json") |}
    (u16 "@sveltejs/kit/package.json") = Returns (VBool true)
  /\ hasNodeModule sampleResolver
       {| configFilePath := VString (u16 "/app/tsconfig.json") |}
       (u16 "left-pad") = Returns (VBool false).
Proof.
  split.
  - apply (proj1 (proj2 (proj2 (hasNodeModule_total sampleResolver
             {| configFilePath := VString (u16 "/app/tsconfig.json") |}
             (u16 "@sveltejs/kit/package.json"))))
           (u16 "/app/tsconfig.json")); reflexivity.
  - apply (proj1 (proj2 (proj2 (proj2 (hasNodeModule_total sampleResolver
             {| configFilePath := VString (u16 "/app/tsconfig.json") |}
             (u16 "left-pad")))))
           (u16 "/app/tsconfig.json")
           (ThrownObject (VString MODULE_NOT_FOUND)));
      [reflexivity | reflexivity | discriminate].
Defined.

(** Witness of C10 on a virtual path. *)
Lemma ensureRealSvelteFilePath_idempotent_witness :
  isVirtualSvelteFilePath (u16 "a.svelte.ts") = true
  /\ isSvelteFilePath (ensureRealSvelteFilePath (u16 "a.svelte.ts")) = true.
Proof.
  split; [reflexivity|].
  apply (proj2 (proj2 (ensureRealSvelteFilePath_idempotent (u16 "a.svelte.ts")))).
  reflexivity.
Defined.

(** ** The virtual system: what each operation changes *)

Lemma filter_keeps_all {A} (f : A -> bool) (l : list A) :
  (forall x, In x l -> f x = true) -> List.filter f l = l.
Proof.
  induction l as [|a l IH]; simpl; intros Hf; [reflexivity|].
  rewrite (Hf a) by now left. f_equal. apply IH. intros x Hx. apply Hf. now right.
Qed.

Section VirtualSystemFacts.
Context `{Platform}.

Lemma toAbsolute_same_directory (st st' : VirtualSystem) path :
  currentDirectory st' = currentDirectory st ->
  toAbsolute st' path = toAbsolute st path.
Proof. unfold toAbsolute. now intros ->. Qed.

Lemma fileKey_same_directory (st st' : VirtualSystem) path :
  currentDirectory st' = currentDirectory st ->
  fileKey st' path = fileKey st path.
Proof. unfold fileKey. intros E. now rewrite (toAbsolute_same_directory st st'). Qed.

Lemma clearTimeouts_fields (ids : list nat) (st : VirtualSystem) :
  let st' := fold_left (fun s timeout => clearTimeout timeout s) ids st in
  currentDirectory st' = currentDirectory st
  /\ virtualFs st' = virtualFs st
  /\ watchers st' = watchers st
  /\ watchTimeout st' = watchTimeout st
  /\ delivered st' = delivered st
  /\ nextTimeout st' = nextTimeout st
  /\ timerQueue st'
     = List.filter (fun t => negb (existsb (Nat.eqb (timerId t)) ids))
         (timerQueue st).
Proof.
  revert st. induction ids as [|id ids IH]; intros st; simpl.
  - repeat split; try reflexivity.
    symmetry. now apply filter_keeps_all.
  - destruct (IH (clearTimeout id st)) as (E1 & E2 & E3 & E4 & E5 & E6 & E7).
    rewrite E1, E2, E3, E4, E5, E6, E7. repeat split; try reflexivity.
    simpl. clear. induction (timerQueue st) as [|t q IHq]; simpl;
      [reflexivity|].
    destruct (Nat.eqb (timerId t) id); simpl; [exact IHq|].
    destruct (existsb _ ids); simpl; [exact IHq | now rewrite IHq].
Qed.

(** The timers cancelled by [close]: those listed for the handle's path. *)
Lemma close_timerQueue (h : WatchHandle) (st : VirtualSystem) :
  timerQueue (close h st)
  = List.filter
      (fun t => negb (existsb (Nat.eqb (timerId t))
                        (default [] (FileMap.get (watchTimeout st)
                                       (handlePath h)))))
      (timerQueue st).
Proof.
  unfold close.
  set (st1 := match FileMap.get (watchers st) (handlePath h) with
              | Some _ => _ | None => st end).
  assert (E : watchTimeout st1 = watchTimeout st
              /\ timerQueue st1 = timerQueue st)
    by (subst st1; destruct (FileMap.get (watchers st) _); split; reflexivity).
  destruct E as [E1 E2]. rewrite E1.
  destruct (FileMap.get (watchTimeout st) (handlePath h)) as [ids|]; simpl.
  - destruct (clearTimeouts_fields ids st1) as (_ & _ & _ & _ & _ & _ & E).
    now rewrite E, E2.
  - rewrite E2. symmetry. now apply filter_keeps_all.
Qed.

(** [close] keeps, of the callbacks registered for the handle's path,
    exactly the occurrences of the handle's own callback. *)
Lemma close_watchers (h : WatchHandle) (st : VirtualSystem) :
  watchers (close h st)
  = match FileMap.get (watchers st) (handlePath h) with
    | Some ws =>
        FileMap.set (watchers st) (handlePath h)
          (List.filter (fun w => Nat.eqb w (handleCallback h)) ws)
    | None => watchers st
    end.
Proof.
  unfold close.
  set (st1 := match FileMap.get (watchers st) (handlePath h) with
              | Some _ => _ | None => st end).
  assert (E : watchers st1
              = match FileMap.get (watchers st) (handlePath h) with
                | Some ws =>
                    FileMap.set (watchers st) (handlePath h)
                      (List.filter (fun w => Nat.eqb w (handleCallback h)) ws)
                | None => watchers st
                end)
    by (subst st1; destruct (FileMap.get (watchers st) _); reflexivity).
  rewrite <- E.
  destruct (FileMap.get (watchTimeout st1) (handlePath h)) as [ids|];
    [|reflexivity].
  now destruct (clearTimeouts_fields ids st1) as (_ & _ & -> & _).
Qed.

Lemma close_fields (h : WatchHandle) (st : VirtualSystem) :
  currentDirectory (close h st) = currentDirectory st
  /\ virtualFs (close h st) = virtualFs st
  /\ delivered (close h st) = delivered st
  /\ nextTimeout (close h st) = nextTimeout st.
Proof.
  unfold close.
  set (st1 := match FileMap.get (watchers st) (handlePath h) with
              | Some _ => _ | None => st end).
  assert (E : currentDirectory st1 = currentDirectory st
              /\ virtualFs st1 = virtualFs st
              /\ delivered st1 = delivered st
              /\ nextTimeout st1 = nextTimeout st)
    by (subst st1; destruct (FileMap.get (watchers st) _);
        repeat split; reflexivity).
  destruct E as (E1 & E2 & E3 & E4).
  destruct (FileMap.get (watchTimeout st1) (handlePath h)) as [ids|];
    [|tauto].
  destruct (clearTimeouts_fields ids st1) as (-> & -> & _ & _ & -> & -> & _).
  tauto.
Qed.

Lemma notify_fields (t : Timer) (st : VirtualSystem) :
  currentDirectory (notify t st) = currentDirectory st
  /\ virtualFs (notify t st) = virtualFs st
  /\ watchers (notify t st) = watchers st
  /\ watchTimeout (notify t st) = watchTimeout st
  /\ nextTimeout (notify t st) = nextTimeout st
  /\ timerQueue (notify t st) = timerQueue st
  /\ delivered (notify t st) = delivered st ++ callsOf (watchers st) t.
Proof.
  unfold notify, callsOf.
  destruct (FileMap.get (watchers st) (timerPath t)); simpl;
    repeat split; try reflexivity.
  now rewrite app_nil_r.
Qed.

Lemma notifyAll_fields (q : list Timer) (st : VirtualSystem) :
  let st' := fold_left (fun s t => notify t s) q st in
  currentDirectory st' = currentDirectory st
  /\ virtualFs st' = virtualFs st
  /\ watchers st' = watchers st
  /\ timerQueue st' = timerQueue st
  /\ delivered st' = delivered st ++ flat_map (callsOf (watchers st)) q.
Proof.
  revert st. induction q as [|t q IH]; intros st; simpl.
  - repeat split; try reflexivity. now rewrite app_nil_r.
  - destruct (IH (notify t st)) as (E1 & E2 & E3 & E4 & E5).
    destruct (notify_fields t st) as (F1 & F2 & F3 & _ & _ & F6 & F7).
    rewrite E1, E2, E3, E4, E5, F1, F2, F3, F6, F7.
    repeat split; try reflexivity. now rewrite <- app_assoc.
Qed.

(** Running the pending timers calls, timer by timer, the callbacks
    registered for the timer's path. *)
Lemma runTimers_delivered (st : VirtualSystem) :
  delivered (runTimers st)
  = delivered st ++ flat_map (callsOf (watchers st)) (timerQueue st).
Proof.
  unfold runTimers.
  now destruct (notifyAll_fields (timerQueue st)
                  (withTimers (nextTimeout st) [] st)) as (_ & _ & _ & _ & ->).
Qed.

Lemma triggerWatch_fields np kind (st : VirtualSystem) :
  currentDirectory (triggerWatch np kind st) = currentDirectory st
  /\ virtualFs (triggerWatch np kind st) = virtualFs st
  /\ watchers (triggerWatch np kind st) = watchers st
  /\ delivered (triggerWatch np kind st) = delivered st
  /\ nextTimeout (triggerWatch np kind st) = S (nextTimeout st)
  /\ timerQueue (triggerWatch np kind st)
     = timerQueue st
       ++ [{| timerId := nextTimeout st; timerPath := np; timerKind := kind |}]
  /\ watchTimeout (triggerWatch np kind st)
     = FileMap.set (watchTimeout st) np
         (default [] (FileMap.get (watchTimeout st) np) ++ [nextTimeout st]).
Proof.
  unfold triggerWatch. simpl. repeat split; reflexivity.
Qed.

End VirtualSystemFacts.

Section FilesAndNotifications.
Context `{Platform}.

Lemma writeFile_fields path data (st : VirtualSystem) :
  let np := normalizePath (toAbsolute st path) in
  let kind := if fileExists path st then Changed else Created in
  currentDirectory (writeFile path data st) = currentDirectory st
  /\ virtualFs (writeFile path data st) = FileMap.set (virtualFs st) np data
  /\ watchers (writeFile path data st) = watchers st
  /\ delivered (writeFile path data st) = delivered st
  /\ nextTimeout (writeFile path data st) = S (nextTimeout st)
  /\ timerQueue (writeFile path data st)
     = timerQueue st
       ++ [{| timerId := nextTimeout st; timerPath := np; timerKind := kind |}]
  /\ watchTimeout (writeFile path data st)
     = FileMap.set (watchTimeout st) np
         (default [] (FileMap.get (watchTimeout st) np) ++ [nextTimeout st]).
Proof. unfold writeFile, fileExists. simpl. repeat split; reflexivity. Qed.

Lemma deleteFile_existing_fields path (st : VirtualSystem) :
  let np := normalizePath (toAbsolute st path) in
  fileExists path st = true ->
  currentDirectory (deleteFile path st) = currentDirectory st
  /\ virtualFs (deleteFile path st) = FileMap.delete (virtualFs st) np
  /\ watchers (deleteFile path st) = watchers st
  /\ delivered (deleteFile path st) = delivered st
  /\ nextTimeout (deleteFile path st) = S (nextTimeout st)
  /\ timerQueue (deleteFile path st)
     = timerQueue st
       ++ [{| timerId := nextTimeout st; timerPath := np;
              timerKind := Deleted |}]
  /\ watchTimeout (deleteFile path st)
     = FileMap.set (watchTimeout st) np
         (default [] (FileMap.get (watchTimeout st) np) ++ [nextTimeout st]).
Proof.
  unfold deleteFile, fileExists. simpl. intros ->. simpl.
  repeat split; reflexivity.
Qed.

Lemma deleteFile_missing_fields path (st : VirtualSystem) :
  fileExists path st = false ->
  deleteFile path st
  = withVirtualFs
      (FileMap.delete (virtualFs st) (normalizePath (toAbsolute st path))) st.
Proof. unfold deleteFile, fileExists. simpl. now intros ->. Qed.

Lemma callsOf_registered path kind id (st : VirtualSystem) :
  callsOf (watchers st)
    {| timerId := id; timerPath := normalizePath (toAbsolute st path);
       timerKind := kind |}
  = notifications st path kind (watchersOf path st).
Proof.
  unfold callsOf, notifications, watchersOf. simpl.
  now destruct (FileMap.get (watchers st) _).
Qed.

(** A write is announced, once the timers run, to every callback
    registered for the path, after everything that was pending before. *)
Lemma runTimers_writeFile path data (st : VirtualSystem) :
  delivered (runTimers (writeFile path data st))
  = delivered (runTimers st)
    ++ notifications st path
         (if fileExists path st then Changed else Created)
         (watchersOf path st).
Proof.
  rewrite !runTimers_delivered.
  destruct (writeFile_fields path data st) as (_ & _ & -> & -> & _ & -> & _).
  rewrite flat_map_app. simpl. rewrite app_nil_r, callsOf_registered.
  now rewrite app_assoc.
Qed.

Lemma runTimers_deleteFile_existing path (st : VirtualSystem) :
  fileExists path st = true ->
  delivered (runTimers (deleteFile path st))
  = delivered (runTimers st)
    ++ notifications st path Deleted (watchersOf path st).
Proof.
  intros Hex. rewrite !runTimers_delivered.
  destruct (deleteFile_existing_fields path st Hex)
    as (_ & _ & -> & -> & _ & -> & _).
  rewrite flat_map_app. simpl. rewrite app_nil_r, callsOf_registered.
  now rewrite app_assoc.
Qed.

Lemma fileExists_writeFile path data (st : VirtualSystem) :
  fileExists path (writeFile path data st) = true.
Proof.
  unfold fileExists.
  destruct (writeFile_fields path data st) as (Hcd & -> & _).
  rewrite (toAbsolute_same_directory st _ path Hcd).
  unfold FileMap.has, FileMap.set. now rewrite lookup_insert_eq.
Qed.

Lemma fileExists_deleteFile path (st : VirtualSystem) :
  fileExists path (deleteFile path st) = false.
Proof.
  assert (E : currentDirectory (deleteFile path st) = currentDirectory st
              /\ virtualFs (deleteFile path st)
                 = FileMap.delete (virtualFs st)
                     (normalizePath (toAbsolute st path))).
  { destruct (fileExists path st) eqn:Hex.
    - destruct (deleteFile_existing_fields path st Hex) as (? & ? & _).
      now split.
    - rewrite (deleteFile_missing_fields path st Hex). now split. }
  destruct E as [Hcd Hfs]. unfold fileExists. rewrite Hfs.
  rewrite (toAbsolute_same_directory st _ path Hcd).
  unfold FileMap.has, FileMap.delete. now rewrite lookup_delete_eq.
Qed.

(** C4. Writing a path that does not exist announces [Created] to the
    watchers of the path, writing one that exists announces [Changed],
    deleting one that exists announces [Deleted], and deleting one that
    does not exist sets no timer and announces nothing. After a write the
    path exists, so the next write is a change; nothing is delivered
    before the timers run. *)
Theorem notification_kinds (path data : jsstring) (st : VirtualSystem) :
  (fileExists path st = false ->
   delivered (runTimers (writeFile path data st))
   = delivered (runTimers st)
     ++ notifications st path Created (watchersOf path st))
  /\ (fileExists path st = true ->
      delivered (runTimers (writeFile path data st))
      = delivered (runTimers st)
        ++ notifications st path Changed (watchersOf path st))
  /\ (fileExists path st = true ->
      delivered (runTimers (deleteFile path st))
      = delivered (runTimers st)
        ++ notifications st path Deleted (watchersOf path st))
  /\ (fileExists path st = false ->
      timerQueue (deleteFile path st) = timerQueue st
      /\ delivered (runTimers (deleteFile path st))
         = delivered (runTimers st))
  /\ fileExists path (writeFile path data st) = true
  /\ fileExists path (deleteFile path st) = false
  /\ delivered (writeFile path data st) = delivered st
  /\ delivered (deleteFile path st) = delivered st.
Proof.
  split; [|split; [|split; [|split; [|split; [|split; [|split]]]]]].
  - intros Hex. rewrite runTimers_writeFile. now rewrite Hex.
  - intros Hex. rewrite runTimers_writeFile. now rewrite Hex.
  - apply runTimers_deleteFile_existing.
  - intros Hex. rewrite (deleteFile_missing_fields path st Hex).
    split; [reflexivity|]. now rewrite !runTimers_delivered.
  - apply fileExists_writeFile.
  - apply fileExists_deleteFile.
  - now destruct (writeFile_fields path data st) as (_ & _ & _ & -> & _).
  - destruct (fileExists path st) eqn:Hex.
    + now destruct (deleteFile_existing_fields path st Hex)
        as (_ & _ & _ & -> & _).
    + now rewrite (deleteFile_missing_fields path st Hex).
Qed.

(** An operation that neither writes nor deletes the file stored under
    [key] leaves its entry in the file table alone. *)
Lemma exec_virtualFs_untouched (st0 st : VirtualSystem) key op :
  currentDirectory st = currentDirectory st0 ->
  touches st0 key op = false ->
  virtualFs (exec st op) !! key = virtualFs st !! key.
Proof.
  intros Hcd Ht.
  destruct op as [p d|p|p c|h| |dt]; cbn [exec touches] in *.
  - destruct (writeFile_fields p d st) as (_ & -> & _).
    unfold FileMap.set. rewrite lookup_insert_ne; [reflexivity|].
    intros E. rewrite <- (fileKey_same_directory st0 st p Hcd) in Ht.
    unfold fileKey in Ht. rewrite E, sameUnits_refl in Ht. discriminate.
  - assert (E : virtualFs (deleteFile p st)
                = FileMap.delete (virtualFs st)
                    (normalizePath (toAbsolute st p))).
    { destruct (fileExists p st) eqn:Hex.
      - now destruct (deleteFile_existing_fields p st Hex) as (_ & -> & _).
      - now rewrite (deleteFile_missing_fields p st Hex). }
    rewrite E. unfold FileMap.delete. rewrite lookup_delete_ne; [reflexivity|].
    intros E'. rewrite <- (fileKey_same_directory st0 st p Hcd) in Ht.
    unfold fileKey in Ht. rewrite E', sameUnits_refl in Ht. discriminate.
  - reflexivity.
  - now destruct (close_fields h st) as (_ & -> & _).
  - unfold fireTimer. destruct (timerQueue st) as [|t q]; [reflexivity|].
    now destruct (notify_fields t (withTimers (nextTimeout st) q st))
      as (_ & -> & _).
  - reflexivity.
Qed.

Lemma exec_currentDirectory (st : VirtualSystem) op :
  currentDirectory (exec st op) = currentDirectory st.
Proof.
  destruct op as [p d|p|p c|h| |dt]; cbn [exec].
  - now destruct (writeFile_fields p d st) as (-> & _).
  - destruct (fileExists p st) eqn:Hex.
    + now destruct (deleteFile_existing_fields p st Hex) as (-> & _).
    + now rewrite (deleteFile_missing_fields p st Hex).
  - reflexivity.
  - now destruct (close_fields h st) as (-> & _).
  - unfold fireTimer. destruct (timerQueue st) as [|t q]; [reflexivity|].
    now destruct (notify_fields t (withTimers (nextTimeout st) q st))
      as (-> & _).
  - reflexivity.
Qed.

Lemma execAll_currentDirectory ops (st : VirtualSystem) :
  currentDirectory (execAll ops st) = currentDirectory st.
Proof.
  unfold execAll. revert st.
  induction ops as [|op ops IH]; intros st; cbn [fold_left];
    [reflexivity|].
  now rewrite IH, exec_currentDirectory.
Qed.

(** C8. What [writeFile] stored under a path is what [readFile] returns
    for that path, whatever happens in between, as long as the file is
    not written again or deleted. *)
Theorem readFile_after_writeFile
    (path data : jsstring) (st : VirtualSystem) (between : list Op) :
  Forall (fun op => touches st (fileKey st path) op = false) between ->
  readFile path (execAll between (writeFile path data st)) = Some data.
Proof.
  intros Hb.
  assert (Hcd0 : currentDirectory (writeFile path data st)
                 = currentDirectory st)
    by now destruct (writeFile_fields path data st) as (-> & _).
  assert (Hkey : virtualFs (execAll between (writeFile path data st))
                   !! fileKey st path = Some data).
  { revert Hcd0.
    assert (Hstart : virtualFs (writeFile path data st) !! fileKey st path
                     = Some data).
    { destruct (writeFile_fields path data st) as (_ & -> & _).
      unfold FileMap.set, fileKey. now rewrite lookup_insert_eq. }
    revert Hstart. generalize (writeFile path data st) as s.
    induction Hb as [|op ops Hop _ IH]; intros s Hstart Hcd; simpl;
      [exact Hstart|].
    apply IH.
    - now rewrite (exec_virtualFs_untouched st s _ op Hcd Hop).
    - now rewrite exec_currentDirectory. }
  unfold readFile, FileMap.get.
  rewrite (toAbsolute_same_directory st _ path);
    [exact Hkey|].
  now rewrite execAll_currentDirectory.
Qed.

End FilesAndNotifications.

Section Runs.
Context `{Platform}.

Lemma execAll_snoc ops op (st : VirtualSystem) :
  execAll (ops ++ [op]) st = exec (execAll ops st) op.
Proof. unfold execAll. now rewrite fold_left_app. Qed.

Lemma exec_virtualFs (st : VirtualSystem) op :
  virtualFs (exec st op)
  = match op with
    | OpWriteFile path data =>
        FileMap.set (virtualFs st) (normalizePath (toAbsolute st path)) data
    | OpDeleteFile path =>
        FileMap.delete (virtualFs st) (normalizePath (toAbsolute st path))
    | _ => virtualFs st
    end.
Proof.
  destruct op as [p d|p|p c|h| |dt]; cbn [exec].
  - now destruct (writeFile_fields p d st) as (_ & -> & _).
  - destruct (fileExists p st) eqn:Hex.
    + now destruct (deleteFile_existing_fields p st Hex) as (_ & -> & _).
    + now rewrite (deleteFile_missing_fields p st Hex).
  - reflexivity.
  - now destruct (close_fields h st) as (_ & -> & _).
  - unfold fireTimer. destruct (timerQueue st) as [|t q]; [reflexivity|].
    now destruct (notify_fields t (withTimers (nextTimeout st) q st))
      as (_ & -> & _).
  - reflexivity.
Qed.

(** Whatever the file table holds was put there by a [writeFile]. *)
Lemma stored_was_written cwd ops key content :
  virtualFs (execAll ops (createVirtualTsSystem cwd)) !! key = Some content ->
  exists path,
    In (OpWriteFile path content) ops
    /\ fileKey (createVirtualTsSystem cwd) path = key.
Proof.
  revert key content. induction ops as [|op ops IH] using rev_ind;
    intros key content.
  - cbn. now rewrite lookup_empty.
  - rewrite execAll_snoc, exec_virtualFs.
    set (st := execAll ops (createVirtualTsSystem cwd)) in *.
    assert (Hcd : currentDirectory st
                  = currentDirectory (createVirtualTsSystem cwd))
      by apply execAll_currentDirectory.
    assert (Hold : virtualFs st !! key = Some content ->
                   exists path, In (OpWriteFile path content) (ops ++ [op])
                     /\ fileKey (createVirtualTsSystem cwd) path = key).
    { intros Hl. destruct (IH key content Hl) as (p & Hin & Hk).
      exists p. split; [|exact Hk]. apply in_or_app. now left. }
    destruct op as [p d|p|p c|h| |dt]; try exact Hold.
    + unfold FileMap.set. rewrite lookup_insert.
      destruct (decide (getCanonicalFileName (normalizePath (toAbsolute st p))
                        = key)) as [Hk|Hk]; [|exact Hold].
      intros [= <-]. exists p. split.
      * apply in_or_app. right. now left.
      * rewrite <- Hk. symmetry. now apply fileKey_same_directory.
    + unfold FileMap.delete. rewrite lookup_delete.
      destruct (decide (getCanonicalFileName (normalizePath (toAbsolute st p))
                        = key)); [discriminate | exact Hold].
Qed.

Lemma in_keys {V} (m : gmap jsstring V) key :
  In key (FileMap.keys m) <-> exists v, m !! key = Some v.
Proof.
  unfold FileMap.keys. rewrite in_map_iff. split.
  - intros ([k v] & <- & Hin). exists v.
    apply list_elem_of_In in Hin. now apply elem_of_map_to_list in Hin.
  - intros [v Hv]. exists (key, v). split; [reflexivity|].
    apply list_elem_of_In. now apply elem_of_map_to_list.
Qed.

Lemma split_at_last {A} (l before after : list A) (x y : A) :
  l ++ [x] = before ++ y :: after ->
  (after = [] /\ l = before /\ x = y)
  \/ exists after', after = after' ++ [x] /\ l = before ++ y :: after'.
Proof.
  destruct after as [|a after] using rev_ind; intros E.
  - left. apply app_inj_tail in E as [-> ->]. auto.
  - right. exists after.
    change (before ++ y :: after ++ [a])
      with (before ++ (y :: after) ++ [a]) in E.
    rewrite app_assoc in E. apply app_inj_tail in E as [-> ->]. auto.
Qed.

(** A key is in the file table exactly when a path with that key was
    written and no later operation deleted a path with that key. *)
Lemma stored_iff_written_not_deleted cwd ops key :
  let st0 := createVirtualTsSystem cwd in
  is_Some (virtualFs (execAll ops st0) !! key)
  <-> exists before path content after,
        ops = before ++ OpWriteFile path content :: after
        /\ fileKey st0 path = key
        /\ Forall (fun op => deletes st0 key op = false) after.
Proof.
  intros st0. induction ops as [|op ops IH] using rev_ind.
  - split.
    + intros [v Hv]. cbn in Hv. now rewrite lookup_empty in Hv.
    + intros (before & p & c & after & E & _). now destruct before.
  - rewrite execAll_snoc, exec_virtualFs.
    set (st := execAll ops st0) in *.
    assert (Hcd : currentDirectory st = currentDirectory st0)
      by apply execAll_currentDirectory.
    assert (Hkey : forall p,
              getCanonicalFileName (normalizePath (toAbsolute st p))
              = fileKey st0 p)
      by (intros p; apply (fileKey_same_directory st0 st p Hcd)).
    assert (Hextend : deletes st0 key op = false ->
              is_Some (virtualFs st !! key) ->
              exists before path content after,
                ops ++ [op] = before ++ OpWriteFile path content :: after
                /\ fileKey st0 path = key
                /\ Forall (fun op => deletes st0 key op = false) after).
    { intros Hop Hs. apply IH in Hs as (b & p & c & a & -> & Hk & Ha).
      exists b, p, c, (a ++ [op]). split; [|split; [exact Hk|]].
      - now rewrite <- app_assoc.
      - apply Forall_app. split; [exact Ha | now constructor]. }
    assert (Hback : forall before path content after,
              ops ++ [op] = before ++ OpWriteFile path content :: after ->
              fileKey st0 path = key ->
              Forall (fun op => deletes st0 key op = false) after ->
              op = OpWriteFile path content
              \/ (deletes st0 key op = false
                  /\ is_Some (virtualFs st !! key))).
    { intros b p c a E Hk Ha.
      apply split_at_last in E as [(-> & -> & ->)|(a' & -> & ->)];
        [now left|]. right.
      apply Forall_app in Ha as [Ha' Hop]. split; [now inversion Hop|].
      apply IH. now exists b, p, c, a'. }
    split.
    + destruct op as [p d|p|p c|h| |dt]; try (now apply Hextend).
      * unfold FileMap.set. rewrite lookup_insert, Hkey.
        destruct (decide (fileKey st0 p = key)) as [Hk|Hk];
          [|now apply Hextend].
        intros _. exists ops, p, d, []. now repeat split.
      * unfold FileMap.delete. rewrite lookup_delete, Hkey.
        destruct (decide (fileKey st0 p = key)) as [Hk|Hk].
        -- intros [v Hv]. discriminate.
        -- apply Hextend. cbn [deletes]. now apply sameUnits_neq.
    + intros (b & p & c & a & E & Hk & Ha).
      destruct (Hback b p c a E Hk Ha) as [->|[Hop Hs]].
      * unfold FileMap.set. rewrite Hkey, Hk, lookup_insert_eq. eauto.
      * destruct op as [q d|q|q cb|h| |dt]; try exact Hs.
        -- unfold FileMap.set. rewrite lookup_insert.
           destruct (decide _); [eauto | exact Hs].
        -- unfold FileMap.delete. rewrite lookup_delete_ne; [exact Hs|].
           rewrite Hkey. cbn [deletes] in Hop. intros Hq.
           rewrite Hq, sameUnits_refl in Hop. discriminate.
Qed.

(** C6 (as amended). [directoryExists(d)] holds exactly when some path was
    written with [writeFile] and not deleted since, and has the canonical
    normalized form of [d] as a prefix of the key it is stored under. *)
Theorem directoryExists_iff_written_not_deleted
    (cwd : jsstring) (ops : list Op) (d : jsstring) :
  let st0 := createVirtualTsSystem cwd in
  directoryExists d (execAll ops st0) = true
  <-> exists before path content after rest,
        ops = before ++ OpWriteFile path content :: after
        /\ Forall (fun op => deletes st0 (fileKey st0 path) op = false) after
        /\ fileKey st0 path = fileKey st0 d ++ rest.
Proof.
  intros st0. set (st := execAll ops st0).
  assert (Hcd : currentDirectory st = currentDirectory st0)
    by apply execAll_currentDirectory.
  unfold directoryExists. rewrite existsb_exists.
  change (getCanonicalFileName (normalizePath (toAbsolute st d)))
    with (fileKey st d).
  rewrite (fileKey_same_directory st0 st d Hcd). split.
  - intros (key & Hin & Hpre).
    apply in_keys in Hin.
    apply (stored_iff_written_not_deleted cwd ops key) in Hin
      as (b & p & c & a & E & Hk & Ha).
    apply startsWith_inv in Hpre as [rest Hrest].
    exists b, p, c, a, rest. fold st0 in Hk, Ha. subst key. auto.
  - intros (b & p & c & a & rest & E & Ha & Hk).
    exists (fileKey st0 p). split.
    + apply in_keys. apply (stored_iff_written_not_deleted cwd ops).
      now exists b, p, c, a.
    + rewrite Hk. apply startsWith_app.
Qed.

(** C6, counterexample: a path under [/src] was written, and was deleted
    afterwards; [directoryExists] then denies [/src]. *)
Lemma directoryExists_false_after_delete :
  let ops := [OpWriteFile samplePath (u16 "x"); OpDeleteFile samplePath] in
  let st0 := createVirtualTsSystem (u16 "/") in
  In (OpWriteFile samplePath (u16 "x")) ops
  /\ @fileKey posix st0 samplePath
     = @fileKey posix st0 (u16 "/src") ++ u16 "/App.svelte"
  /\ @directoryExists posix (u16 "/src") (@execAll posix ops st0) = false.
Proof.
  split; [now left|]. split; reflexivity.
Qed.

(** Timer handles stay below the next handle along every run. *)
Lemma exec_timersBelowNext (st : VirtualSystem) op :
  timersBelowNext st -> timersBelowNext (exec st op).
Proof.
  unfold timersBelowNext. intros Hst.
  assert (Htrig : forall X np kind,
            nextTimeout X = S (nextTimeout st) ->
            timerQueue X
            = timerQueue st
              ++ [{| timerId := nextTimeout st; timerPath := np;
                     timerKind := kind |}] ->
            Forall (fun t => (timerId t < nextTimeout X)%nat) (timerQueue X)).
  { intros X np kind -> ->. apply Forall_app. split.
    - eapply Forall_impl; [exact Hst|]. simpl. intros; lia.
    - constructor; [simpl; lia | constructor]. }
  destruct op as [p d|p|p c|h| |dt]; cbn [exec].
  - destruct (writeFile_fields p d st) as (_ & _ & _ & _ & Hn & Hq & _).
    now apply (Htrig _ _ _ Hn Hq).
  - destruct (fileExists p st) eqn:Hex.
    + destruct (deleteFile_existing_fields p st Hex)
        as (_ & _ & _ & _ & Hn & Hq & _).
      now apply (Htrig _ _ _ Hn Hq).
    + now rewrite (deleteFile_missing_fields p st Hex).
  - exact Hst.
  - rewrite close_timerQueue.
    destruct (close_fields h st) as (_ & _ & _ & ->).
    apply List.Forall_forall. intros t Ht. apply filter_In in Ht as [Ht _].
    revert t Ht. now apply List.Forall_forall.
  - unfold fireTimer. destruct (timerQueue st) as [|t q] eqn:Hq;
      [now rewrite Hq|].
    destruct (notify_fields t (withTimers (nextTimeout st) q st))
      as (_ & _ & _ & _ & -> & -> & _).
    simpl. now inversion Hst.
  - exact Hst.
Qed.

Lemma reachable_timersBelowNext cwd ops :
  timersBelowNext (execAll ops (createVirtualTsSystem cwd)).
Proof.
  induction ops as [|op ops IH] using rev_ind.
  - constructor.
  - rewrite execAll_snoc. now apply exec_timersBelowNext.
Qed.

End Runs.

Section Disposal.
Context `{Platform}.

Lemma existsb_app_last (f : nat -> bool) (l : list nat) (x : nat) :
  existsb f (l ++ [x]) = existsb f l || f x.
Proof. rewrite existsb_app. simpl. now rewrite orb_false_r. Qed.

(** Closing a handle right after a notification was scheduled for its
    path leaves the same timers, registry and log as closing it without
    the notification: the new timer is cancelled with the older ones. *)
Lemma close_cancels_scheduled (h : WatchHandle) np kind
    (st X : VirtualSystem) :
  timersBelowNext st ->
  getCanonicalFileName (handlePath h) = getCanonicalFileName np ->
  watchers X = watchers st ->
  delivered X = delivered st ->
  timerQueue X
  = timerQueue st
    ++ [{| timerId := nextTimeout st; timerPath := np; timerKind := kind |}] ->
  watchTimeout X
  = FileMap.set (watchTimeout st) np
      (default [] (FileMap.get (watchTimeout st) np) ++ [nextTimeout st]) ->
  delivered (runTimers (close h X)) = delivered (runTimers (close h st)).
Proof.
  intros Hbelow Hkey Hw Hd Hq Hwt.
  rewrite !runTimers_delivered.
  rewrite !close_watchers, Hw.
  destruct (close_fields h X) as (_ & _ & -> & _).
  destruct (close_fields h st) as (_ & _ & -> & _).
  rewrite Hd. f_equal. f_equal.
  rewrite !close_timerQueue, Hq, Hwt.
  unfold FileMap.get, FileMap.set. rewrite Hkey, lookup_insert_eq.
  cbn [default]. unfold id. rewrite List.filter_app. cbn [List.filter].
  rewrite existsb_app_last. cbn [timerId].
  rewrite Nat.eqb_refl, orb_true_r. cbn [negb]. rewrite app_nil_r.
  apply List.filter_ext_in. intros t Ht.
  rewrite existsb_app_last.
  unfold timersBelowNext in Hbelow.
  rewrite List.Forall_forall in Hbelow. specialize (Hbelow t Ht).
  destruct (Nat.eqb_spec (timerId t) (nextTimeout st)); [lia|].
  now rewrite orb_false_r.
Qed.

(** C3 (as amended). Closing a handle of a path before the timers fire
    cancels what a write or delete on that path has scheduled for every
    watcher of the path: the run delivers what it would have delivered
    without the write or delete. When no handle is closed before the
    timers fire, every callback registered for the path is called, and
    closing a handle afterwards takes nothing back. *)
Theorem disposal_cancels_pending_notifications
    (cwd : jsstring) (ops : list Op) (path data : jsstring)
    (h : WatchHandle) :
  let st := execAll ops (createVirtualTsSystem cwd) in
  getCanonicalFileName (handlePath h) = fileKey st path ->
  delivered (runTimers (close h (writeFile path data st)))
  = delivered (runTimers (close h st))
  /\ delivered (runTimers (close h (deleteFile path st)))
     = delivered (runTimers (close h st))
  /\ (forall b later,
        In b (watchersOf path st) ->
        In {| receiver := b;
              fileName := normalizePath (toAbsolute st path);
              eventKind := if fileExists path st then Changed else Created |}
           (delivered (close later (runTimers (writeFile path data st)))))
  /\ (forall b later,
        fileExists path st = true ->
        In b (watchersOf path st) ->
        In {| receiver := b;
              fileName := normalizePath (toAbsolute st path);
              eventKind := Deleted |}
           (delivered (close later (runTimers (deleteFile path st))))).
Proof.
  intros st Hkey.
  pose proof (reachable_timersBelowNext cwd ops) as Hbelow.
  fold st in Hbelow.
  split; [|split; [|split]].
  - destruct (writeFile_fields path data st)
      as (_ & _ & Hw & Hd & _ & Hq & Hwt).
    exact (close_cancels_scheduled h _ _ st _ Hbelow Hkey Hw Hd Hq Hwt).
  - destruct (fileExists path st) eqn:Hex.
    + destruct (deleteFile_existing_fields path st Hex)
        as (_ & _ & Hw & Hd & _ & Hq & Hwt).
      exact (close_cancels_scheduled h _ _ st _ Hbelow Hkey Hw Hd Hq Hwt).
    + rewrite (deleteFile_missing_fields path st Hex).
      rewrite !runTimers_delivered, !close_watchers, !close_timerQueue.
      destruct (close_fields h (withVirtualFs
                  (FileMap.delete (virtualFs st)
                     (normalizePath (toAbsolute st path))) st))
        as (_ & _ & -> & _).
      now destruct (close_fields h st) as (_ & _ & -> & _).
  - intros b later Hb.
    destruct (close_fields later (runTimers (writeFile path data st)))
      as (_ & _ & -> & _).
    rewrite runTimers_writeFile. apply in_or_app. right.
    unfold notifications. apply in_map_iff. now exists b.
  - intros b later Hex Hb.
    destruct (close_fields later (runTimers (deleteFile path st)))
      as (_ & _ & -> & _).
    rewrite (runTimers_deleteFile_existing path st Hex).
    apply in_or_app. right.
    unfold notifications. apply in_map_iff. now exists b.
Qed.

(** What [close] leaves registered for the path of its handle: the
    occurrences of the handle's own callback. *)
Lemma close_keeps_only_own_callback (h : WatchHandle) path
    (st : VirtualSystem) :
  getCanonicalFileName (handlePath h) = fileKey st path ->
  watchersOf path (close h st)
  = List.filter (fun w => Nat.eqb w (handleCallback h)) (watchersOf path st).
Proof.
  intros Hkey. unfold watchersOf.
  destruct (close_fields h st) as (Hcd & _).
  rewrite (toAbsolute_same_directory st _ path Hcd).
  rewrite close_watchers. unfold FileMap.get, FileMap.set, fileKey in *.
  rewrite Hkey.
  destruct (watchers st !! _) as [ws|] eqn:E.
  - now rewrite lookup_insert_eq.
  - now rewrite E.
Qed.

End Disposal.

(** ** Runs of the virtual system on a POSIX platform *)

(** C1, at the input on which the code departs from it: two callbacks watch
    one path and the handle of the first is closed. The registry then holds
    the closed callback and not the other one, and a later write is
    announced to the closed callback only. *)
Theorem close_keeps_the_closed_callback :
  let st := @execAll posix twoWatchers (createVirtualTsSystem (u16 "/")) in
  fst (@watchFile posix samplePath 1%nat (createVirtualTsSystem (u16 "/")))
  = firstHandle
  /\ @watchersOf posix samplePath st = [1%nat; 2%nat]
  /\ @watchersOf posix samplePath (@close posix firstHandle st) = [1%nat]
  /\ delivered (@runTimers posix
                  (@writeFile posix samplePath (u16 "x")
                     (@close posix firstHandle st)))
     = [ {| receiver := 1%nat; fileName := samplePath; eventKind := Created |} ].
Proof. vm_compute. repeat split; reflexivity. Qed.

(** C3, counterexample: two callbacks watch a path, the path is written and
    the handle of the first is closed before the timers fire. The second
    callback, whose handle was never closed, is not called. *)
Lemma close_silences_other_watcher :
  let st := @execAll posix twoWatchers (createVirtualTsSystem (u16 "/")) in
  In 2%nat (@watchersOf posix samplePath st)
  /\ delivered (@runTimers posix
                  (@close posix firstHandle
                     (@writeFile posix samplePath (u16 "x") st)))
     = []
  /\ ~ In {| receiver := 2%nat; fileName := samplePath; eventKind := Created |}
         (delivered (@runTimers posix
                       (@close posix firstHandle
                          (@writeFile posix samplePath (u16 "x") st)))).
Proof.
  vm_compute. split; [tauto|]. split; [reflexivity | tauto].
Qed.

(** Witness of C3: the first of two watchers is closed after a write. *)
Lemma disposal_cancels_pending_notifications_witness :
  let st := @execAll posix twoWatchers (createVirtualTsSystem (u16 "/")) in
  @getCanonicalFileName posix (handlePath firstHandle)
  = @fileKey posix st samplePath
  /\ delivered (@runTimers posix
                  (@close posix firstHandle
                     (@writeFile posix samplePath (u16 "x") st)))
     = delivered (@runTimers posix (@close posix firstHandle st)).
Proof.
  split; [reflexivity|].
  exact (proj1 (@disposal_cancels_pending_notifications posix (u16 "/")
                  twoWatchers samplePath (u16 "x") firstHandle eq_refl)).
Defined.

(** Witness of C4: the first write of a watched path. *)
Lemma notification_kinds_witness :
  let st := @execAll posix twoWatchers (createVirtualTsSystem (u16 "/")) in
  @fileExists posix samplePath st = false
  /\ delivered (@runTimers posix (@writeFile posix samplePath (u16 "x") st))
     = delivered (@runTimers posix st)
       ++ @notifications posix st samplePath Created
            (@watchersOf posix samplePath st).
Proof.
  split; [reflexivity|].
  exact (proj1 (@notification_kinds posix samplePath (u16 "x")
                  (@execAll posix twoWatchers (createVirtualTsSystem (u16 "/"))))
           eq_refl).
Defined.

(** Witness of C8: a relative path, read back after unrelated operations. *)
Lemma readFile_after_writeFile_witness :
  Forall (fun op =>
            @touches posix (createVirtualTsSystem (u16 "/w"))
              (@fileKey posix (createVirtualTsSystem (u16 "/w")) (u16 "a.ts"))
              op = false) unrelatedOps
  /\ @readFile posix (u16 "a.ts")
       (@execAll posix unrelatedOps
          (@writeFile posix (u16 "a.ts") (u16 "let a")
             (createVirtualTsSystem (u16 "/w"))))
     = Some (u16 "let a").
Proof.
  assert (Hb : Forall (fun op =>
            @touches posix (createVirtualTsSystem (u16 "/w"))
              (@fileKey posix (createVirtualTsSystem (u16 "/w")) (u16 "a.ts"))
              op = false) unrelatedOps)
    by (repeat constructor).
  split; [exact Hb|].
  exact (@readFile_after_writeFile posix (u16 "a.ts") (u16 "let a")
           (createVirtualTsSystem (u16 "/w")) unrelatedOps Hb).
Defined.

(** C6 on a run: a directory of a stored file exists, and stops existing
    once the file is deleted. *)
Example directoryExists_sample :
  @directoryExists posix (u16 "/src")
    (@execAll posix [OpWriteFile samplePath (u16 "x")]
       (createVirtualTsSystem (u16 "/"))) = true
  /\ @directoryExists posix (u16 "/src")
       (@execAll posix [OpWriteFile samplePath (u16 "x"); OpDeleteFile samplePath]
          (createVirtualTsSystem (u16 "/"))) = false.
Proof. vm_compute. split; reflexivity. Qed.

(** ** [isInGeneratedCode] *)

(** C5, at the input on which the code departs from it: the text has no
    line break after [end], so [indexOf] yields [-1] and
    [substring(end, -1)] is the text before [end]; the function answers
    [true] although no close marker follows [end]. *)
Theorem isInGeneratedCode_without_line_break :
  JS.indexOf unclosedRegion newline 35 = -1
  /\ JS.substring unclosedRegion 35 (-1) = JS.substring unclosedRegion 0 35
  /\ JS.indexOf unclosedRegion ignoreEnd 35 = -1
  /\ isInGeneratedCode unclosedRegion 34 35 = true.
Proof. vm_compute. repeat split; reflexivity. Qed.

(** *** The searches of [isInGeneratedCode] *)

Lemma startsWith_firstn (x r : jsstring) (m : nat) :
  JS.startsWith (firstn m r) x = true
  <-> JS.startsWith r x = true /\ (length x <= m)%nat.
Proof.
  revert r m. induction x as [|c x IH]; intros r m; simpl.
  - split; [intros _; split; [reflexivity | lia] | reflexivity].
  - destruct r as [|d r].
    + rewrite firstn_nil. split; [discriminate | intros [? _]; discriminate].
    + destruct m as [|m]; simpl.
      * split; [discriminate | intros [_ ?]; lia].
      * rewrite !andb_true_iff, IH. split; intros; [split; [tauto | lia]|].
        split; [tauto|]. split; [tauto | lia].
Qed.

Lemma scanBackward_Some (x s : jsstring) (i k : nat) :
  JS.scanBackward x s i = Some k ->
  (k <= i)%nat /\ JS.startsWith (skipn k s) x = true
  /\ forall j, (k < j <= i)%nat -> JS.startsWith (skipn j s) x = false.
Proof.
  induction i as [|i IH]; simpl.
  - destruct (JS.startsWith (skipn 0 s) x) eqn:E; [|discriminate].
    intros [= <-]. split; [lia | split; [exact E | intros; lia]].
  - destruct (JS.startsWith (skipn (S i) s) x) eqn:E.
    + intros [= <-]. split; [lia | split; [exact E | intros; lia]].
    + intros Hk. destruct (IH Hk) as (Hle & Hat & Hno).
      split; [lia | split; [exact Hat|]].
      intros j Hj. destruct (Nat.eq_dec j (S i)) as [->|]; [exact E|].
      apply Hno. lia.
Qed.

Lemma scanBackward_None (x s : jsstring) (i : nat) :
  JS.scanBackward x s i = None ->
  forall j, (j <= i)%nat -> JS.startsWith (skipn j s) x = false.
Proof.
  induction i as [|i IH]; simpl.
  - destruct (JS.startsWith (skipn 0 s) x) eqn:E; [discriminate|].
    intros _ j Hj. now replace j with 0%nat by lia.
  - destruct (JS.startsWith (skipn (S i) s) x) eqn:E; [discriminate|].
    intros Hn j Hj. destruct (Nat.eq_dec j (S i)) as [->|]; [exact E|].
    apply IH; [exact Hn | lia].
Qed.

Lemma scanForward_Some (x rest : jsstring) (k r : nat) :
  JS.scanForward x rest k = Some r ->
  exists d, r = (k + d)%nat /\ (d <= length rest)%nat
            /\ JS.startsWith (skipn d rest) x = true
            /\ forall j, (j < d)%nat -> JS.startsWith (skipn j rest) x = false.
Proof.
  revert k. induction rest as [|c rest IH]; intros k; simpl.
  - destruct (JS.startsWith [] x) eqn:E; [|discriminate].
    intros [= <-]. exists 0%nat.
    split; [lia | split; [simpl; lia | split; [exact E | intros; lia]]].
  - destruct (JS.startsWith (c :: rest) x) eqn:E.
    + intros [= <-]. exists 0%nat.
      split; [lia | split; [simpl; lia | split; [exact E | intros; lia]]].
    + intros Hr. destruct (IH _ Hr) as (d & -> & Hd & Hat & Hno).
      exists (S d). split; [lia | split; [simpl; lia | split; [exact Hat|]]].
      intros [|j] Hj; [exact E|]. apply Hno. lia.
Qed.

(** An occurrence inside [s.substring(from, to)] is an occurrence in [s]
    that ends before [to], and conversely. *)
Lemma startsWith_in_window (s x : jsstring) (from to i : nat) :
  JS.startsWith (skipn i (firstn (to - from) (skipn from s))) x = true
  <-> JS.startsWith (skipn (from + i) s) x = true
      /\ (length x <= to - from - i)%nat.
Proof.
  rewrite skipn_firstn_comm, skipn_skipn, startsWith_firstn.
  now rewrite (Nat.add_comm i from).
Qed.

Lemma startsWith_length (r x : jsstring) :
  JS.startsWith r x = true -> (length x <= length r)%nat.
Proof.
  intros Hs. apply startsWith_inv in Hs as [rest ->].
  rewrite length_app. lia.
Qed.

Lemma substring_window (text : jsstring) (a b : Z) (fa fb : nat) :
  Z.to_nat (JS.clampIndex text a) = fa ->
  Z.to_nat (JS.clampIndex text b) = fb ->
  (fa <= fb)%nat ->
  JS.substring text a b = firstn (fb - fa) (skipn fa text).
Proof.
  intros Ha Hb Hle. unfold JS.substring.
  assert (H0a : 0 <= JS.clampIndex text a) by (unfold JS.clampIndex, JS.len; lia).
  assert (H0b : 0 <= JS.clampIndex text b) by (unfold JS.clampIndex, JS.len; lia).
  f_equal; [|f_equal]; lia.
Qed.

Lemma marker_not_line_break (r : jsstring) :
  JS.startsWith r ignoreStart = true -> JS.startsWith r newline = false.
Proof.
  destruct r as [|d r]; [reflexivity|].
  assert (E : ignoreStart = 47%N :: List.tl ignoreStart) by reflexivity.
  rewrite E. unfold newline. cbn [JS.startsWith].
  destruct (N.eqb_spec 47 d) as [<-|]; [reflexivity | discriminate].
Qed.

(** The first conjunct of [isInGeneratedCode]: an open marker lies before
    [start] on its line, and no close marker lies between the two. *)
Lemma open_marker_before (text : jsstring) (start : Z) :
  let lineStart := JS.lastIndexOfFrom text newline start in
  let before := JS.substring text lineStart start in
  JS.lastIndexOf before ignoreEnd < JS.lastIndexOf before ignoreStart ->
  exists i : nat,
    JS.startsWith (skipn i text) ignoreStart = true
    /\ lineStart <= Z.of_nat i
    /\ Z.of_nat i + JS.len ignoreStart <= start
    /\ (forall q, (i <= q)%nat -> Z.of_nat q < start ->
                  JS.startsWith (skipn q text) newline = false)
    /\ (forall q, (i < q)%nat -> Z.of_nat q + JS.len ignoreEnd <= start ->
                  JS.startsWith (skipn q text) ignoreEnd = false).
Proof.
  intros lineStart before.
  set (cs := Z.to_nat (JS.clampIndex text start)).
  assert (Hcs : (cs <= length text)%nat)
    by (subst cs; unfold JS.clampIndex, JS.len; lia).
  set (from := Z.to_nat (JS.clampIndex text lineStart)).
  (* where the line starts *)
  assert (Hline : (from <= cs)%nat
                  /\ lineStart <= Z.of_nat from
                  /\ (forall j, (from <= j <= cs)%nat ->
                        JS.startsWith (skipn j text) newline = true ->
                        j = from /\ lineStart = Z.of_nat from)).
  { subst from lineStart. unfold JS.lastIndexOfFrom. fold cs.
    destruct (JS.scanBackward newline text cs) as [k|] eqn:Hk.
    - apply scanBackward_Some in Hk as (Hle & _ & Hno).
      replace (Z.to_nat (JS.clampIndex text (Z.of_nat k))) with k
        by (unfold JS.clampIndex, JS.len; lia).
      split; [exact Hle|]. split; [lia|].
      intros j Hj Hnl. destruct (Nat.eq_dec j k) as [->|Hne]; [now split|].
      rewrite Hno in Hnl by lia. discriminate.
    - pose proof (scanBackward_None _ _ _ Hk) as Hno.
      replace (Z.to_nat (JS.clampIndex text (-1))) with 0%nat
        by (unfold JS.clampIndex, JS.len; lia).
      split; [lia|]. split; [lia|].
      intros j Hj Hnl. rewrite Hno in Hnl by lia. discriminate. }
  destruct Hline as (Hfrom & Hls & Hnl).
  assert (Hbefore : before = firstn (cs - from) (skipn from text))
    by (subst before; now apply substring_window).
  assert (Hlen : length before = (cs - from)%nat).
  { rewrite Hbefore, length_firstn, length_skipn. lia. }
  unfold JS.lastIndexOf, JS.lastIndexOfFrom.
  replace (Z.to_nat (JS.clampIndex before (JS.len before)))
    with (length before) by (unfold JS.clampIndex, JS.len; lia).
  destruct (JS.scanBackward ignoreStart before (length before)) as [i|] eqn:Hi.
  2:{ destruct (JS.scanBackward ignoreEnd before (length before)); lia. }
  intros Hlt.
  apply scanBackward_Some in Hi as (_ & Hopen & _).
  rewrite Hbefore in Hopen. apply startsWith_in_window in Hopen as [Hopen Hfit].
  change (length ignoreStart) with 18%nat in Hfit.
  assert (Hstart : Z.of_nat cs <= start)
    by (subst cs; unfold JS.clampIndex, JS.len in *; lia).
  exists (from + i)%nat. split; [exact Hopen|]. split; [lia|].
  split; [change (JS.len ignoreStart) with 18; lia|]. split.
  - intros q Hq Hqs.
    destruct (JS.startsWith (skipn q text) newline) eqn:Eq; [|reflexivity].
    exfalso.
    assert (Hqcs : (q <= cs)%nat).
    { apply startsWith_length in Eq. rewrite length_skipn in Eq.
      simpl in Eq. subst cs. unfold JS.clampIndex, JS.len. lia. }
    destruct (Hnl q ltac:(lia) Eq) as [-> _].
    assert (i = 0%nat) by lia. subst i.
    rewrite Nat.add_0_r in Hopen.
    apply marker_not_line_break in Hopen. congruence.
  - intros q Hq Hqs.
    destruct (JS.startsWith (skipn q text) ignoreEnd) eqn:Eq; [|reflexivity].
    exfalso.
    pose proof (startsWith_length _ _ Eq) as Hql.
    rewrite length_skipn in Hql.
    change (length ignoreEnd) with 16%nat in Hql.
    change (JS.len ignoreEnd) with 16 in Hqs.
    assert (Hqcs : (q + 16 <= cs)%nat)
      by (subst cs; unfold JS.clampIndex, JS.len; lia).
    assert (Hin : JS.startsWith (skipn (q - from) before) ignoreEnd = true).
    { rewrite Hbefore. apply startsWith_in_window.
      replace (from + (q - from))%nat with q by lia.
      split; [exact Eq|]. change (length ignoreEnd) with 16%nat. lia. }
    destruct (JS.scanBackward ignoreEnd before (length before)) as [j|] eqn:Hj.
    + apply scanBackward_Some in Hj as (_ & _ & Hno).
      rewrite Hno in Hin by lia. discriminate.
    + rewrite (scanBackward_None _ _ _ Hj) in Hin by lia. discriminate.
Qed.

(** The second conjunct of [isInGeneratedCode], when a line break follows
    [end]: a close marker lies between [end] and that line break. *)
Lemma close_marker_after (text : jsstring) (end_ : Z) :
  let lineEnd := JS.indexOf text newline end_ in
  0 <= lineEnd ->
  JS.includes (JS.substring text end_ lineEnd) ignoreEnd = true ->
  exists c : nat,
    JS.startsWith (skipn c text) ignoreEnd = true
    /\ end_ <= Z.of_nat c
    /\ Z.of_nat c + JS.len ignoreEnd <= lineEnd
    /\ (forall q, end_ <= Z.of_nat q -> Z.of_nat q < lineEnd ->
                  JS.startsWith (skipn q text) newline = false).
Proof.
  intros lineEnd. subst lineEnd. unfold JS.indexOf at 1 2 3 4.
  set (ce := Z.to_nat (JS.clampIndex text end_)).
  destruct (JS.scanForward newline (skipn ce text) ce) as [r|] eqn:Hr; [|lia].
  intros _.
  apply scanForward_Some in Hr as (d & -> & Hd & Hat & Hno).
  rewrite length_skipn in Hd.
  (* a line break at [ce + d]: [end] lies inside the text *)
  assert (Hinside : (ce + d < length text)%nat).
  { apply startsWith_length in Hat. rewrite !length_skipn in Hat.
    simpl in Hat. lia. }
  assert (Hce : end_ <= Z.of_nat ce)
    by (subst ce; unfold JS.clampIndex, JS.len in *; lia).
  assert (Hce' : forall q, end_ <= Z.of_nat q -> (ce <= q)%nat)
    by (intros q Hq; subst ce; unfold JS.clampIndex, JS.len in *; lia).
  rewrite (substring_window text end_ (Z.of_nat (ce + d)) ce (ce + d));
    [|reflexivity | unfold JS.clampIndex, JS.len; lia | lia].
  unfold JS.includes, JS.indexOf.
  set (after := firstn (ce + d - ce) (skipn ce text)).
  replace (Z.to_nat (JS.clampIndex after 0)) with 0%nat
    by (unfold JS.clampIndex, JS.len; lia).
  change (skipn 0 after) with after.
  destruct (JS.scanForward ignoreEnd after 0) as [c|] eqn:Hc;
    [|cbn; discriminate].
  intros _.
  apply scanForward_Some in Hc as (c' & -> & _ & Hclose & _).
  subst after. apply startsWith_in_window in Hclose as [Hclose Hfit].
  change (length ignoreEnd) with 16%nat in Hfit.
  exists (ce + c')%nat. split; [exact Hclose|]. split; [lia|].
  split; [change (JS.len ignoreEnd) with 16; lia|].
  intros q Hq Hql. specialize (Hce' q Hq).
  specialize (Hno (q - ce)%nat ltac:(lia)).
  rewrite skipn_skipn in Hno.
  now replace (q - ce + ce)%nat with q in Hno by lia.
Qed.

(** C5, away from the failing case: whenever a line break follows [end],
    a [true] answer means what the claim says. An open marker lies before
    [start] on its line with no close marker between it and [start], and a
    close marker lies between [end] and the end of its line. *)
Lemma isInGeneratedCode_with_line_break (text : jsstring) (start end_ : Z) :
  let lineStart := JS.lastIndexOfFrom text newline start in
  let lineEnd := JS.indexOf text newline end_ in
  0 <= lineEnd ->
  isInGeneratedCode text start end_ = true ->
  (exists i : nat,
     JS.startsWith (skipn i text) ignoreStart = true
     /\ lineStart <= Z.of_nat i
     /\ Z.of_nat i + JS.len ignoreStart <= start
     /\ (forall q, (i <= q)%nat -> Z.of_nat q < start ->
                   JS.startsWith (skipn q text) newline = false)
     /\ (forall q, (i < q)%nat -> Z.of_nat q + JS.len ignoreEnd <= start ->
                   JS.startsWith (skipn q text) ignoreEnd = false))
  /\ (exists c : nat,
        JS.startsWith (skipn c text) ignoreEnd = true
        /\ end_ <= Z.of_nat c
        /\ Z.of_nat c + JS.len ignoreEnd <= lineEnd
        /\ (forall q, end_ <= Z.of_nat q -> Z.of_nat q < lineEnd ->
                      JS.startsWith (skipn q text) newline = false)).
Proof.
  intros lineStart lineEnd Hbreak. unfold isInGeneratedCode.
  fold lineStart lineEnd. intros Hres.
  apply andb_prop in Hres as [Hopen Hclose].
  apply Z.ltb_lt in Hopen. split.
  - now apply open_marker_before.
  - now apply close_marker_after.
Qed.

(** On a line that a line break ends, a generated region is recognised. *)
Example isInGeneratedCode_sample :
  isInGeneratedCode (ignoreStart ++ u16 "abc" ++ ignoreEnd ++ newline) 18 21
  = true
  /\ isInGeneratedCode (u16 "let a = 1;" ++ newline) 4 5 = false.
Proof. vm_compute. split; reflexivity. Qed.

(** ** Further properties of the virtual system *)

Section Tables.
Context `{Platform}.

Lemma clearTimeouts_times (ids : list nat) (st : VirtualSystem) :
  let st' := fold_left (fun s timeout => clearTimeout timeout s) ids st in
  modifiedTime st' = modifiedTime st /\ clock st' = clock st.
Proof.
  revert st. induction ids as [|id ids IH]; intros st; simpl; [tauto|].
  destruct (IH (clearTimeout id st)) as [-> ->]. split; reflexivity.
Qed.

Lemma close_times (h : WatchHandle) (st : VirtualSystem) :
  modifiedTime (close h st) = modifiedTime st
  /\ clock (close h st) = clock st
  /\ watchTimeout (close h st) = watchTimeout st.
Proof.
  unfold close.
  set (st1 := match FileMap.get (watchers st) (handlePath h) with
              | Some _ => _ | None => st end).
  assert (E : modifiedTime st1 = modifiedTime st /\ clock st1 = clock st
              /\ watchTimeout st1 = watchTimeout st)
    by (subst st1; destruct (FileMap.get (watchers st) _);
        repeat split; reflexivity).
  destruct E as (E1 & E2 & E3).
  destruct (FileMap.get (watchTimeout st1) (handlePath h)) as [ids|];
    [|tauto].
  destruct (clearTimeouts_times ids st1) as [-> ->].
  destruct (clearTimeouts_fields ids st1) as (_ & _ & _ & -> & _).
  tauto.
Qed.

Lemma fireTimer_fields (st : VirtualSystem) :
  currentDirectory (fireTimer st) = currentDirectory st
  /\ virtualFs (fireTimer st) = virtualFs st
  /\ watchers (fireTimer st) = watchers st
  /\ watchTimeout (fireTimer st) = watchTimeout st
  /\ modifiedTime (fireTimer st) = modifiedTime st
  /\ clock (fireTimer st) = clock st
  /\ nextTimeout (fireTimer st) = nextTimeout st
  /\ timerQueue (fireTimer st) = List.tl (timerQueue st).
Proof.
  unfold fireTimer. destruct (timerQueue st) as [|t q] eqn:Hq.
  - rewrite Hq. repeat split; reflexivity.
  - unfold notify.
    destruct (FileMap.get (watchers (withTimers (nextTimeout st) q st))
                (timerPath t)); repeat split; reflexivity.
Qed.

(** The modification times change with a write only. *)
Lemma exec_modifiedTime (st : VirtualSystem) op :
  modifiedTime (exec st op)
  = match op with
    | OpWriteFile path _ =>
        FileMap.set (modifiedTime st) (normalizePath (toAbsolute st path))
          (clock st)
    | _ => modifiedTime st
    end.
Proof.
  destruct op as [p d|p|p c|h| |dt]; cbn [exec]; try reflexivity.
  - unfold deleteFile.
    destruct (FileMap.has (virtualFs st) _); reflexivity.
  - now destruct (close_times h st) as (-> & _).
  - now destruct (fireTimer_fields st) as (_ & _ & _ & _ & -> & _).
Qed.

(** No operation of the virtual system sets the clock. *)
Lemma exec_clock (st : VirtualSystem) op :
  clock (exec st op)
  = match op with
    | OpElapse dt => clock st + dt
    | _ => clock st
    end.
Proof.
  destruct op as [p d|p|p c|h| |dt]; cbn [exec]; try reflexivity.
  - unfold deleteFile.
    destruct (FileMap.has (virtualFs st) _); reflexivity.
  - now destruct (close_times h st) as (_ & -> & _).
  - now destruct (fireTimer_fields st) as (_ & _ & _ & _ & _ & -> & _).
Qed.

Lemma exec_delivered_quiet (st : VirtualSystem) op :
  isFireTimer op = false -> delivered (exec st op) = delivered st.
Proof.
  destruct op as [p d|p|p c|h| |dt]; cbn [exec isFireTimer];
    try reflexivity; try discriminate; intros _.
  - unfold deleteFile.
    destruct (FileMap.has (virtualFs st) _); reflexivity.
  - now destruct (close_fields h st) as (_ & _ & -> & _).
Qed.

Lemma fireTimer_delivered (st : VirtualSystem) :
  delivered (fireTimer st)
  = delivered st
    ++ match timerQueue st with
       | [] => []
       | t :: _ => callsOf (watchers st) t
       end.
Proof.
  unfold fireTimer. destruct (timerQueue st) as [|t q].
  - now rewrite app_nil_r.
  - now destruct (notify_fields t (withTimers (nextTimeout st) q st))
      as (_ & _ & _ & _ & _ & _ & ->).
Qed.

End Tables.

Section FileTables.
Context `{Platform}.

(** Whatever has a modification time was written at some point. *)
Lemma timestamp_was_written cwd ops key t :
  modifiedTime (execAll ops (createVirtualTsSystem cwd)) !! key = Some t ->
  exists path data,
    In (OpWriteFile path data) ops
    /\ fileKey (createVirtualTsSystem cwd) path = key.
Proof.
  revert key t. induction ops as [|op ops IH] using rev_ind; intros key t.
  - cbn. now rewrite lookup_empty.
  - rewrite execAll_snoc, exec_modifiedTime.
    set (st := execAll ops (createVirtualTsSystem cwd)) in *.
    assert (Hcd : currentDirectory st
                  = currentDirectory (createVirtualTsSystem cwd))
      by apply execAll_currentDirectory.
    assert (Hold : modifiedTime st !! key = Some t ->
                   exists path data,
                     In (OpWriteFile path data) (ops ++ [op])
                     /\ fileKey (createVirtualTsSystem cwd) path = key).
    { intros Hl. destruct (IH key t Hl) as (p & d & Hin & Hk).
      exists p, d. split; [|exact Hk]. apply in_or_app. now left. }
    destruct op as [p d|p|p c|h| |dt]; try exact Hold.
    unfold FileMap.set. rewrite lookup_insert.
    destruct (decide (getCanonicalFileName (normalizePath (toAbsolute st p))
                      = key)) as [Hk|Hk]; [|exact Hold].
    intros _. exists p, d. split.
    + apply in_or_app. right. now left.
    + rewrite <- Hk. symmetry. now apply fileKey_same_directory.
Qed.

(** X1. A path that no [writeFile] of the run has stored under its key does
    not exist: [fileExists] is false, [readFile] and [getModifiedTime]
    return nothing, whatever else happened in the run. *)
Theorem never_written_is_absent
    (cwd : jsstring) (ops : list Op) (path : jsstring) :
  let st0 := createVirtualTsSystem cwd in
  let st := execAll ops st0 in
  (forall q data, In (OpWriteFile q data) ops ->
                  fileKey st0 q <> fileKey st0 path) ->
  fileExists path st = false
  /\ readFile path st = None
  /\ getModifiedTime path st = None.
Proof.
  intros st0 st Hnot.
  assert (Hcd : currentDirectory st = currentDirectory st0)
    by apply execAll_currentDirectory.
  assert (Hfs : virtualFs st !! fileKey st0 path = None).
  { destruct (virtualFs st !! fileKey st0 path) as [v|] eqn:E; [|reflexivity].
    destruct (stored_was_written cwd ops _ v E) as (q & Hin & Hk).
    now destruct (Hnot q v Hin). }
  assert (Hmt : modifiedTime st !! fileKey st0 path = None).
  { destruct (modifiedTime st !! fileKey st0 path) as [t|] eqn:E;
      [|reflexivity].
    destruct (timestamp_was_written cwd ops _ t E) as (q & d & Hin & Hk).
    now destruct (Hnot q d Hin). }
  unfold fileExists, readFile, getModifiedTime, FileMap.has, FileMap.get.
  rewrite (toAbsolute_same_directory st0 st path Hcd).
  unfold fileKey in Hfs, Hmt. rewrite Hfs, Hmt. repeat split.
Qed.

(** Along a run every stored file has a modification time. *)
Lemma reachable_times cwd ops :
  let st := execAll ops (createVirtualTsSystem cwd) in
  forall key v, virtualFs st !! key = Some v ->
                is_Some (modifiedTime st !! key).
Proof.
  induction ops as [|op ops IH] using rev_ind.
  - intros key v; cbn; now rewrite lookup_empty.
  - cbv zeta in *. rewrite execAll_snoc.
    set (st := execAll ops (createVirtualTsSystem cwd)) in *.
    rewrite exec_virtualFs, exec_modifiedTime.
    destruct op as [p d|p|p c|h| |dt]; try assumption.
    + intros key v; unfold FileMap.set; rewrite !lookup_insert;
        destruct (decide (_ = key)); eauto.
    + intros key v. unfold FileMap.delete.
      rewrite lookup_delete. destruct (decide (_ = key)); [discriminate|].
      apply IH.
Qed.

(** X2. Along a run, every file that exists has a modification time:
    [getModifiedTime] is defined wherever [fileExists] holds. *)
Theorem existing_file_has_modified_time
    (cwd : jsstring) (ops : list Op) (path : jsstring) :
  let st := execAll ops (createVirtualTsSystem cwd) in
  fileExists path st = true ->
  exists t, getModifiedTime path st = Some t.
Proof.
  intros st. pose proof (reachable_times cwd ops) as Hfs. fold st in Hfs.
  unfold fileExists, getModifiedTime, FileMap.has, FileMap.get.
  destruct (virtualFs st !! _) as [v|] eqn:E; [|discriminate].
  intros _. exact (Hfs _ v E).
Qed.

(** An operation that does not write the file stored under [key] leaves
    its modification time alone. *)
Lemma exec_modifiedTime_unwritten (st0 st : VirtualSystem) key op :
  currentDirectory st = currentDirectory st0 ->
  writes st0 key op = false ->
  modifiedTime (exec st op) !! key = modifiedTime st !! key.
Proof.
  intros Hcd Hw. rewrite exec_modifiedTime.
  destruct op as [p d|p|p c|h| |dt]; try reflexivity.
  cbn [writes] in Hw. unfold FileMap.set.
  rewrite lookup_insert_ne; [reflexivity|].
  intros E. rewrite <- (fileKey_same_directory st0 st p Hcd) in Hw.
  unfold fileKey in Hw. rewrite E, sameUnits_refl in Hw. discriminate.
Qed.

(** X3. [getModifiedTime] returns the time of the last write of the path:
    the clock at that write, kept through everything that is not a write
    of the same file, the deletion of the file included. *)
Theorem getModifiedTime_after_writeFile
    (path data : jsstring) (st : VirtualSystem) (between : list Op) :
  Forall (fun op => writes st (fileKey st path) op = false) between ->
  getModifiedTime path (execAll between (writeFile path data st))
  = Some (clock st).
Proof.
  intros Hb.
  assert (Hcd0 : currentDirectory (writeFile path data st)
                 = currentDirectory st)
    by now destruct (writeFile_fields path data st) as (-> & _).
  assert (Hstart : modifiedTime (writeFile path data st) !! fileKey st path
                   = Some (clock st)).
  { change (writeFile path data st) with (exec st (OpWriteFile path data)).
    rewrite exec_modifiedTime. unfold FileMap.set, fileKey.
    now rewrite lookup_insert_eq. }
  assert (Hkey : modifiedTime (execAll between (writeFile path data st))
                   !! fileKey st path = Some (clock st)).
  { revert Hcd0 Hstart. generalize (writeFile path data st) as s.
    induction Hb as [|op ops Hop _ IH]; intros s Hcd Hstart; simpl;
      [exact Hstart|].
    apply IH.
    - now rewrite exec_currentDirectory.
    - now rewrite (exec_modifiedTime_unwritten st s _ op Hcd Hop). }
  unfold getModifiedTime, FileMap.get.
  rewrite (toAbsolute_same_directory st _ path); [exact Hkey|].
  now rewrite execAll_currentDirectory.
Qed.

(** X4. [deleteFile] removes the one file: the path reads as absent
    afterwards, every file stored under another key reads as before, and
    no modification time is dropped, that of the deleted file included. *)
Theorem deleteFile_removes_one_file (path : jsstring) (st : VirtualSystem) :
  readFile path (deleteFile path st) = None
  /\ (forall other, fileKey st other <> fileKey st path ->
        readFile other (deleteFile path st) = readFile other st)
  /\ (forall q, getModifiedTime q (deleteFile path st)
                = getModifiedTime q st).
Proof.
  assert (Hcd : currentDirectory (deleteFile path st) = currentDirectory st)
    by apply (exec_currentDirectory st (OpDeleteFile path)).
  pose proof (exec_virtualFs st (OpDeleteFile path)) as Hfs.
  pose proof (exec_modifiedTime st (OpDeleteFile path)) as Hmt.
  cbn [exec] in Hfs, Hmt.
  split; [|split].
  - unfold readFile, FileMap.get.
    rewrite (toAbsolute_same_directory st _ path Hcd), Hfs.
    unfold FileMap.delete. apply lookup_delete_eq.
  - intros other Hne. unfold readFile, FileMap.get.
    rewrite (toAbsolute_same_directory st _ other Hcd), Hfs.
    unfold FileMap.delete. apply lookup_delete_ne.
    unfold fileKey in Hne. congruence.
  - intros q. unfold getModifiedTime.
    now rewrite (toAbsolute_same_directory st _ q Hcd), Hmt.
Qed.

(** X5. A relative path and the absolute path it stands for name the same
    file: what is written under one is read back under the other. *)
Theorem relative_and_absolute_path_agree
    (path data : jsstring) (st : VirtualSystem) :
  isAbsolute path = false ->
  isAbsolute (join (currentDirectory st) path) = true ->
  readFile (join (currentDirectory st) path) (writeFile path data st)
  = Some data
  /\ readFile path (writeFile (join (currentDirectory st) path) data st)
     = Some data.
Proof.
  intros Hrel Habs.
  assert (Hsame : forall s, currentDirectory s = currentDirectory st ->
            toAbsolute s (join (currentDirectory st) path)
            = toAbsolute s path).
  { intros s Hs. unfold toAbsolute. now rewrite Habs, Hrel, Hs. }
  split.
  - destruct (writeFile_fields path data st) as (Hcd & Hfs & _).
    unfold readFile, FileMap.get. rewrite (Hsame _ Hcd), Hfs.
    rewrite (toAbsolute_same_directory st _ path Hcd).
    unfold FileMap.set. apply lookup_insert_eq.
  - destruct (writeFile_fields (join (currentDirectory st) path) data st)
      as (Hcd & Hfs & _).
    unfold readFile, FileMap.get. rewrite Hfs, (Hsame st eq_refl).
    rewrite (toAbsolute_same_directory st _ path Hcd).
    unfold FileMap.set. apply lookup_insert_eq.
Qed.

Lemma startsWith_shorter (s x rest : jsstring) :
  JS.startsWith s (x ++ rest) = true -> JS.startsWith s x = true.
Proof.
  intros Hs. apply startsWith_inv in Hs as [r ->].
  rewrite <- app_assoc. apply startsWith_app.
Qed.

(** X6. Directories are prefixes of stored keys and nothing else: a file
    that exists is reported as a directory under its own path; with a
    directory every path whose key is a prefix of its key is one too; and
    a system without files has no directory at all. *)
Theorem directoryExists_prefix_closed (d : jsstring) (st : VirtualSystem) :
  (fileExists d st = true -> directoryExists d st = true)
  /\ (forall shorter rest,
        directoryExists d st = true ->
        fileKey st d = fileKey st shorter ++ rest ->
        directoryExists shorter st = true)
  /\ (virtualFs st = ∅ -> directoryExists d st = false).
Proof.
  split; [|split].
  - unfold fileExists, directoryExists, FileMap.has.
    destruct (virtualFs st !! _) as [v|] eqn:E; [|discriminate].
    intros _. apply existsb_exists.
    exists (getCanonicalFileName (normalizePath (toAbsolute st d))). split.
    + apply in_keys. now exists v.
    + rewrite <- (app_nil_r (getCanonicalFileName _)) at 1.
      apply startsWith_app.
  - intros shorter rest Hd Hk. unfold directoryExists in *.
    apply existsb_exists in Hd as (key & Hin & Hpre).
    apply existsb_exists. exists key. split; [exact Hin|].
    unfold fileKey in Hk. rewrite Hk in Hpre.
    now apply startsWith_shorter in Hpre.
  - intros Hempty. unfold directoryExists, FileMap.keys.
    now rewrite Hempty, map_to_list_empty.
Qed.

End FileTables.

Lemma VirtualSystem_eq (a b : VirtualSystem) :
  currentDirectory a = currentDirectory b ->
  virtualFs a = virtualFs b ->
  watchers a = watchers b ->
  watchTimeout a = watchTimeout b ->
  modifiedTime a = modifiedTime b ->
  clock a = clock b ->
  nextTimeout a = nextTimeout b ->
  timerQueue a = timerQueue b ->
  delivered a = delivered b ->
  a = b.
Proof. destruct a, b; simpl; intros; subst; reflexivity. Qed.

Lemma filter_twice {A} (f : A -> bool) (l : list A) :
  List.filter f (List.filter f l) = List.filter f l.
Proof.
  apply filter_keeps_all. intros x Hx. now apply filter_In in Hx.
Qed.

Section WatchersAndTimers.
Context `{Platform}.

(** X7. [watchFile] puts the callback behind those already registered for
    the path, a callback registered before included; it leaves the
    registrations of other files, the file table, the pending timers and
    the log of calls as they are. *)
Theorem watchFile_registers_last
    (path : jsstring) (callback : Callback) (st : VirtualSystem) :
  let st' := snd (watchFile path callback st) in
  watchersOf path st' = watchersOf path st ++ [callback]
  /\ (forall other, fileKey st other <> fileKey st path ->
        watchersOf other st' = watchersOf other st)
  /\ virtualFs st' = virtualFs st
  /\ timerQueue st' = timerQueue st
  /\ delivered st' = delivered st.
Proof.
  cbn [watchFile snd]. split; [|split; [|repeat split]].
  - unfold watchersOf, FileMap.get, FileMap.set. cbn [watchers withWatchers].
    change (toAbsolute (withWatchers _ st) path) with (toAbsolute st path).
    now rewrite lookup_insert_eq.
  - intros other Hne. unfold watchersOf, FileMap.get, FileMap.set.
    cbn [watchers withWatchers].
    change (toAbsolute (withWatchers _ st) other) with (toAbsolute st other).
    rewrite lookup_insert_ne; [reflexivity|].
    unfold fileKey in Hne. congruence.
Qed.

(** X8. Closing a handle a second time changes nothing. *)
Theorem close_twice (h : WatchHandle) (st : VirtualSystem) :
  close h (close h st) = close h st.
Proof.
  destruct (close_fields h (close h st)) as (E1 & E2 & E3 & E4).
  destruct (close_times h (close h st)) as (E5 & E6 & E7).
  destruct (close_times h st) as (_ & _ & Hwt).
  apply VirtualSystem_eq; try assumption.
  - rewrite close_watchers. rewrite (close_watchers h st).
    unfold FileMap.get, FileMap.set.
    destruct (watchers st !! getCanonicalFileName (handlePath h))
      as [ws|] eqn:E.
    + rewrite lookup_insert_eq, insert_insert_eq. now rewrite filter_twice.
    + now rewrite E.
  - rewrite close_timerQueue, Hwt, (close_timerQueue h st).
    apply filter_twice.
Qed.

Lemma withTimers_empty_queue (st : VirtualSystem) :
  timerQueue st = [] -> withTimers (nextTimeout st) [] st = st.
Proof. destruct st; simpl; now intros ->. Qed.

Lemma runTimers_queue (st : VirtualSystem) : timerQueue (runTimers st) = [].
Proof.
  unfold runTimers.
  now destruct (notifyAll_fields (timerQueue st)
                  (withTimers (nextTimeout st) [] st)) as (_ & _ & _ & -> & _).
Qed.

Lemma runTimers_fireTimer (st : VirtualSystem) :
  runTimers (fireTimer st) = runTimers st.
Proof.
  unfold fireTimer, runTimers at 2.
  destruct (timerQueue st) as [|t q] eqn:Hq.
  - unfold runTimers. now rewrite Hq.
  - unfold runTimers. cbn [fold_left].
    assert (Hn : timerQueue (notify t (withTimers (nextTimeout st) q st)) = q
                 /\ withTimers
                      (nextTimeout (notify t (withTimers (nextTimeout st) q st)))
                      [] (notify t (withTimers (nextTimeout st) q st))
                    = notify t (withTimers (nextTimeout st) [] st)).
    { unfold notify. cbn [watchers withTimers].
      destruct (FileMap.get (watchers st) (timerPath t)); split; reflexivity. }
    destruct Hn as [-> ->]. reflexivity.
Qed.

(** X9. [runTimers] leaves no timer pending, so that running the timers
    again delivers nothing more; and it is what as many single turns of
    the event loop as there are pending timers amount to. *)
Theorem runTimers_drains_queue (st : VirtualSystem) :
  timerQueue (runTimers st) = []
  /\ runTimers (runTimers st) = runTimers st
  /\ fireTimers (length (timerQueue st)) st = runTimers st.
Proof.
  split; [apply runTimers_queue|]. split.
  - unfold runTimers at 1. rewrite runTimers_queue. cbn [fold_left].
    apply withTimers_empty_queue, runTimers_queue.
  - unfold fireTimers.
    remember (length (timerQueue st)) as n eqn:Hn. revert st Hn.
    induction n as [|n IH]; intros st Hn.
    + cbn. unfold runTimers.
      destruct (timerQueue st) eqn:Hq; [|discriminate]. cbn.
      symmetry. now apply withTimers_empty_queue.
    + rewrite Nat.iter_succ_r, IH; [apply runTimers_fireTimer|].
      destruct (fireTimer_fields st) as (_ & _ & _ & _ & _ & _ & _ & ->).
      destruct (timerQueue st); [discriminate|]. cbn in *. lia.
Qed.

(** X10. Callbacks are called from timers only: a run without a turn of
    the event loop calls none, whatever it writes, deletes, watches or
    closes; and no operation takes back a call that was made. *)
Theorem callbacks_run_only_from_timers (ops : list Op) (st : VirtualSystem) :
  (exists more, delivered (execAll ops st) = delivered st ++ more)
  /\ (Forall (fun op => isFireTimer op = false) ops ->
      delivered (execAll ops st) = delivered st).
Proof.
  split.
  - unfold execAll. revert st.
    induction ops as [|op ops IH]; intros st; cbn [fold_left].
    + exists []. now rewrite app_nil_r.
    + destruct (IH (exec st op)) as [more ->].
      destruct (isFireTimer op) eqn:Hop.
      * destruct op; try discriminate. cbn [exec].
        rewrite fireTimer_delivered, <- app_assoc. eauto.
      * rewrite (exec_delivered_quiet st op Hop). eauto.
  - unfold execAll. intros Hq. revert st.
    induction Hq as [|op ops Hop _ IH]; intros st; cbn [fold_left];
      [reflexivity|].
    now rewrite IH, exec_delivered_quiet.
Qed.

(** X11. [getCurrentDirectory] returns the directory the system was
    created with, at every point of every run. *)
Theorem getCurrentDirectory_constant (cwd : jsstring) (ops : list Op) :
  getCurrentDirectory (execAll ops (createVirtualTsSystem cwd)) = cwd.
Proof. unfold getCurrentDirectory. now rewrite execAll_currentDirectory. Qed.

(** X12. A notification goes to the callbacks registered when its timer
    fires, not when it was scheduled: a callback that starts to watch the
    path after the write and before the timers run is called as well. *)
Theorem late_watcher_is_notified
    (path data : jsstring) (callback : Callback) (st : VirtualSystem) :
  In {| receiver := callback;
        fileName := normalizePath (toAbsolute st path);
        eventKind := if fileExists path st then Changed else Created |}
     (delivered
        (runTimers (snd (watchFile path callback (writeFile path data st))))).
Proof.
  rewrite runTimers_delivered. apply in_or_app. right.
  destruct (writeFile_fields path data st) as (Hcd & _ & Hw & _ & _ & Hq & _).
  cbn [watchFile snd timerQueue withWatchers watchers].
  rewrite Hq, Hw, (toAbsolute_same_directory st _ path Hcd).
  rewrite flat_map_app. apply in_or_app. right. cbn [flat_map].
  rewrite app_nil_r. unfold callsOf, FileMap.get, FileMap.set.
  cbn [timerPath timerKind]. rewrite lookup_insert_eq.
  apply in_map_iff. exists callback. split; [reflexivity|].
  apply in_or_app. right. now left.
Qed.

Lemma exec_timeoutsBelowNext (st : VirtualSystem) op :
  timeoutsBelowNext st -> timeoutsBelowNext (exec st op).
Proof.
  unfold timeoutsBelowNext. intros Hst.
  assert (Htrig : forall X np,
            nextTimeout X = S (nextTimeout st) ->
            watchTimeout X
            = FileMap.set (watchTimeout st) np
                (default [] (FileMap.get (watchTimeout st) np)
                 ++ [nextTimeout st]) ->
            forall key ids, watchTimeout X !! key = Some ids ->
              Forall (fun id => (id < nextTimeout X)%nat) ids).
  { intros X np -> -> key ids. unfold FileMap.set, FileMap.get.
    rewrite lookup_insert.
    destruct (decide (getCanonicalFileName np = key)) as [<-|Hne].
    - intros [= <-]. apply Forall_app. split.
      + destruct (watchTimeout st !! getCanonicalFileName np) as [old|] eqn:E;
          [|constructor].
        eapply Forall_impl; [exact (Hst _ _ E)|]. simpl. intros; lia.
      + constructor; [lia | constructor].
    - intros E. eapply Forall_impl; [exact (Hst _ _ E)|]. simpl. intros; lia. }
  destruct op as [p d|p|p c|h| |dt]; cbn [exec].
  - destruct (writeFile_fields p d st) as (_ & _ & _ & _ & Hn & _ & Hwt).
    exact (Htrig _ _ Hn Hwt).
  - destruct (fileExists p st) eqn:Hex.
    + destruct (deleteFile_existing_fields p st Hex)
        as (_ & _ & _ & _ & Hn & _ & Hwt).
      exact (Htrig _ _ Hn Hwt).
    + now rewrite (deleteFile_missing_fields p st Hex).
  - exact Hst.
  - destruct (close_times h st) as (_ & _ & ->).
    now destruct (close_fields h st) as (_ & _ & _ & ->).
  - now destruct (fireTimer_fields st) as (_ & _ & _ & -> & _ & _ & -> & _).
  - exact Hst.
Qed.

Lemma reachable_timeoutsBelowNext cwd ops :
  timeoutsBelowNext (execAll ops (createVirtualTsSystem cwd)).
Proof.
  induction ops as [|op ops IH] using rev_ind.
  - intros key ids. cbn. now rewrite lookup_empty.
  - rewrite execAll_snoc. now apply exec_timeoutsBelowNext.
Qed.

(** X13. Closing a handle cancels nothing of another file: a write of a
    file stored under another key, scheduled before the handle is closed,
    still reaches every callback that watches that file. *)
Theorem close_spares_other_files
    (cwd : jsstring) (ops : list Op) (path data : jsstring)
    (h : WatchHandle) (b : Callback) :
  let st := execAll ops (createVirtualTsSystem cwd) in
  fileKey st path <> getCanonicalFileName (handlePath h) ->
  In b (watchersOf path st) ->
  In {| receiver := b;
        fileName := normalizePath (toAbsolute st path);
        eventKind := if fileExists path st then Changed else Created |}
     (delivered (runTimers (close h (writeFile path data st)))).
Proof.
  intros st Hne Hb.
  pose proof (reachable_timeoutsBelowNext cwd ops) as Hbelow. fold st in Hbelow.
  destruct (writeFile_fields path data st) as (_ & _ & Hw & _ & _ & Hq & Hwt).
  set (t := {| timerId := nextTimeout st;
               timerPath := normalizePath (toAbsolute st path);
               timerKind := if fileExists path st then Changed else Created |})
    in *.
  rewrite runTimers_delivered. apply in_or_app. right.
  apply in_flat_map. exists t. split.
  - rewrite close_timerQueue, Hq, Hwt. apply filter_In. split.
    + apply in_or_app. right. now left.
    + unfold FileMap.get, FileMap.set. unfold fileKey in Hne.
      rewrite lookup_insert_ne by exact Hne.
      destruct (watchTimeout st !! getCanonicalFileName (handlePath h))
        as [ids|] eqn:E; [|reflexivity].
      cbn [default]. unfold id. apply negb_true_iff.
      destruct (existsb _ ids) eqn:Ex; [|reflexivity].
      apply existsb_exists in Ex as (i & Hi & Heq).
      apply Nat.eqb_eq in Heq. cbn [timerId t] in Heq.
      pose proof (Hbelow _ _ E) as Hall.
      rewrite List.Forall_forall in Hall. specialize (Hall i Hi). lia.
  - rewrite close_watchers, Hw. unfold callsOf.
    assert (Hget : FileMap.get
                     match FileMap.get (watchers st) (handlePath h) with
                     | Some ws =>
                         FileMap.set (watchers st) (handlePath h)
                           (List.filter
                              (fun w => Nat.eqb w (handleCallback h)) ws)
                     | None => watchers st
                     end (timerPath t)
                   = FileMap.get (watchers st) (timerPath t)).
    { destruct (FileMap.get (watchers st) (handlePath h)); [|reflexivity].
      unfold FileMap.get, FileMap.set. apply lookup_insert_ne.
      unfold fileKey in Hne. cbn [timerPath t]. congruence. }
    rewrite Hget. unfold watchersOf in Hb. cbn [timerPath timerKind t].
    destruct (FileMap.get (watchers st) _) as [ws|]; [|destruct Hb].
    apply in_map_iff. now exists b.
Qed.

End WatchersAndTimers.

(** ** Further properties of the path helpers *)

Lemma slice_drops_last (s : jsstring) (n : nat) :
  JS.slice s 0 (- Z.of_nat (S n)) = firstn (length s - S n) s.
Proof.
  unfold JS.slice, JS.sliceIndex, JS.len.
  change (0 <? 0) with false. cbv iota.
  destruct (Z.ltb_spec (- Z.of_nat (S n)) 0) as [_|]; [|lia].
  replace (Z.to_nat (Z.min 0 (Z.of_nat (length s)))) with 0%nat by lia.
  cbn [skipn]. f_equal. lia.
Qed.

(** X14. [toRealSvelteFilePath] drops the last three code units whatever
    they are; on a virtual path that gives back the path without [.ts], so
    that appending [.ts] restores it; a path shorter than three units
    becomes empty. *)
Theorem toRealSvelteFilePath_drops_three (filePath : jsstring) :
  toRealSvelteFilePath filePath = firstn (length filePath - 3) filePath
  /\ (isVirtualSvelteFilePath filePath = true ->
      toRealSvelteFilePath filePath ++ u16 ".ts" = filePath)
  /\ ((length filePath <= 3)%nat -> toRealSvelteFilePath filePath = []).
Proof.
  assert (E : toRealSvelteFilePath filePath
              = firstn (length filePath - 3) filePath)
    by apply (slice_drops_last filePath 2).
  split; [exact E|]. split.
  - intros Hv. apply endsWith_inv in Hv as [q ->].
    rewrite toRealSvelteFilePath_virtual, <- app_assoc. reflexivity.
  - intros Hlen. rewrite E.
    replace (length filePath - 3)%nat with 0%nat by lia. reflexivity.
Qed.

(** X15. No path is both a Svelte file path and a virtual one, and
    [ensureRealSvelteFilePath] leaves every path that is not virtual as it
    is. *)
Theorem svelte_paths_are_not_virtual (filePath : jsstring) :
  (isSvelteFilePath filePath = true ->
   isVirtualSvelteFilePath filePath = false)
  /\ (isVirtualSvelteFilePath filePath = false ->
      ensureRealSvelteFilePath filePath = filePath).
Proof.
  split.
  - intros Hs. apply endsWith_inv in Hs as [q ->].
    apply real_path_not_virtual.
  - intros Hv. unfold ensureRealSvelteFilePath. now rewrite Hv.
Qed.

(** ** Further properties of the text searches *)

(** The last occurrence at or before [i] is found when there is one. *)
Lemma scanBackward_finds (x s : jsstring) (i j : nat) :
  (j <= i)%nat -> JS.startsWith (skipn j s) x = true ->
  exists k, JS.scanBackward x s i = Some k /\ (j <= k <= i)%nat
            /\ JS.startsWith (skipn k s) x = true.
Proof.
  intros Hj Hat.
  destruct (JS.scanBackward x s i) as [k|] eqn:E.
  - exists k. apply scanBackward_Some in E as (Hle & Hk & Hno).
    split; [reflexivity|]. split; [|exact Hk].
    split; [|exact Hle].
    destruct (Nat.le_gt_cases j k) as [|Hlt]; [assumption|].
    rewrite (Hno j) in Hat by lia. discriminate.
  - rewrite (scanBackward_None _ _ _ E j Hj) in Hat. discriminate.
Qed.

Lemma substring_is_window (text : jsstring) (a b : Z) :
  exists from to : nat,
    JS.substring text a b = firstn (to - from) (skipn from text).
Proof.
  unfold JS.substring.
  set (fs := JS.clampIndex text a). set (fe := JS.clampIndex text b).
  assert (0 <= fs /\ 0 <= fe)
    by (subst fs fe; unfold JS.clampIndex, JS.len; lia).
  exists (Z.to_nat (Z.min fs fe)), (Z.to_nat (Z.max fs fe)).
  f_equal. lia.
Qed.

Lemma includes_occurs (s x : jsstring) :
  JS.includes s x = true ->
  exists c, JS.startsWith (skipn c s) x = true.
Proof.
  unfold JS.includes, JS.indexOf.
  destruct (JS.scanForward x _ _) as [r|] eqn:E; [|cbn; discriminate].
  intros _. apply scanForward_Some in E as (d & _ & _ & Hat & _).
  rewrite skipn_skipn in Hat. eauto.
Qed.

Lemma lastIndexOf_occurs (s x : jsstring) :
  0 <= JS.lastIndexOf s x ->
  exists c, JS.startsWith (skipn c s) x = true.
Proof.
  unfold JS.lastIndexOf, JS.lastIndexOfFrom.
  destruct (JS.scanBackward x s _) as [k|] eqn:E; [|lia].
  intros _. apply scanBackward_Some in E as (_ & Hat & _). eauto.
Qed.

Lemma window_occurs (text x : jsstring) (from to c : nat) :
  JS.startsWith (skipn c (firstn (to - from) (skipn from text))) x = true ->
  exists c', JS.startsWith (skipn c' text) x = true.
Proof.
  intros Hc. apply startsWith_in_window in Hc as [Hc _]. eauto.
Qed.

(** X16. Generated code needs both markers: when [isInGeneratedCode]
    answers [true], an open marker and a close marker occur in the text.
    A text without one of them has no generated span at all. *)
Theorem generated_code_needs_markers (text : jsstring) :
  (forall start end_,
     isInGeneratedCode text start end_ = true ->
     (exists i, JS.startsWith (skipn i text) ignoreStart = true)
     /\ (exists c, JS.startsWith (skipn c text) ignoreEnd = true))
  /\ ((forall i, JS.startsWith (skipn i text) ignoreStart = false)
      \/ (forall c, JS.startsWith (skipn c text) ignoreEnd = false) ->
      forall span, isNoTextSpanInGeneratedCode text span = true).
Proof.
  assert (Hneeds : forall start end_,
            isInGeneratedCode text start end_ = true ->
            (exists i, JS.startsWith (skipn i text) ignoreStart = true)
            /\ (exists c, JS.startsWith (skipn c text) ignoreEnd = true)).
  { intros start end_. unfold isInGeneratedCode. intros Hres.
    apply andb_prop in Hres as [Hopen Hclose]. apply Z.ltb_lt in Hopen.
    split.
    - destruct (open_marker_before text start Hopen) as (i & Hi & _). eauto.
    - destruct (substring_is_window text end_
                  (JS.indexOf text newline end_)) as (from & to & E).
      rewrite E in Hclose. apply includes_occurs in Hclose as [c Hc].
      now apply window_occurs in Hc. }
  split; [exact Hneeds|].
  intros Hnone span. unfold isNoTextSpanInGeneratedCode.
  destruct (isInGeneratedCode text _ _) eqn:E; [|reflexivity].
  destruct (Hneeds _ _ E) as [[i Hi] [c Hc]].
  destruct Hnone as [Hn|Hn]; [rewrite Hn in Hi | rewrite Hn in Hc];
    discriminate.
Qed.

(** The helper call does not overlap a shifted copy of itself: its last
    code unit, the parenthesis, occurs nowhere else in it. *)
Lemma storeGet_no_overlap (d : nat) (r : jsstring) :
  (1 <= d <= 22)%nat ->
  JS.startsWith (skipn d storeGet ++ r) storeGet = false.
Proof.
  intros Hd.
  do 23 (destruct d as [|d]; [first [lia | reflexivity]|]). lia.
Qed.

Lemma occurrences_of_storeGet_apart (text : jsstring) (j k : nat) :
  JS.startsWith (skipn j text) storeGet = true ->
  JS.startsWith (skipn k text) storeGet = true ->
  (j <= k)%nat -> k = j \/ (j + 23 <= k)%nat.
Proof.
  intros Hj Hk Hle.
  destruct (Nat.eq_dec k j) as [|Hne]; [now left|]. right.
  destruct (Nat.le_gt_cases (j + 23) k) as [|Hlt]; [assumption|]. exfalso.
  apply startsWith_inv in Hj as [r Hr].
  replace k with ((k - j) + j)%nat in Hk by lia.
  rewrite <- skipn_skipn, Hr, skipn_app in Hk.
  change (length storeGet) with 23%nat in Hk.
  replace (k - j - 23)%nat with 0%nat in Hk by lia. cbn [skipn] in Hk.
  rewrite storeGet_no_overlap in Hk by lia. discriminate.
Qed.

(** X17. [isStoreVariableIn$storeDeclaration] answers [true] exactly when
    the helper call ends at [varStart] and does not start again there.
    The one exception is [varStart = 22]: there the answer is [true] when
    the helper call does not occur up to that index, because the search
    result [-1] equals [22 - 23]. *)
Theorem isStoreVariableIn_storeDeclaration_spec (text : jsstring) (varStart : Z) :
  (varStart <> 22 ->
   isStoreVariableIn_storeDeclaration text varStart = true ->
   23 <= varStart <= JS.len text
   /\ JS.startsWith (skipn (Z.to_nat (varStart - 23)) text) storeGet = true)
  /\ (23 <= varStart ->
      JS.startsWith (skipn (Z.to_nat (varStart - 23)) text) storeGet = true ->
      JS.startsWith (skipn (Z.to_nat varStart) text) storeGet = false ->
      isStoreVariableIn_storeDeclaration text varStart = true)
  /\ (varStart = 22 ->
      (forall j, (j <= 22)%nat ->
                 JS.startsWith (skipn j text) storeGet = false) ->
      isStoreVariableIn_storeDeclaration text varStart = true).
Proof.
  unfold isStoreVariableIn_storeDeclaration, JS.lastIndexOfFrom.
  change (JS.len storeGet) with 23.
  split; [|split].
  - intros Hne.
    destruct (JS.scanBackward storeGet text _) as [k|] eqn:E;
      intros Heq; apply Z.eqb_eq in Heq; [|lia].
    apply scanBackward_Some in E as (_ & Hat & _).
    pose proof (startsWith_length _ _ Hat) as Hlen.
    rewrite length_skipn in Hlen. change (length storeGet) with 23%nat in Hlen.
    replace (Z.to_nat (varStart - 23)) with k by lia.
    split; [unfold JS.len; lia | exact Hat].
  - intros Hv Hat Hnot.
    pose proof (startsWith_length _ _ Hat) as Hlen.
    rewrite length_skipn in Hlen. change (length storeGet) with 23%nat in Hlen.
    assert (Hclamp : Z.to_nat (JS.clampIndex text varStart) = Z.to_nat varStart)
      by (unfold JS.clampIndex, JS.len; lia).
    rewrite Hclamp.
    destruct (scanBackward_finds storeGet text (Z.to_nat varStart)
                (Z.to_nat (varStart - 23)) ltac:(lia) Hat)
      as (k & -> & Hk & Hatk).
    apply Z.eqb_eq.
    destruct (occurrences_of_storeGet_apart text _ k Hat Hatk ltac:(lia))
      as [->|Hfar]; [lia|].
    assert (k = Z.to_nat varStart) by lia. subst k. congruence.
  - intros -> Hnone.
    destruct (JS.scanBackward storeGet text _) as [k|] eqn:E; [|reflexivity].
    apply scanBackward_Some in E as (Hle & Hat & _).
    rewrite Hnone in Hat; [discriminate|].
    unfold JS.clampIndex, JS.len in Hle. lia.
Qed.

(** X18. [get$storeOffsetOf$storeDeclaration] yields [-2] when no [" ="]
    starts at or before the position (a negative position counts as 0);
    otherwise its result is one less than the index of the last such
    [" ="], hence below the position. *)
Theorem get_storeOffsetOf_storeDeclaration_spec
    (text : jsstring) (storePosition : Z) :
  let offset := get_storeOffsetOf_storeDeclaration text storePosition in
  -2 <= offset < Z.max storePosition 0
  /\ ((forall j, Z.of_nat j <= Z.max storePosition 0 ->
                 JS.startsWith (skipn j text) (u16 " =") = false) ->
      offset = -2)
  /\ (offset <> -2 ->
      JS.startsWith (skipn (Z.to_nat (offset + 1)) text) (u16 " =") = true
      /\ forall j, offset + 1 < Z.of_nat j <= storePosition ->
                   JS.startsWith (skipn j text) (u16 " =") = false).
Proof.
  unfold get_storeOffsetOf_storeDeclaration, JS.lastIndexOfFrom.
  set (i := Z.to_nat (JS.clampIndex text storePosition)).
  assert (Hi : Z.of_nat i <= Z.max storePosition 0)
    by (subst i; unfold JS.clampIndex, JS.len; lia).
  destruct (JS.scanBackward (u16 " =") text i) as [k|] eqn:E; cbv zeta.
  - apply scanBackward_Some in E as (Hle & Hat & Hno).
    split; [lia|]. split.
    + intros Hnone. rewrite Hnone in Hat; [discriminate | lia].
    + intros _. replace (Z.to_nat (Z.of_nat k - 1 + 1)) with k by lia.
      split; [exact Hat|]. intros j Hj.
      destruct (Nat.le_gt_cases j i) as [Hji|Hji]; [apply Hno; lia|].
      destruct (JS.startsWith (skipn j text) (u16 " =")) eqn:Ej;
        [|reflexivity].
      apply startsWith_length in Ej. rewrite length_skipn in Ej.
      simpl in Ej. subst i. unfold JS.clampIndex, JS.len in Hji. lia.
  - split; [lia|]. split; [reflexivity | intros Hne; now destruct Hne].
Qed.

(** X19. For a text that ends with the name of a generated component,
    [offsetOfGeneratedComponentExport] is the index at which the suffix of
    that name starts. *)
Theorem offsetOfGeneratedComponentExport_of_name (code className : jsstring) :
  isGeneratedSvelteComponentName className = true ->
  offsetOfGeneratedComponentExport {| getText := code ++ className |}
  = JS.len (code ++ className) - JS.len COMPONENT_SUFFIX.
Proof.
  intros Hname. apply endsWith_inv in Hname as [q ->].
  unfold offsetOfGeneratedComponentExport, JS.lastIndexOf, JS.lastIndexOfFrom.
  cbn [getText]. rewrite app_assoc.
  set (front := code ++ q). set (text := front ++ COMPONENT_SUFFIX).
  replace (Z.to_nat (JS.clampIndex text (JS.len text))) with (length text)
    by (unfold JS.clampIndex, JS.len; lia).
  assert (Hat : JS.startsWith (skipn (length front) text) COMPONENT_SUFFIX
                = true).
  { subst text. rewrite skipn_app_exact.
    rewrite <- (app_nil_r COMPONENT_SUFFIX) at 1. apply startsWith_app. }
  assert (Hlen : length text = (length front + 18)%nat)
    by (subst text; rewrite length_app; reflexivity).
  destruct (scanBackward_finds COMPONENT_SUFFIX text (length text)
              (length front) ltac:(lia) Hat) as (k & -> & Hk & Hatk).
  apply startsWith_length in Hatk. rewrite length_skipn in Hatk.
  change (length COMPONENT_SUFFIX) with 18%nat in Hatk.
  unfold JS.len. change (length COMPONENT_SUFFIX) with 18%nat. lia.
Qed.

(** ** [findNodeAtPosition] *)

Lemma findNodeAtPosition_unfold (n : Node) (pos : Z) predicate :
  findNodeAtPosition n pos predicate
  = scanAtPosition (fun child => findNodeAtPosition child pos predicate)
      pos predicate (getChildren n).
Proof. destruct n; reflexivity. Qed.

Lemma scanAtPosition_sound recur pos predicate cs n :
  Forall (fun c => forall m, recur c = Some m ->
                     In m (descendants c) /\ covers pos m
                     /\ match predicate with
                        | None => True
                        | Some accepts => accepts m = true
                        end) cs ->
  scanAtPosition recur pos predicate cs = Some n ->
  In n (flat_map subtree cs) /\ covers pos n
  /\ match predicate with None => True | Some accepts => accepts n = true end.
Proof.
  induction 1 as [|c cs Hc _ IH]; simpl; [discriminate|].
  assert (Hrest : scanAtPosition recur pos predicate cs = Some n ->
                  In n (c :: descendants c ++ flat_map subtree cs)
                  /\ covers pos n
                  /\ match predicate with
                     | None => True
                     | Some accepts => accepts n = true
                     end).
  { intros Hs. destruct (IH Hs) as (Hin & Hrest). split; [|exact Hrest].
    right. apply in_or_app. now right. }
  destruct (Z.ltb_spec pos (getStart c)); [discriminate|].
  destruct (Z.gtb_spec pos (getEnd c)); [exact Hrest|].
  destruct (recur c) as [m|] eqn:Hr.
  - intros [= <-]. destruct (Hc m eq_refl) as (Hin & Hm).
    split; [|exact Hm]. right. apply in_or_app. now left.
  - assert (Hself : In c (c :: descendants c ++ flat_map subtree cs)
                    /\ covers pos c) by (split; [now left | unfold covers; lia]).
    destruct predicate as [accepts|].
    + destruct (accepts c) eqn:Ha; [|exact Hrest].
      intros [= <-]. tauto.
    + intros [= <-]. tauto.
Qed.

(** X20. What [findNodeAtPosition] returns is a proper descendant of the
    root whose range holds the position, both ends included, and which the
    predicate accepts. *)
Theorem findNodeAtPosition_sound
    (root : Node) (pos : Z) (predicate : option (Node -> bool)) (n : Node) :
  findNodeAtPosition root pos predicate = Some n ->
  In n (descendants root) /\ getStart n <= pos <= getEnd n
  /\ match predicate with None => True | Some accepts => accepts n = true end.
Proof.
  revert n. induction root as [i k s e cs IH] using Node_children_ind.
  intros n. rewrite findNodeAtPosition_unfold. simpl getChildren.
  rewrite descendants_children. now apply scanAtPosition_sound.
Qed.

(** Without a predicate the scan of ordered children fails only when none
    of them holds the position. *)
Lemma scanAtPosition_none recur pos hi cs :
  forall lo,
    orderedChildren orderedTree hi lo cs = true ->
    (scanAtPosition recur pos None cs = None
     <-> forall c, In c cs -> ~ covers pos c).
Proof.
  induction cs as [|c cs IH]; intros lo Hord; simpl.
  - split; [intros _ c [] | reflexivity].
  - apply orderedChildren_cons in Hord as (Hlo & Hce & Hhi & Hoc & Hrest).
    assert (Hafter : forall x, In x cs -> getEnd c <= getStart x).
    { clear -Hrest. revert Hrest. generalize (getEnd c) as b.
      induction cs as [|y cs IHcs]; intros b Hord x Hx; [destruct Hx|].
      apply orderedChildren_cons in Hord as (Hb & Hy & _ & _ & Hr).
      destruct Hx as [<-|Hx]; [exact Hb|].
      specialize (IHcs _ Hr x Hx). lia. }
    destruct (Z.ltb_spec pos (getStart c)) as [Hlt|Hge].
    + split; [|reflexivity]. intros _ x [<-|Hx]; unfold covers; [lia|].
      specialize (Hafter x Hx). lia.
    + destruct (Z.gtb_spec pos (getEnd c)) as [Hgt|Hle].
      * rewrite (IH _ Hrest). split.
        -- intros Hn x [<-|Hx]; [unfold covers; lia | now apply Hn].
        -- intros Hn x Hx. apply Hn. now right.
      * split.
        -- destruct (recur c); discriminate.
        -- intros Hn. exfalso. apply (Hn c); [now left | unfold covers; lia].
Qed.

Lemma scanAtPosition_deepest recur pos hi cs :
  Forall (fun c => orderedTree c = true ->
                   (recur c = None
                    <-> forall x, In x (getChildren c) -> ~ covers pos x)
                   /\ forall n, recur c = Some n ->
                        forall x, In x (getChildren n) -> ~ covers pos x) cs ->
  forall lo n,
    orderedChildren orderedTree hi lo cs = true ->
    scanAtPosition recur pos None cs = Some n ->
    forall x, In x (getChildren n) -> ~ covers pos x.
Proof.
  induction 1 as [|c cs Hc _ IH]; intros lo n Hord; simpl; [discriminate|].
  apply orderedChildren_cons in Hord as (_ & _ & _ & Hoc & Hrest).
  destruct (Z.ltb_spec pos (getStart c)); [discriminate|].
  destruct (Z.gtb_spec pos (getEnd c)); [now apply (IH (getEnd c))|].
  destruct (Hc Hoc) as [Hnone Hsome].
  destruct (recur c) as [m|] eqn:Hr.
  - intros [= <-]. now apply Hsome.
  - intros [= <-]. now apply Hnone.
Qed.

(** X21. On a tree with ordered, non-overlapping children and without a
    predicate, [findNodeAtPosition] finds a node exactly when a child of
    the root holds the position, and the node it finds is a deepest one:
    none of its own children holds the position. *)
Theorem findNodeAtPosition_deepest (root : Node) (pos : Z) :
  orderedTree root = true ->
  (findNodeAtPosition root pos None = None
   <-> forall c, In c (getChildren root) -> ~ covers pos c)
  /\ forall n, findNodeAtPosition root pos None = Some n ->
       forall c, In c (getChildren n) -> ~ covers pos c.
Proof.
  induction root as [i k s e cs IH] using Node_children_ind.
  intros Hord. rewrite findNodeAtPosition_unfold. simpl getChildren.
  simpl in Hord. split.
  - now apply (scanAtPosition_none _ pos e cs s).
  - intros n. now apply (scanAtPosition_deepest _ pos e cs IH s).
Qed.

(** ** More on [gatherDescendants] *)

Lemma filter_flat_map {A B} (f : B -> bool) (g : A -> list B) (l : list A) :
  List.filter f (flat_map g l) = flat_map (fun a => List.filter f (g a)) l.
Proof.
  induction l as [|a l IH]; simpl; [reflexivity|].
  now rewrite List.filter_app, IH.
Qed.

Lemma gatherDescendants_in_order (predicate : Node -> bool) (root : Node) :
  gatherDescendants root predicate []
    `sublist_of` List.filter predicate (subtree root).
Proof.
  induction root as [i k s e cs IH] using Node_children_ind.
  rewrite gatherDescendants_unfold, subtree_children. cbn [List.filter].
  destruct (predicate (mkNode i k s e cs)).
  - apply sublist_skip, sublist_nil_l.
  - simpl getChildren. rewrite filter_flat_map.
    induction IH as [|c cs Hc _ IHcs]; simpl; [constructor|].
    now apply sublist_app.
Qed.

Lemma gatherDescendants_covers_subtree (predicate : Node -> bool) (root n : Node) :
  In n (subtree root) -> predicate n = true ->
  exists m, In m (gatherDescendants root predicate [])
            /\ (m = n \/ In n (descendants m)).
Proof.
  revert n. induction root as [i k s e cs IH] using Node_children_ind.
  intros n Hn Hp. rewrite gatherDescendants_unfold.
  destruct (predicate (mkNode i k s e cs)) eqn:Hroot.
  - exists (mkNode i k s e cs). split; [now left|].
    destruct Hn as [<-|Hn]; [now left | now right].
  - destruct Hn as [<-|Hn]; [congruence|].
    rewrite descendants_children in Hn.
    apply in_flat_map in Hn as (c & Hc & Hn).
    rewrite List.Forall_forall in IH.
    destruct (IH c Hc n Hn Hp) as (m & Hm & Hcov).
    exists m. split; [|exact Hcov].
    simpl getChildren. apply in_flat_map. now exists c.
Qed.

(** X22. [gatherDescendants] misses no match: every node of the tree that
    satisfies the predicate is returned or lies below a returned node. The
    nodes are returned in document order, behind what [dest] held
    already, which stays as it was. *)
Theorem gatherDescendants_complete
    (root : Node) (predicate : Node -> bool) (dest : list Node) :
  (forall n, In n (subtree root) -> predicate n = true ->
     exists m, In m (gatherDescendants root predicate [])
               /\ (m = n \/ In n (descendants m)))
  /\ gatherDescendants root predicate []
       `sublist_of` List.filter predicate (subtree root)
  /\ gatherDescendants root predicate dest
     = dest ++ gatherDescendants root predicate [].
Proof.
  split; [|split].
  - intros n. apply gatherDescendants_covers_subtree.
  - apply gatherDescendants_in_order.
  - apply gatherDescendants_dest.
Qed.

(** ** [findIdentifier] *)

Lemma Ast_ind_parent (P : Ast -> Prop) :
  (forall k name parent,
     (forall p, parent = Some p -> P p) -> P (mkAst k name parent)) ->
  forall n, P n.
Proof.
  intros step. fix IH 1. intros [k name [p|]]; apply step.
  - intros q [= <-]. apply IH.
  - intros q Hq. discriminate Hq.
Qed.

Lemma findIdentifierUpwards_identifier (node r : Ast) :
  findIdentifierUpwards node = Some r -> isIdentifier r = true.
Proof.
  revert r. induction node as [k name parent IH] using Ast_ind_parent.
  intros r. cbn [findIdentifierUpwards].
  destruct (isIdentifier (mkAst k name parent)) eqn:Hid.
  - now intros [= <-].
  - destruct (isVariableDeclaration (mkAst k name parent)).
    + destruct name as [n|].
      * destruct (isIdentifier n) eqn:Hn; [now intros [= <-]|].
        destruct parent as [p|]; [exact (IH p eq_refl r) | discriminate].
      * destruct parent as [p|]; [exact (IH p eq_refl r) | discriminate].
    + destruct parent as [p|]; [exact (IH p eq_refl r) | discriminate].
Qed.

(** X23. When the names of function declarations are identifiers, what
    [findIdentifier] returns is an identifier, and [findIdentifier]
    applied to it returns it again. A function declaration without a name
    yields nothing: the search does not go on to its parents. *)
Theorem findIdentifier_returns_identifier (node : Ast) :
  functionNamesAreIdentifiers node ->
  (forall r, findIdentifier node = Some r ->
             isIdentifier r = true /\ findIdentifier r = Some r)
  /\ (isFunctionDeclaration node = true -> astName node = None ->
      findIdentifier node = None).
Proof.
  intros Hnames. split.
  - intros r Hr.
    assert (Hid : isIdentifier r = true).
    { unfold findIdentifier in Hr.
      destruct (isIdentifier node) eqn:Hn; [now injection Hr as <-|].
      destruct (isFunctionDeclaration node) eqn:Hf.
      - now apply (Hnames Hf r).
      - now apply (findIdentifierUpwards_identifier node). }
    split; [exact Hid|]. unfold findIdentifier. now rewrite Hid.
  - intros Hf Hname. unfold findIdentifier.
    destruct (isIdentifier node) eqn:Hn.
    + unfold isIdentifier, isFunctionDeclaration in *.
      destruct (astKind node); discriminate.
    + now rewrite Hf.
Qed.

(** Witness of X23: the arrow function in [const answer = () => 42]. *)
Lemma findIdentifier_returns_identifier_witness :
  functionNamesAreIdentifiers arrowInDeclaration
  /\ findIdentifier arrowInDeclaration = Some answerIdentifier
  /\ isIdentifier answerIdentifier = true.
Proof.
  assert (Hn : functionNamesAreIdentifiers arrowInDeclaration)
    by (intros Hf; discriminate Hf).
  split; [exact Hn|]. split; [reflexivity|].
  exact (proj1 (proj1 (findIdentifier_returns_identifier arrowInDeclaration Hn)
                  answerIdentifier eq_refl)).
Defined.

(** ** [replaceDeep] *)

Lemma JsData_deep_ind (P : JsData -> Prop) :
  (forall s, P (DString s)) ->
  (forall items, Forall P items -> P (DArray items)) ->
  (forall props, Forall (fun kv => P (snd kv)) props -> P (DObject props)) ->
  P DNull ->
  (forall tag, P (DOther tag)) ->
  forall d, P d.
Proof.
  intros Hs Ha Ho Hn Ht. fix IH 1. intros [s|items|props| |tag].
  - apply Hs.
  - apply Ha. induction items as [|x items IHi]; constructor;
      [apply IH | exact IHi].
  - apply Ho. induction props as [|[k v] props IHp]; constructor;
      [apply IH | exact IHp].
  - exact Hn.
  - apply Ht.
Qed.

Section ReplaceDeep.
Variable replace : jsstring -> jsstring.

Lemma mapEntries_outcome (items : list JsData) :
  Forall (fun d =>
            (containsNull d = true -> replaceDeep replace d = Throws typeError)
            /\ (containsNull d = false ->
                exists v, replaceDeep replace d = Returns v)) items ->
  (existsb containsNull items = true ->
   mapEntries (replaceDeep replace) items = Throws typeError)
  /\ (existsb containsNull items = false ->
      exists l, mapEntries (replaceDeep replace) items = Returns l).
Proof.
  induction 1 as [|d items [Ht Hr] _ [IHt IHr]]; cbn [existsb mapEntries].
  - split; [discriminate | eauto].
  - destruct (containsNull d).
    + split; [|discriminate]. intros _. now rewrite Ht.
    + destruct (Hr eq_refl) as [v ->]. cbn [orb]. split.
      * intros Hn. now rewrite (IHt Hn).
      * intros Hn. destruct (IHr Hn) as [l ->]. eauto.
Qed.

Lemma reduceKeys_outcome (props : list (jsstring * JsData)) :
  Forall (fun kv =>
            (containsNull (snd kv) = true ->
             replaceDeep replace (snd kv) = Throws typeError)
            /\ (containsNull (snd kv) = false ->
                exists v, replaceDeep replace (snd kv) = Returns v)) props ->
  forall o,
    (existsb (fun kv => containsNull (snd kv)) props = true ->
     reduceKeys (replaceDeep replace) props o = Throws typeError)
    /\ (existsb (fun kv => containsNull (snd kv)) props = false ->
        exists o', reduceKeys (replaceDeep replace) props o = Returns o').
Proof.
  induction 1 as [|[k d] props [Ht Hr] _ IH]; intros o;
    cbn [existsb reduceKeys snd] in *.
  - split; [discriminate | eauto].
  - destruct (containsNull d).
    + split; [|discriminate]. intros _. now rewrite Ht.
    + destruct (Hr eq_refl) as [v ->]. cbn [orb]. apply IH.
Qed.

(** X24. [replaceDeep] throws exactly when a [null] sits somewhere inside
    the value, the [TypeError] of [Object.keys(null)]; on every other
    value it returns. *)
Theorem replaceDeep_throws_on_null (obj : JsData) :
  (containsNull obj = true -> replaceDeep replace obj = Throws typeError)
  /\ (containsNull obj = false ->
      exists v, replaceDeep replace obj = Returns v).
Proof.
  induction obj as [s|items IH|props IH| |tag] using JsData_deep_ind;
    cbn [containsNull replaceDeep].
  - split; [discriminate | eauto].
  - destruct (mapEntries_outcome items IH) as [Ht Hr]. split.
    + intros Hn. now rewrite (Ht Hn).
    + intros Hn. destruct (Hr Hn) as [l ->]. eauto.
  - destruct (reduceKeys_outcome props IH []) as [Ht Hr]. split.
    + intros Hn. now rewrite (Ht Hn).
    + intros Hn. destruct (Hr Hn) as [o ->]. eauto.
  - split; [reflexivity | discriminate].
  - split; [discriminate | eauto].
Qed.

Lemma mapEntries_unchanged (items : list JsData) :
  Forall (fun d => replaceDeep replace d = Returns d) items ->
  mapEntries (replaceDeep replace) items = Returns items.
Proof.
  induction 1 as [|d items Hd _ IH]; cbn [mapEntries]; [reflexivity|].
  now rewrite Hd, IH.
Qed.

Lemma reduceKeys_unchanged (props : list (jsstring * JsData)) :
  Forall (fun kv => JS.sameUnits (fst kv) protoKey = false
                    /\ replaceDeep replace (snd kv) = Returns (snd kv)) props ->
  forall o, reduceKeys (replaceDeep replace) props o = Returns (o ++ props).
Proof.
  induction 1 as [|[k d] props [Hk Hd] _ IH]; intros o;
    cbn [reduceKeys fst snd] in *.
  - now rewrite app_nil_r.
  - rewrite Hd. unfold assignProperty. rewrite Hk, IH.
    now rewrite <- app_assoc.
Qed.

(** X25. When the replacement changes none of the strings inside a value,
    and the value holds no [null] and no property called [__proto__],
    [replaceDeep] returns the value as it was. *)
Theorem replaceDeep_nothing_to_replace (obj : JsData) :
  (forall s, In s (stringsOf obj) -> replace s = s) ->
  containsNull obj = false ->
  plainKeys obj = true ->
  replaceDeep replace obj = Returns obj.
Proof.
  induction obj as [s|items IH|props IH| |tag] using JsData_deep_ind;
    cbn [stringsOf containsNull plainKeys replaceDeep]; intros Hs Hn Hk.
  - now rewrite (Hs s) by now left.
  - rewrite mapEntries_unchanged; [reflexivity|].
    rewrite List.Forall_forall in *. intros d Hd. apply (IH d Hd).
    + intros s Hin. apply Hs. apply in_flat_map. eauto.
    + destruct (containsNull d) eqn:E; [|reflexivity].
      rewrite <- Hn. symmetry. apply existsb_exists. eauto.
    + rewrite forallb_forall in Hk. auto.
  - rewrite reduceKeys_unchanged; [reflexivity|].
    rewrite List.Forall_forall in *. intros kv Hkv.
    rewrite forallb_forall in Hk. specialize (Hk kv Hkv).
    apply andb_prop in Hk as [Hkey Hplain]. apply negb_true_iff in Hkey.
    split; [exact Hkey|]. apply (IH kv Hkv).
    + intros s Hin. apply Hs. apply in_flat_map. eauto.
    + destruct (containsNull (snd kv)) eqn:E; [|reflexivity].
      rewrite <- Hn. symmetry. apply existsb_exists. eauto.
    + exact Hplain.
  - discriminate.
  - reflexivity.
Qed.

End ReplaceDeep.

(** Witness of X24 and X25 on a completion item. *)
Lemma replaceDeep_nothing_to_replace_witness :
  containsNull sampleItem = false
  /\ plainKeys sampleItem = true
  /\ replaceDeep (fun s => s) sampleItem = Returns sampleItem.
Proof.
  split; [reflexivity|]. split; [reflexivity|].
  apply (replaceDeep_nothing_to_replace (fun s => s) sampleItem);
    [reflexivity.. | reflexivity | reflexivity].
Defined.

Lemma replaceDeep_throws_on_null_witness :
  containsNull (DArray [sampleItem; DObject [(u16 "data", DNull)]]) = true
  /\ replaceDeep ensureRealSvelteFilePath
       (DArray [sampleItem; DObject [(u16 "data", DNull)]])
     = Throws typeError.
Proof.
  split; [reflexivity|].
  exact (proj1 (replaceDeep_throws_on_null ensureRealSvelteFilePath
                  (DArray [sampleItem; DObject [(u16 "data", DNull)]]))
           eq_refl).
Defined.

(** ** [updateSnapshotIfFailedOrEmpty] *)



(** ** Witnesses of the further properties *)

Lemma never_written_is_absent_witness :
  (forall q data, In (OpWriteFile q data) unrelatedOps ->
     @fileKey posix (createVirtualTsSystem (u16 "/w")) q
     <> @fileKey posix (createVirtualTsSystem (u16 "/w")) (u16 "c.ts"))
  /\ @readFile posix (u16 "c.ts")
       (@execAll posix unrelatedOps (createVirtualTsSystem (u16 "/w")))
     = None.
Proof.
  assert (Hn : forall q data, In (OpWriteFile q data) unrelatedOps ->
     @fileKey posix (createVirtualTsSystem (u16 "/w")) q
     <> @fileKey posix (createVirtualTsSystem (u16 "/w")) (u16 "c.ts")).
  { intros q data Hin. simpl in Hin.
    repeat (destruct Hin as [Hin|Hin]; try discriminate Hin);
      [|destruct Hin].
    injection Hin as <- _. vm_compute. discriminate. }
  split; [exact Hn|].
  exact (proj1 (proj2 (@never_written_is_absent posix (u16 "/w") unrelatedOps
                         (u16 "c.ts") Hn))).
Defined.

Lemma existing_file_has_modified_time_witness :
  @fileExists posix (u16 "a.ts")
    (@execAll posix [OpElapse 3; OpWriteFile (u16 "/w/a.ts") (u16 "let a")]
       (createVirtualTsSystem (u16 "/w"))) = true
  /\ exists t,
       @getModifiedTime posix (u16 "a.ts")
         (@execAll posix [OpElapse 3; OpWriteFile (u16 "/w/a.ts") (u16 "let a")]
            (createVirtualTsSystem (u16 "/w"))) = Some t.
Proof.
  split; [reflexivity|].
  exact (@existing_file_has_modified_time posix (u16 "/w")
           [OpElapse 3; OpWriteFile (u16 "/w/a.ts") (u16 "let a")]
           (u16 "a.ts") eq_refl).
Defined.

Lemma getModifiedTime_after_writeFile_witness :
  let st := @execAll posix [OpElapse 3] (createVirtualTsSystem (u16 "/w")) in
  Forall (fun op => @writes posix st (@fileKey posix st (u16 "/w/a.ts")) op
                    = false)
    [OpElapse 4; OpDeleteFile (u16 "a.ts"); OpFireTimer]
  /\ @getModifiedTime posix (u16 "/w/a.ts")
       (@execAll posix [OpElapse 4; OpDeleteFile (u16 "a.ts"); OpFireTimer]
          (@writeFile posix (u16 "/w/a.ts") (u16 "let a") st))
     = Some 3.
Proof.
  assert (Hb : Forall
     (fun op => @writes posix
                  (@execAll posix [OpElapse 3] (createVirtualTsSystem (u16 "/w")))
                  (@fileKey posix
                     (@execAll posix [OpElapse 3]
                        (createVirtualTsSystem (u16 "/w"))) (u16 "/w/a.ts"))
                  op = false)
     [OpElapse 4; OpDeleteFile (u16 "a.ts"); OpFireTimer])
    by (repeat constructor).
  split; [exact Hb|].
  exact (@getModifiedTime_after_writeFile posix (u16 "/w/a.ts") (u16 "let a")
           (@execAll posix [OpElapse 3] (createVirtualTsSystem (u16 "/w")))
           [OpElapse 4; OpDeleteFile (u16 "a.ts"); OpFireTimer] Hb).
Defined.

Lemma deleteFile_removes_one_file_witness :
  let st := @execAll posix
              [OpWriteFile (u16 "/w/a.ts") (u16 "let a");
               OpWriteFile (u16 "/w/b.ts") (u16 "let b")]
              (createVirtualTsSystem (u16 "/w")) in
  @fileKey posix st (u16 "b.ts") <> @fileKey posix st (u16 "a.ts")
  /\ @readFile posix (u16 "b.ts") (@deleteFile posix (u16 "a.ts") st)
     = @readFile posix (u16 "b.ts") st.
Proof.
  assert (Hne : @fileKey posix
                  (@execAll posix
                     [OpWriteFile (u16 "/w/a.ts") (u16 "let a");
                      OpWriteFile (u16 "/w/b.ts") (u16 "let b")]
                     (createVirtualTsSystem (u16 "/w"))) (u16 "b.ts")
                <> @fileKey posix
                     (@execAll posix
                        [OpWriteFile (u16 "/w/a.ts") (u16 "let a");
                         OpWriteFile (u16 "/w/b.ts") (u16 "let b")]
                        (createVirtualTsSystem (u16 "/w"))) (u16 "a.ts"))
    by (vm_compute; discriminate).
  split; [exact Hne|].
  exact (proj1 (proj2 (@deleteFile_removes_one_file posix (u16 "a.ts") _))
           (u16 "b.ts") Hne).
Defined.

Lemma relative_and_absolute_path_agree_witness :
  @isAbsolute posix (u16 "a.ts") = false
  /\ @isAbsolute posix (@join posix (u16 "/w") (u16 "a.ts")) = true
  /\ @readFile posix (u16 "/w/a.ts")
       (@writeFile posix (u16 "a.ts") (u16 "let a")
          (createVirtualTsSystem (u16 "/w")))
     = Some (u16 "let a").
Proof.
  split; [reflexivity|]. split; [reflexivity|].
  exact (proj1 (@relative_and_absolute_path_agree posix (u16 "a.ts")
                  (u16 "let a") (createVirtualTsSystem (u16 "/w"))
                  eq_refl eq_refl)).
Defined.

Lemma directoryExists_prefix_closed_witness :
  let st := @writeFile posix samplePath (u16 "x")
              (createVirtualTsSystem (u16 "/")) in
  @fileExists posix samplePath st = true
  /\ @directoryExists posix samplePath st = true
  /\ @directoryExists posix (u16 "/src") st = true.
Proof.
  assert (Hd : @directoryExists posix samplePath
                 (@writeFile posix samplePath (u16 "x")
                    (createVirtualTsSystem (u16 "/"))) = true)
    by exact (proj1 (@directoryExists_prefix_closed posix samplePath
                       (@writeFile posix samplePath (u16 "x")
                          (createVirtualTsSystem (u16 "/"))))
                eq_refl).
  split; [reflexivity|]. split; [exact Hd|].
  exact (proj1 (proj2 (@directoryExists_prefix_closed posix samplePath
                         (@writeFile posix samplePath (u16 "x")
                            (createVirtualTsSystem (u16 "/")))))
           (u16 "/src") (u16 "/App.svelte") Hd eq_refl).
Defined.

Lemma watchFile_registers_last_witness :
  let st := @execAll posix twoWatchers (createVirtualTsSystem (u16 "/")) in
  @fileKey posix st (u16 "/other.ts") <> @fileKey posix st samplePath
  /\ @watchersOf posix (u16 "/other.ts")
       (snd (@watchFile posix samplePath 1%nat st))
     = @watchersOf posix (u16 "/other.ts") st.
Proof.
  assert (Hne : @fileKey posix
                  (@execAll posix twoWatchers (createVirtualTsSystem (u16 "/")))
                  (u16 "/other.ts")
                <> @fileKey posix
                     (@execAll posix twoWatchers
                        (createVirtualTsSystem (u16 "/"))) samplePath)
    by (vm_compute; discriminate).
  split; [exact Hne|].
  exact (proj1 (proj2 (@watchFile_registers_last posix samplePath 1%nat _))
           (u16 "/other.ts") Hne).
Defined.

Lemma callbacks_run_only_from_timers_witness :
  Forall (fun op => isFireTimer op = false)
    (twoWatchers ++ [OpWriteFile samplePath (u16 "x"); OpClose firstHandle])
  /\ delivered
       (@execAll posix
          (twoWatchers ++ [OpWriteFile samplePath (u16 "x"); OpClose firstHandle])
          (createVirtualTsSystem (u16 "/")))
     = [].
Proof.
  assert (Hq : Forall (fun op => isFireTimer op = false)
    (twoWatchers ++ [OpWriteFile samplePath (u16 "x"); OpClose firstHandle]))
    by (repeat constructor).
  split; [exact Hq|].
  exact (proj2 (@callbacks_run_only_from_timers posix _
                  (createVirtualTsSystem (u16 "/"))) Hq).
Defined.

Lemma close_spares_other_files_witness :
  let st := @execAll posix twoWatchers (createVirtualTsSystem (u16 "/")) in
  @fileKey posix st samplePath
  <> @getCanonicalFileName posix
       (handlePath {| handlePath := u16 "/other.ts"; handleCallback := 9%nat |})
  /\ In 2%nat (@watchersOf posix samplePath st)
  /\ In {| receiver := 2%nat; fileName := samplePath; eventKind := Created |}
       (delivered
          (@runTimers posix
             (@close posix
                {| handlePath := u16 "/other.ts"; handleCallback := 9%nat |}
                (@writeFile posix samplePath (u16 "x") st)))).
Proof.
  assert (Hne : @fileKey posix
                  (@execAll posix twoWatchers (createVirtualTsSystem (u16 "/")))
                  samplePath
                <> @getCanonicalFileName posix
                     (handlePath {| handlePath := u16 "/other.ts";
                                    handleCallback := 9%nat |}))
    by (vm_compute; discriminate).
  assert (Hb : In 2%nat
                 (@watchersOf posix samplePath
                    (@execAll posix twoWatchers
                       (createVirtualTsSystem (u16 "/")))))
    by (vm_compute; tauto).
  split; [exact Hne|]. split; [exact Hb|].
  exact (@close_spares_other_files posix (u16 "/") twoWatchers samplePath
           (u16 "x") _ 2%nat Hne Hb).
Defined.

Lemma toRealSvelteFilePath_drops_three_witness :
  isVirtualSvelteFilePath (u16 "App.svelte.ts") = true
  /\ toRealSvelteFilePath (u16 "App.svelte.ts") ++ u16 ".ts"
     = u16 "App.svelte.ts".
Proof.
  split; [reflexivity|].
  exact (proj1 (proj2 (toRealSvelteFilePath_drops_three (u16 "App.svelte.ts")))
           eq_refl).
Defined.

Lemma svelte_paths_are_not_virtual_witness :
  isSvelteFilePath (u16 "App.svelte") = true
  /\ isVirtualSvelteFilePath (u16 "App.svelte") = false.
Proof.
  split; [reflexivity|].
  exact (proj1 (svelte_paths_are_not_virtual (u16 "App.svelte")) eq_refl).
Defined.

Lemma generated_code_needs_markers_witness :
  isInGeneratedCode (ignoreStart ++ u16 "abc" ++ ignoreEnd ++ newline) 18 21
  = true
  /\ exists i,
       JS.startsWith
         (skipn i (ignoreStart ++ u16 "abc" ++ ignoreEnd ++ newline))
         ignoreStart = true.
Proof.
  split; [reflexivity|].
  exact (proj1 (proj1 (generated_code_needs_markers
                         (ignoreStart ++ u16 "abc" ++ ignoreEnd ++ newline))
                  18 21 eq_refl)).
Defined.

Lemma isStoreVariableIn_storeDeclaration_spec_witness :
  23 <= 23
  /\ JS.startsWith (skipn (Z.to_nat (23 - 23)) (storeGet ++ u16 "count)"))
       storeGet = true
  /\ JS.startsWith (skipn (Z.to_nat 23) (storeGet ++ u16 "count)")) storeGet
     = false
  /\ isStoreVariableIn_storeDeclaration (storeGet ++ u16 "count)") 23 = true.
Proof.
  split; [lia|]. split; [reflexivity|]. split; [reflexivity|].
  exact (proj1 (proj2 (isStoreVariableIn_storeDeclaration_spec
                         (storeGet ++ u16 "count)") 23))
           ltac:(lia) eq_refl eq_refl).
Defined.

Lemma get_storeOffsetOf_storeDeclaration_spec_witness :
  get_storeOffsetOf_storeDeclaration (u16 "let $a = b") 9 <> -2
  /\ JS.startsWith
       (skipn (Z.to_nat
                 (get_storeOffsetOf_storeDeclaration (u16 "let $a = b") 9 + 1))
          (u16 "let $a = b")) (u16 " =") = true.
Proof.
  assert (Hne : get_storeOffsetOf_storeDeclaration (u16 "let $a = b") 9 <> -2)
    by (vm_compute; discriminate).
  split; [exact Hne|].
  exact (proj1 (proj2 (proj2 (get_storeOffsetOf_storeDeclaration_spec
                                (u16 "let $a = b") 9)) Hne)).
Defined.

Lemma offsetOfGeneratedComponentExport_of_name_witness :
  isGeneratedSvelteComponentName (u16 "App__SvelteComponent_") = true
  /\ offsetOfGeneratedComponentExport
       {| getText := u16 "class " ++ u16 "App__SvelteComponent_" |}
     = 9.
Proof.
  split; [reflexivity|].
  exact (offsetOfGeneratedComponentExport_of_name (u16 "class ")
           (u16 "App__SvelteComponent_") eq_refl).
Defined.

Lemma findNodeAtPosition_sound_witness :
  findNodeAtPosition nestedTree 9 None = Some (leaf 5 4 9 10)
  /\ getStart (leaf 5 4 9 10) <= 9 <= getEnd (leaf 5 4 9 10).
Proof.
  split; [reflexivity|].
  exact (proj1 (proj2 (findNodeAtPosition_sound nestedTree 9 None
                         (leaf 5 4 9 10) eq_refl))).
Defined.

Lemma findNodeAtPosition_deepest_witness :
  orderedTree nestedTree = true
  /\ forall n, findNodeAtPosition nestedTree 6 None = Some n ->
       forall c, In c (getChildren n) -> ~ covers 6 c.
Proof.
  split; [reflexivity|].
  exact (proj2 (findNodeAtPosition_deepest nestedTree 6 eq_refl)).
Defined.

Lemma gatherDescendants_complete_witness :
  In (leaf 4 4 5 8) (subtree nestedTree)
  /\ Nat.leb 3 (kind (leaf 4 4 5 8)) = true
  /\ exists m,
       In m (gatherDescendants nestedTree (fun x => Nat.leb 3 (kind x)) [])
       /\ (m = leaf 4 4 5 8 \/ In (leaf 4 4 5 8) (descendants m)).
Proof.
  assert (Hin : In (leaf 4 4 5 8) (subtree nestedTree))
    by (simpl; tauto).
  split; [exact Hin|]. split; [reflexivity|].
  exact (proj1 (gatherDescendants_complete nestedTree
                  (fun x => Nat.leb 3 (kind x)) [])
           (leaf 4 4 5 8) Hin eq_refl).
Defined.


(** With the directory of the expected file missing, the call prints its
    line and throws the error of [writeFileSync]; the disk holds no new
    path. *)
Example updateSnapshotIfFailedOrEmpty_missing_directory :
  updateSnapshotIfFailedOrEmpty (fun _ => u16 "/t")
    (needsDirectory (fun _ => u16 "/t")) (Returns tt) false
    (Returns (u16 "[1]")) (u16 "/t/expected.json") (u16 "/")
    {| entries := ∅; printed := [] |}
  = (Throws ENOENT,
     {| entries := ∅;
        printed := [(u16 "Created /t/expected.json for", u16 "t")] |}).
Proof. reflexivity. Qed.

(** ** Open regions and the order of notifications *)

(** X27. Whatever follows [end], a [true] answer of [isInGeneratedCode]
    means that an open marker lies before [start] on the line of [start],
    with no line break and no close marker between that marker and
    [start]. *)
Theorem isInGeneratedCode_open_region (text : jsstring) (start end_ : Z) :
  isInGeneratedCode text start end_ = true ->
  exists i : nat,
    JS.startsWith (skipn i text) ignoreStart = true
    /\ JS.lastIndexOfFrom text newline start <= Z.of_nat i
    /\ Z.of_nat i + JS.len ignoreStart <= start
    /\ (forall q, (i <= q)%nat -> Z.of_nat q < start ->
                  JS.startsWith (skipn q text) newline = false)
    /\ (forall q, (i < q)%nat -> Z.of_nat q + JS.len ignoreEnd <= start ->
                  JS.startsWith (skipn q text) ignoreEnd = false).
Proof.
  unfold isInGeneratedCode. intros Hres.
  apply andb_prop in Hres as [Hopen _]. apply Z.ltb_lt in Hopen.
  now apply open_marker_before.
Qed.

Lemma isInGeneratedCode_open_region_witness :
  isInGeneratedCode (ignoreStart ++ u16 "abc" ++ ignoreEnd ++ newline) 18 21
  = true
  /\ exists i : nat,
       JS.startsWith
         (skipn i (ignoreStart ++ u16 "abc" ++ ignoreEnd ++ newline))
         ignoreStart = true
       /\ Z.of_nat i + JS.len ignoreStart <= 18.
Proof.
  split; [reflexivity|].
  destruct (isInGeneratedCode_open_region
              (ignoreStart ++ u16 "abc" ++ ignoreEnd ++ newline) 18 21 eq_refl)
    as (i & Hi & _ & Hfit & _).
  exists i. split; [exact Hi | exact Hfit].
Defined.

Section NotificationOrder.
Context `{Platform}.

Lemma watchersOf_same_registry (path : jsstring) (st st' : VirtualSystem) :
  currentDirectory st' = currentDirectory st ->
  watchers st' = watchers st ->
  watchersOf path st' = watchersOf path st
  /\ forall kind cbs,
       notifications st' path kind cbs = notifications st path kind cbs.
Proof.
  intros Hcd Hw. unfold watchersOf, notifications.
  now rewrite (toAbsolute_same_directory st st' path Hcd), Hw.
Qed.

(** X28. The notifications of one path arrive in the order of the
    operations: a write, the deletion and a second write of a path
    announce to each of its watchers first the write, then [Deleted], then
    [Created] again, the file being new once more. *)
Theorem write_delete_write_notifications
    (path data data' : jsstring) (st : VirtualSystem) :
  delivered
    (runTimers (writeFile path data' (deleteFile path (writeFile path data st))))
  = delivered (runTimers st)
    ++ notifications st path (if fileExists path st then Changed else Created)
         (watchersOf path st)
    ++ notifications st path Deleted (watchersOf path st)
    ++ notifications st path Created (watchersOf path st).
Proof.
  set (s1 := writeFile path data st).
  set (s2 := deleteFile path s1).
  assert (Hex1 : fileExists path s1 = true) by apply fileExists_writeFile.
  assert (Hex2 : fileExists path s2 = false) by apply fileExists_deleteFile.
  destruct (writeFile_fields path data st) as (Hcd1 & _ & Hw1 & _).
  destruct (deleteFile_existing_fields path s1 Hex1) as (Hcd2 & _ & Hw2 & _).
  fold s1 in Hcd1, Hw1. fold s2 in Hcd2, Hw2.
  destruct (watchersOf_same_registry path st s1 Hcd1 Hw1) as [Hws1 Hn1].
  destruct (watchersOf_same_registry path s1 s2 Hcd2 Hw2) as [Hws2 Hn2].
  rewrite runTimers_writeFile, Hex2.
  unfold s2 at 1. rewrite (runTimers_deleteFile_existing path s1 Hex1).
  unfold s1 at 1. rewrite runTimers_writeFile.
  rewrite Hws2, Hn2, !Hn1, Hws1.
  now rewrite <- !app_assoc.
Qed.

End NotificationOrder.
